(** * SQLAir: a CSV-backed, SQL-like query engine served over HTTP

    A shallow embedding of [SQLAir.cpp]: the select/update query engine,
    the lazily loaded table registry, the save command and the bounded
    connection scheduler, together with the properties the design
    document states about them. *)

From Stdlib Require Import ZArith Lia Ascii.
From stdpp Require Import base gmap list strings pretty.

(** ** The C++ runtime, as far as the engine uses it *)

(** Exceptions the code can raise: [std::out_of_range] (from [at] on a
    vector, a string-keyed map or a row) and the project's own [Exp]. *)
Inductive exn : Type :=
| out_of_range
| Exp (what : string).

(** The result of evaluating an expression: a value, an exception in
    flight, or undefined behaviour (an unchecked [operator[]] out of
    range, a signed overflow). *)
Inductive result (A : Type) : Type :=
| Ok (a : A)
| Throw (e : exn)
| Undef.
Arguments Ok {A} a.
Arguments Throw {A} e.
Arguments Undef {A}.

#[global] Instance result_ret : MRet result := @Ok.
#[global] Instance result_bind : MBind result := λ A B f m,
  match m with
  | Ok a => f a
  | Throw e => Throw e
  | Undef => Undef
  end.

#[global] Instance exn_eq_dec : EqDecision exn.
Proof. solve_decision. Defined.

(** [std::vector::at]: bounds-checked access.  The index is an [int]
    converted to [size_t], so a negative index is out of range too. *)
Definition vec_at {A} (v : list A) (n : Z) : result A :=
  if decide (0 ≤ n)%Z then
    match v !! Z.to_nat n with
    | Some x => Ok x
    | None => Throw out_of_range
    end
  else Throw out_of_range.

(** [v.at(n) = x]: bounds-checked store. *)
Definition vec_set {A} (v : list A) (n : Z) (x : A) : result (list A) :=
  _ ← vec_at v n; Ok (<[Z.to_nat n := x]> v).

(** [v[i]]: unchecked access, undefined out of range. *)
Definition vec_idx {A} (v : list A) (i : nat) : result A :=
  match v !! i with
  | Some x => Ok x
  | None => Undef
  end.

Definition INT_MAX : Z := 2147483647.

(** [count++] on an [int]. *)
Definition incr (count : Z) : result Z :=
  if decide (count < INT_MAX)%Z then Ok (count + 1)%Z else Undef.

Definition TAB : string := String "009"%char "".
Definition NL : string := String "010"%char "".
Definition CR : string := String "013"%char "".

(** [s.find(p) == 0] *)
Definition starts_with (p s : string) : bool :=
  bool_decide (String.substring 0 (String.length p) s = p).

(** [s.find(p) != std::string::npos] *)
Definition contains (p s : string) : bool :=
  match String.index 0 p s with
  | Some _ => true
  | None => false
  end.

(** The strings of [l], with [sep] between them. *)
Fixpoint join (sep : string) (l : list string) : string :=
  match l with
  | [] => ""
  | [x] => x
  | x :: rest => x +:+ sep +:+ join sep rest
  end.

(** ** Data model *)

Abbreviation StrVec := (list string).

(** A row is its fields; its [rowMutex] shows in the model as the
    atomicity of the per-row steps below. *)
Abbreviation CSVRow := (list string).

(** Modelled from the spec: the [CSV] class ([CSV.h]) is not among the
    sources.  A table is an ordered sequence of rows plus a mapping
    from column name to column index; the names are kept in their
    defined order, a name's index is its position. *)
Record CSV : Type := mkCSV {
  columns : StrVec;
  rows : list CSVRow
}.

#[global] Instance CSV_eq_dec : EqDecision CSV.
Proof. solve_decision. Defined.

(** Modelled from the spec: [CSV::getColumnNames], all the columns in
    their defined order. *)
Definition getColumnNames (csv : CSV) : StrVec := columns csv.

(** Modelled from the spec: [CSV::getColumnIndex]; an unknown column is
    an error of the request. *)
Definition getColumnIndex (csv : CSV) (colName : string) : result Z :=
  match list_find (λ c, c = colName) (columns csv) with
  | Some (i, _) => Ok (Z.of_nat i)
  | None => Throw out_of_range
  end.

Definition set_rows (csv : CSV) (rs : list CSVRow) : CSV :=
  {| columns := columns csv; rows := rs |}.

(** ** External collaborators

    [SQLAirBase::matches] (the evaluator of one where-clause), the
    stream output of a [StrVec], the helpers of [Helper] and the CSV
    codec are declared elsewhere; the engine is parametric in them. *)
Class Collaborators : Type := {
  matches : string → string → string → bool;
  show_StrVec : StrVec → string;
  url_trim : string → string;
  breakDownURL : string → string * string * string;
  (** [CSV::load] from a stream given by its lines; [None] is a stream
      that failed to open *)
  csv_load : option (list string) → result CSV;
  (** [CSV::save]: the lines written *)
  csv_save : CSV → list string
}.

(** ** The query engine, one call in isolation *)

Section QueryEngine.
Context `{Collaborators}.

(** The where-clause test of both row loops:
    [whereColIdx == -1 || matches(row.at(whereColIdx), cond, value)] *)
Definition whereClause (whereColIdx : Z) (cond value : string)
    (row : CSVRow) : result bool :=
  if decide (whereColIdx = -1)%Z then Ok true
  else fld ← vec_at row whereColIdx; Ok (matches fld cond value).

(** The inner loop of [processSelectRow]:
    [toPrint += delim + printRow.at(csv.getColumnIndex(colName))] *)
Fixpoint printColumns (csv : CSV) (printRow : CSVRow) (colNames : StrVec)
    (delim toPrint : string) : result string :=
  match colNames with
  | [] => Ok toPrint
  | colName :: rest =>
      idx ← getColumnIndex csv colName;
      fld ← vec_at printRow idx;
      printColumns csv printRow rest TAB (toPrint +:+ (delim +:+ fld))
  end.

(** One iteration of the loop of [processSelectRow], on the copy
    [printRow] taken under the row's lock. *)
Definition selectRow (csv : CSV) (colNames : StrVec) (whereColIdx : Z)
    (cond value : string) (printRow : CSVRow) (toPrint : string)
    (count : Z) : result (string * Z) :=
  hit ← whereClause whereColIdx cond value printRow;
  if hit : bool then
    toPrint' ← printColumns csv printRow colNames "" toPrint;
    count' ← incr count;
    Ok (toPrint' +:+ NL, count')
  else Ok (toPrint, count).

Fixpoint selectRows (csv : CSV) (colNames : StrVec) (whereColIdx : Z)
    (cond value : string) (rs : list CSVRow) (toPrint : string)
    (count : Z) : result (string * Z) :=
  match rs with
  | [] => Ok (toPrint, count)
  | row :: rest =>
      '(toPrint', count') ←
        selectRow csv colNames whereColIdx cond value row toPrint count;
      selectRows csv colNames whereColIdx cond value rest toPrint' count'
  end.

(** [processSelectRow]: returns the text appended to [toPrint] and the
    number of rows selected. *)
Definition processSelectRow (colNames : StrVec) (toPrint : string)
    (csv : CSV) (whereColIdx : Z) (cond value : string)
    : result (string * Z) :=
  selectRows csv colNames whereColIdx cond value (rows csv) toPrint 0.

(** The inner loop of [processUpdateRow], from index [i] on:
    [row.at(csv.getColumnIndex(colNames[i])) = values[i]].
    [colNames] is what is left of the column list at index [i].  The
    right operand is evaluated first.  The row keeps the stores made
    before a failure. *)
Fixpoint assignColumns (csv : CSV) (colNames values : StrVec) (i : nat)
    (row : CSVRow) : CSVRow * result () :=
  match colNames with
  | [] => (row, Ok ())
  | colName :: rest =>
      match v ← vec_idx values i;
            idx ← getColumnIndex csv colName;
            vec_set row idx v with
      | Ok row' => assignColumns csv rest values (S i) row'
      | Throw e => (row, Throw e)
      | Undef => (row, Undef)
      end
  end.

(** One iteration of the loop of [processUpdateRow], under the row's
    lock. *)
Definition updateRow (csv : CSV) (whereColIdx : Z) (colNames : StrVec)
    (cond value : string) (values : StrVec) (row : CSVRow) (count : Z)
    : CSVRow * result Z :=
  match whereClause whereColIdx cond value row with
  | Ok true =>
      let '(row', r) := assignColumns csv colNames values 0 row in
      (row', _ ← r; incr count)
  | Ok false => (row, Ok count)
  | Throw e => (row, Throw e)
  | Undef => (row, Undef)
  end.

Fixpoint updateRows (csv : CSV) (whereColIdx : Z) (colNames : StrVec)
    (cond value : string) (values : StrVec) (rs : list CSVRow)
    (count : Z) : list CSVRow * result Z :=
  match rs with
  | [] => ([], Ok count)
  | row :: rest =>
      match updateRow csv whereColIdx colNames cond value values row count with
      | (row', Ok count') =>
          let '(rest', r) :=
            updateRows csv whereColIdx colNames cond value values rest count' in
          (row' :: rest', r)
      | (row', r) => (row' :: rest, r)
      end
  end.

(** [processUpdateRow]: the table after the loop (also when the loop
    was left by an exception) and the number of rows updated. *)
Definition processUpdateRow (csv : CSV) (whereColIdx : Z)
    (colNames : StrVec) (cond value : string) (values : StrVec)
    : CSV * result Z :=
  let '(rs, r) :=
    updateRows csv whereColIdx colNames cond value values (rows csv) 0 in
  (set_rows csv rs, r).

(** The first statement of both queries:
    [if (colNames.at(0) == "*") colNames = csv.getColumnNames();] *)
Definition expandStar (csv : CSV) (colNames : StrVec) : result StrVec :=
  first ← vec_at colNames 0;
  Ok (if decide (first = "*") then getColumnNames csv else colNames).

(** How a call ends when no other thread touches the table. *)
Inductive outcome : Type :=
| Returned (os : string)   (* the text written to [os] *)
| Raised (e : exn)
| Undefined
| Blocked.                 (* suspended in [csvCondVar.wait] *)

Definition selectReport (colNames : StrVec) (toPrint : string)
    (count : Z) : string :=
  (if decide (0 < count)%Z
   then show_StrVec colNames +:+ NL +:+ toPrint else "")
  +:+ pretty count +:+ " row(s) selected." +:+ NL.

Definition updateReport (count : Z) : string :=
  pretty count +:+ " row(s) updated." +:+ NL.

(** [selectQuery] from the resolved column list on, alone on the
    table: with [mustWait] and no row selected it enters the wait
    loop, where only another thread can release it. *)
Definition selectResolved (csv : CSV) (mustWait : bool)
    (colNames : StrVec) (whereColIdx : Z) (cond value : string)
    : outcome :=
  match processSelectRow colNames "" csv whereColIdx cond value with
  | Ok (toPrint, count) =>
      if mustWait && bool_decide (count < 1)%Z then Blocked
      else Returned (selectReport colNames toPrint count)
  | Throw e => Raised e
  | Undef => Undefined
  end.

Definition selectQuery (csv : CSV) (mustWait : bool) (colNames : StrVec)
    (whereColIdx : Z) (cond value : string) : outcome :=
  match expandStar csv colNames with
  | Ok colNames' =>
      selectResolved csv mustWait colNames' whereColIdx cond value
  | Throw e => Raised e
  | Undef => Undefined
  end.

(** [updateQuery] from the resolved column list on, alone on the
    table: the table it leaves, whether it called
    [csvCondVar.notify_all], and how it ended. *)
Definition updateResolved (csv : CSV) (mustWait : bool)
    (colNames values : StrVec) (whereColIdx : Z) (cond value : string)
    : CSV * bool * outcome :=
  match processUpdateRow csv whereColIdx colNames cond value values with
  | (csv', Ok count) =>
      if mustWait && bool_decide (count < 1)%Z then (csv', false, Blocked)
      else (csv', bool_decide (0 < count)%Z, Returned (updateReport count))
  | (csv', Throw e) => (csv', false, Raised e)
  | (csv', Undef) => (csv', false, Undefined)
  end.

Definition updateQuery (csv : CSV) (mustWait : bool)
    (colNames values : StrVec) (whereColIdx : Z) (cond value : string)
    : CSV * bool * outcome :=
  match expandStar csv colNames with
  | Ok colNames' =>
      updateResolved csv mustWait colNames' values whereColIdx cond value
  | Throw e => (csv, false, Raised e)
  | Undef => (csv, false, Undefined)
  end.

End QueryEngine.

(** ** The table registry *)

(** What is outside the process: the local files, by path and as their
    lines; the web servers, by host, port and path, with the lines
    they answer ([None]: the connection fails); and the paths at which
    a file can be opened for writing (the directory is there, the path
    is no directory, the file may be written). *)
Record World : Type := mkWorld {
  files : gmap string (list string);
  remote : string → string → string → option (list string);
  writable : string → bool
}.

(** The registry members of [SQLAir]. *)
Record SQLAir : Type := mkSQLAir {
  inMemoryCSV : gmap string CSV;
  recentCSV : string
}.

(** A [CSV&] into [inMemoryCSV]: the nodes of a [std::unordered_map]
    never move, so the reference is the key of its node. *)
Abbreviation CSVRef := string.

Section Registry.
Context `{Collaborators}.

(** The loop that skips the response headers: it reads lines up to
    and including the first empty one. *)
Fixpoint skipHeaders (data : list string) : list string :=
  match data with
  | [] => []
  | str :: rest =>
      if decide (str = "" ∨ str = CR) then rest else skipHeaders rest
  end.

(** [setupDownload]: what is left of the stream once the status line
    and the headers are read. *)
Definition setupDownload (w : World) (hostName path port : string)
    : result (list string) :=
  match remote w hostName port path with
  | None =>
      Throw (Exp ("Unable to connect to " +:+ hostName +:+ " at port "
                  +:+ port))
  | Some data =>
      let line := default "" (head data) in
      if contains "200 OK" line then Ok (skipHeaders (tail data))
      else Throw (Exp ("Error (" +:+ url_trim line +:+ ") getting "
                       +:+ path +:+ " from " +:+ hostName
                       +:+ " at port " +:+ port))
  end.

(** The first critical section of [loadAndGet]: the identifier after
    the substitution, recorded as the most recent one, and whether
    its table is resident. *)
Definition lookupRecent (st : SQLAir) (fileOrURL : string)
    : SQLAir * string * bool :=
  let fileOrURL :=
    if decide (fileOrURL = "") then recentCSV st else fileOrURL in
  ({| inMemoryCSV := inMemoryCSV st; recentCSV := fileOrURL |},
   fileOrURL,
   bool_decide (is_Some (inMemoryCSV st !! fileOrURL))).

(** The load outside the critical sections, into a fresh [CSV]. *)
Definition loadSource (w : World) (fileOrURL : string) : result CSV :=
  if starts_with "http://" fileOrURL then
    let '(host, port, path) := breakDownURL fileOrURL in
    data ← setupDownload w host path port;
    csv_load (Some data)
  else csv_load (files w !! fileOrURL).

(** The second critical section: [inMemoryCSV[fileOrURL].move(csv)]. *)
Definition publish (st : SQLAir) (fileOrURL : string) (csv : CSV)
    : SQLAir :=
  {| inMemoryCSV := <[fileOrURL := csv]> (inMemoryCSV st);
     recentCSV := recentCSV st |}.

Definition loadAndGet (w : World) (st : SQLAir) (fileOrURL : string)
    : SQLAir * result CSVRef :=
  let '(st1, fileOrURL, resident) := lookupRecent st fileOrURL in
  if resident : bool then (st1, Ok fileOrURL)
  else
    match loadSource w fileOrURL with
    | Ok csv => (publish st1 fileOrURL csv, Ok fileOrURL)
    | Throw e => (st1, Throw e)
    | Undef => (st1, Undef)
    end.

(** The content of the file at [path] becomes [data]. *)
Definition write_file (w : World) (path : string) (data : list string)
    : World :=
  {| files := <[path := data]> (files w); remote := remote w;
     writable := writable w |}.

(** [std::ofstream csvData(path)]: the world it leaves, and whether the
    stream is open.  When the file can be opened it is created, or
    emptied when it exists; when it cannot, nothing is created or
    emptied and the stream is in its failed state. *)
Definition open_trunc (w : World) (path : string) : World * bool :=
  if writable w path then (write_file w path [], true) else (w, false).

(** [csv.save(csvData)]: a stream that is not open takes nothing. *)
Definition save_to (w : World) (opened : bool) (path : string)
    (data : list string) : World :=
  if opened then write_file w path data else w.

(** [saveQuery]: the world it leaves and the text written to [os].
    The stream is never tested. *)
Definition saveQuery (w : World) (st : SQLAir) : World * result string :=
  if bool_decide (recentCSV st = "") || starts_with "http://" (recentCSV st)
  then (w, Throw (Exp "Saving CSV to an URL using POST is not implemented"))
  else
    let '(w1, csvData) := open_trunc w (recentCSV st) in
    match inMemoryCSV st !! recentCSV st with
    | None => (w1, Throw out_of_range)
    | Some csv =>
        (save_to w1 csvData (recentCSV st) (csv_save csv),
         Ok (recentCSV st +:+ " saved." +:+ NL))
    end.

End Registry.

(** ** The connection scheduler

    [runServer] and the workers it starts, as a transition system over
    the shared counter [numThreads].  Neither [numThreads++] in the
    scheduler nor [numThreads--] in a worker is made under a lock, so
    each is a read followed by a write; the atomic execution is the run
    in which the two steps follow each other. *)

Inductive runServer_pc : Type :=
| Accepting                 (* in [server.accept] *)
| Admitting                 (* in [thrCond.wait(lock, pred)] *)
| Spawned                   (* the worker is started, before [numThreads++] *)
| Incrementing (n : Z).     (* [numThreads] read, the store pending *)

Inductive serveClient_pc : Type :=
| Serving                   (* in [serveClient], before [numThreads--] *)
| Decrementing (n : Z)      (* [numThreads] read, the store pending *)
| Notifying                 (* before [thrCond.notify_one] *)
| Finished.

Record Server : Type := mkServer {
  numThreads : Z;
  sched : runServer_pc;
  workers : list serveClient_pc
}.

(** Modelled from the spec: [numThreads] is declared in [SQLAir.h],
    which is not among the sources; it counts the active workers, and
    none is active when [runServer] starts. *)
Definition server_init : Server :=
  {| numThreads := 0; sched := Accepting; workers := [] |}.

(** The next step of the loop of [runServer] with at most [maxThr]
    workers: a client connects; the wait ends, which it does only when
    its predicate [numThreads < maxThr] holds, and the worker thread is
    started; [numThreads] is read; [numThreads] is stored.  [None]: the
    wait does not end.  When the predicate holds the wait can end, and
    whether it does is a matter of the suspension inside the wait: that
    is added to these steps in [thrCond_wait] below, whose runs are
    runs of the steps given here. *)
Definition runServer (maxThr : Z) (s : Server) : option Server :=
  match sched s with
  | Accepting =>
      Some {| numThreads := numThreads s; sched := Admitting;
              workers := workers s |}
  | Admitting =>
      if decide (numThreads s < maxThr)%Z then
        Some {| numThreads := numThreads s; sched := Spawned;
                workers := workers s ++ [Serving] |}
      else None
  | Spawned =>
      Some {| numThreads := numThreads s;
              sched := Incrementing (numThreads s);
              workers := workers s |}
  | Incrementing n =>
      Some {| numThreads := n + 1; sched := Accepting;
              workers := workers s |}
  end.

(** The next step of worker [k] from the end of its request on, the
    last two statements of [serveClient]: [numThreads] is read;
    [numThreads] is stored; [thrCond.notify_one()].  [None]: there is no
    such worker, or it is over. *)
Definition serveClient (k : nat) (s : Server) : option Server :=
  match workers s !! k with
  | Some Serving =>
      Some {| numThreads := numThreads s; sched := sched s;
              workers := <[k := Decrementing (numThreads s)]> (workers s) |}
  | Some (Decrementing n) =>
      Some {| numThreads := n - 1; sched := sched s;
              workers := <[k := Notifying]> (workers s) |}
  | Some Notifying =>
      Some {| numThreads := numThreads s; sched := sched s;
              workers := <[k := Finished]> (workers s) |}
  | Some Finished | None => None
  end.

(** Who moves. *)
Inductive server_event : Type :=
| Scheduler
| Worker (k : nat).

Definition server_step (maxThr : Z) (s : Server) (ev : server_event)
    : option Server :=
  match ev with
  | Scheduler => runServer maxThr s
  | Worker k => serveClient k s
  end.

Fixpoint server_run (maxThr : Z) (s : Server) (evs : list server_event)
    : option Server :=
  match evs with
  | [] => Some s
  | ev :: evs' => s' ← server_step maxThr s ev; server_run maxThr s' evs'
  end.

(** ** The wait of the scheduler

    [thrCond.wait(lock, pred)] is [while (!pred()) thrCond.wait(lock);]:
    the scheduler tests the predicate and, when it is false, suspends
    itself on [thrCond] until a [notify_one] or a spurious wake-up, and
    then tests again.  [serverMutex] is a local variable of [runServer]
    that no worker locks, so a worker decrements and notifies at any
    time, also between the test and the suspension. *)

Inductive wait_pc : Type :=
| Testing       (* before [pred()] *)
| Blocking      (* [pred()] was false, before [thrCond.wait(lock)] suspends *)
| Suspended.    (* suspended on [thrCond] *)

(** The server, and where its scheduler is when it is in the wait. *)
Record Admission : Type := mkAdmission {
  server : Server;
  in_wait : wait_pc
}.

Definition admission_init : Admission :=
  {| server := server_init; in_wait := Testing |}.

(** The next step of the scheduler inside the wait: the predicate is
    tested, and the wait ends when it holds; [thrCond.wait(lock)]
    suspends the scheduler.  [None]: the scheduler is suspended. *)
Definition thrCond_wait (maxThr : Z) (a : Admission) : option Admission :=
  match in_wait a with
  | Testing =>
      if decide (numThreads (server a) < maxThr)%Z then
        s' ← runServer maxThr (server a);
        Some {| server := s'; in_wait := Testing |}
      else Some {| server := server a; in_wait := Blocking |}
  | Blocking => Some {| server := server a; in_wait := Suspended |}
  | Suspended => None
  end.

(** [thrCond.notify_one()]: the scheduler, the one thread that waits
    on [thrCond], is woken up when it is suspended; otherwise there is
    nobody to wake up and the call has no effect. *)
Definition notify_one (p : wait_pc) : wait_pc :=
  match p with
  | Suspended => Testing
  | _ => p
  end.

(** Who moves: the scheduler or a worker, or the scheduler is woken up
    without a notification. *)
Inductive admission_event : Type :=
| Move (ev : server_event)
| SpuriousWake.

Definition admission_step (maxThr : Z) (a : Admission)
    (ev : admission_event) : option Admission :=
  match ev with
  | Move Scheduler =>
      match sched (server a) with
      | Admitting => thrCond_wait maxThr a
      | _ =>
          s' ← runServer maxThr (server a);
          Some {| server := s'; in_wait := Testing |}
      end
  | Move (Worker k) =>
      s' ← serveClient k (server a);
      Some {| server := s';
              in_wait := match workers (server a) !! k with
                         | Some Notifying => notify_one (in_wait a)
                         | _ => in_wait a
                         end |}
  | SpuriousWake =>
      match in_wait a with
      | Suspended => Some {| server := server a; in_wait := Testing |}
      | _ => None
      end
  end.

Fixpoint admission_run (maxThr : Z) (a : Admission)
    (evs : list admission_event) : option Admission :=
  match evs with
  | [] => Some a
  | ev :: evs' =>
      a' ← admission_step maxThr a ev; admission_run maxThr a' evs'
  end.

(** ** The query engine among other threads

    A table is shared by the calls that run on it.  Each call is a
    small machine whose steps are the accesses to what is shared: one
    row under its [rowMutex], the table's [csvMutex], its [csvCondVar].
    What lies between two such accesses is local and belongs to the
    step before it. *)

Inductive stmt : Type :=
| SELECT
| UPDATE (values : StrVec).

(** The arguments of a call to [selectQuery] or [updateQuery]. *)
Record query : Type := mkQuery {
  kind : stmt;
  mustWait : bool;
  colNames : StrVec;
  whereColIdx : Z;
  cond : string;
  value : string
}.

Inductive pc : Type :=
| AtEntry
    (* before [colNames.at(0)] *)
| InScan (held : bool) (i : nat) (toPrint : string) (count : Z)
    (* in [processSelectRow] or [processUpdateRow], before row [i];
       [held]: called from the wait loop, with [csvMutex] locked *)
| AtLock (toPrint : string)
    (* in the wait loop, before [unique_lock lock(csv.csvMutex)] *)
| AtWait (toPrint : string)
    (* [csvMutex] locked, before [csvCondVar.wait(lock)] *)
| Waiting (toPrint : string)
    (* suspended in [wait], [csvMutex] released *)
| Woken (toPrint : string)
    (* woken up, before [wait] has locked [csvMutex] again *)
| AtNotify (count : Z)
    (* [updateQuery], before [csvCondVar.notify_all()] *)
| Done (count : Z) (os : string)
    (* returned, with the text written to [os] *)
| Failed (e : exn)
    (* left by an exception *)
| Crashed.
    (* undefined behaviour *)

Record Thread : Type := mkThread {
  qry : query;
  cols : StrVec;      (* the local [colNames], after the expansion *)
  at_pc : pc
}.

Record Shared : Type := mkShared {
  table : CSV;
  csvMutex : option nat      (* the thread that holds it *)
}.

Definition enter (q : query) : Thread :=
  {| qry := q; cols := colNames q; at_pc := AtEntry |}.

Definition goto (t : Thread) (p : pc) : Thread :=
  {| qry := qry t; cols := cols t; at_pc := p |}.

Definition unlock (held : bool) (sh : Shared) : Shared :=
  if held then {| table := table sh; csvMutex := None |} else sh.

Definition lock (me : nat) (sh : Shared) : option Shared :=
  match csvMutex sh with
  | None => Some {| table := table sh; csvMutex := Some me |}
  | Some _ => None
  end.

Definition store_row (sh : Shared) (i : nat) (row : CSVRow) : Shared :=
  {| table := set_rows (table sh) (<[i := row]> (rows (table sh)));
     csvMutex := csvMutex sh |}.

Section Machine.
Context `{Collaborators}.

(** What follows a scan: the end of the enclosing block (which
    unlocks [csvMutex] when in the wait loop), the test of
    [count < 1], and either the wait loop or the report. *)
Definition after_scan (t : Thread) (held : bool) (toPrint : string)
    (count : Z) : pc :=
  if (held || mustWait (qry t)) && bool_decide (count < 1)%Z
  then AtLock toPrint
  else
    match kind (qry t) with
    | SELECT => Done count (selectReport (cols t) toPrint count)
    | UPDATE _ =>
        if decide (0 < count)%Z then AtNotify count
        else Done count (updateReport count)
    end.

(** One step of thread [me]: the shared state and the thread after
    it, and whether the step is [notify_all].  [None]: the thread
    cannot move (it is suspended, waits for [csvMutex], or is over). *)
Definition thread_step (me : nat) (sh : Shared) (t : Thread)
    : option (Shared * Thread * bool) :=
  let q := qry t in
  match at_pc t with
  | AtEntry =>
      match expandStar (table sh) (colNames q) with
      | Ok colNames' =>
          Some (sh, {| qry := q; cols := colNames';
                       at_pc := InScan false 0 "" 0 |}, false)
      | Throw e => Some (sh, goto t (Failed e), false)
      | Undef => Some (sh, goto t Crashed, false)
      end
  | InScan held i toPrint count =>
      match rows (table sh) !! i with
      | None =>
          Some (unlock held sh, goto t (after_scan t held toPrint count),
                false)
      | Some row =>
          match kind q with
          | SELECT =>
              match selectRow (table sh) (cols t) (whereColIdx q) (cond q)
                      (value q) row toPrint count with
              | Ok (toPrint', count') =>
                  Some (sh, goto t (InScan held (S i) toPrint' count'),
                        false)
              | Throw e => Some (unlock held sh, goto t (Failed e), false)
              | Undef => Some (sh, goto t Crashed, false)
              end
          | UPDATE values =>
              let '(row', r) :=
                updateRow (table sh) (whereColIdx q) (cols t) (cond q)
                  (value q) values row count in
              let sh' := store_row sh i row' in
              match r with
              | Ok count' =>
                  Some (sh', goto t (InScan held (S i) toPrint count'),
                        false)
              | Throw e => Some (unlock held sh', goto t (Failed e), false)
              | Undef => Some (sh', goto t Crashed, false)
              end
          end
      end
  | AtLock toPrint =>
      sh' ← lock me sh; Some (sh', goto t (AtWait toPrint), false)
  | AtWait toPrint =>
      Some (unlock true sh, goto t (Waiting toPrint), false)
  | Waiting _ => None
  | Woken toPrint =>
      sh' ← lock me sh; Some (sh', goto t (InScan true 0 toPrint 0), false)
  | AtNotify count =>
      Some (sh, goto t (Done count (updateReport count)), true)
  | Done _ _ | Failed _ | Crashed => None
  end.

(** What a notification, or a spurious wake-up, does to a thread. *)
Definition wake (t : Thread) : Thread :=
  match at_pc t with
  | Waiting toPrint => goto t (Woken toPrint)
  | _ => t
  end.

Record System : Type := mkSystem {
  shared : Shared;
  threads : list Thread
}.

Inductive label : Type :=
| Step (i : nat)        (* thread [i] moves *)
| NotifyAll (i : nat)   (* thread [i] calls [csvCondVar.notify_all] *)
| Spurious (i : nat).   (* thread [i] wakes up without a notification *)

#[global] Instance label_eq_dec : EqDecision label.
Proof. solve_decision. Defined.

(** One step of the system; [None] when the label is not enabled. *)
Definition sys_step (s : System) (l : label) : option System :=
  match l with
  | Step i =>
      t ← threads s !! i;
      '(sh', t', notify) ← thread_step i (shared s) t;
      if notify : bool then None
      else Some {| shared := sh'; threads := <[i := t']> (threads s) |}
  | NotifyAll i =>
      t ← threads s !! i;
      '(sh', t', notify) ← thread_step i (shared s) t;
      if notify : bool
      then Some {| shared := sh';
                   threads := wake <$> <[i := t']> (threads s) |}
      else None
  | Spurious i =>
      t ← threads s !! i;
      match at_pc t with
      | Waiting _ =>
          Some {| shared := shared s;
                  threads := <[i := wake t]> (threads s) |}
      | _ => None
      end
  end.

Fixpoint sys_run (s : System) (ls : list label) : option System :=
  match ls with
  | [] => Some s
  | l :: ls' => s' ← sys_step s l; sys_run s' ls'
  end.

(** [P] holds of every state the run goes through. *)
Fixpoint along (P : System → Prop) (s : System) (ls : list label) : Prop :=
  P s ∧
  match ls with
  | [] => True
  | l :: ls' =>
      match sys_step s l with
      | Some s' => along P s' ls'
      | None => True
      end
  end.

(** A row on which the where-clause of [q] holds. *)
Definition row_matches (q : query) (row : CSVRow) : Prop :=
  whereClause (whereColIdx q) (cond q) (value q) row = Ok true.

(** No row of the table matches [q]. *)
Definition no_match (q : query) (s : System) : Prop :=
  ∀ row, row ∈ rows (table (shared s)) → ¬ row_matches q row.

(** The calls have just been made, nobody holds [csvMutex]. *)
Definition initial (s : System) : Prop :=
  csvMutex (shared s) = None ∧ ∀ t, t ∈ threads s → at_pc t = AtEntry.

End Machine.

(** ** What the properties are stated with *)

Section Terms.
Context `{Collaborators}.

(** Every row has one field per column. *)
Definition table_ok (csv : CSV) : Prop :=
  Forall (λ row : CSVRow, length row = length (columns csv)) (rows csv).

(** Every requested column is a column of the table. *)
Definition cols_ok (csv : CSV) (colNames : StrVec) : Prop :=
  Forall (λ c, c ∈ columns csv) colNames.

(** The where-clause is omitted or designates a column. *)
Definition where_ok (csv : CSV) (whereColIdx : Z) : Prop :=
  whereColIdx = (-1)%Z ∨ (0 ≤ whereColIdx < Z.of_nat (length (columns csv)))%Z.

(** The row is matched: there is no where-clause, or its designated
    field satisfies the predicate. *)
Definition selected (whereColIdx : Z) (cond value : string)
    (row : CSVRow) : bool :=
  bool_decide (whereColIdx = -1)%Z ||
  match row !! Z.to_nat whereColIdx with
  | Some fld => matches fld cond value
  | None => false
  end.

(** The matched rows of [rs], in their order. *)
Definition hits (whereColIdx : Z) (cond value : string)
    (rs : list CSVRow) : list CSVRow :=
  filter (λ row, selected whereColIdx cond value row = true) rs.

Definition column_of (csv : CSV) (colName : string) : option nat :=
  fst <$> list_find (λ c, c = colName) (columns csv).

(** The line a selected row adds to the output. *)
Definition rowLine (csv : CSV) (colNames : StrVec) (row : CSVRow)
    : string :=
  join TAB ((λ c, default "" (column_of csv c ≫= (row !!.))) <$> colNames)
  +:+ NL.

(** The row with the named columns overwritten by the values, pair by
    pair in the order of the lists. *)
Definition overwrite (csv : CSV) (colNames values : StrVec)
    (row : CSVRow) : CSVRow :=
  foldl (λ r '(c, v),
           match column_of csv c with
           | Some i => <[i := v]> r
           | None => r
           end) row (zip colNames values).

Definition text (lines : list string) : string :=
  foldr String.append "" lines.

End Terms.

(** ** Invariants of the runs *)

Section Invariants.
Context `{Collaborators}.

(** The move of thread [i], from [t] to [t'], in a step labelled [l]
    from state [s]. *)
Definition thread_move (s : System) (l : label) (i : nat)
    (t t' : Thread) : Prop :=
  match l with
  | Step j =>
      if decide (j = i)
      then ∃ sh', thread_step i (shared s) t = Some (sh', t', false)
      else t' = t
  | NotifyAll j =>
      if decide (j = i)
      then ∃ sh' t0, thread_step i (shared s) t = Some (sh', t0, true)
                     ∧ t' = wake t0
      else t' = wake t
  | Spurious j => if decide (j = i) then t' = wake t else t' = t
  end.

(** The call is a call of [updateQuery]. *)
Definition is_update (q : query) : Prop :=
  match kind q with
  | UPDATE _ => True
  | SELECT => False
  end.

(** What holds of thread [i] after the run [ls]: it has called
    [notify_all] exactly when it is an update that is over with a
    positive count. *)
Definition notify_inv (i : nat) (ls : list label) (t : Thread) : Prop :=
  match at_pc t with
  | Done count os =>
      (0 ≤ count)%Z ∧
      match kind (qry t) with
      | UPDATE _ =>
          os = updateReport count
          ∧ (NotifyAll i ∈ ls ↔ (0 < count)%Z)
          ∧ ((count ≤ 0)%Z → mustWait (qry t) = false)
      | SELECT => NotifyAll i ∉ ls
      end
  | AtNotify count =>
      (0 < count)%Z ∧ (NotifyAll i ∉ ls) ∧ is_update (qry t)
  | InScan _ _ _ count => (0 ≤ count)%Z ∧ NotifyAll i ∉ ls
  | _ => NotifyAll i ∉ ls
  end.

(** What holds of a call with [mustWait] as long as no row matches:
    it has counted no row, and it is not over. *)
Definition waits_inv (t : Thread) : Prop :=
  match at_pc t with
  | InScan _ _ _ count => count = 0%Z
  | AtNotify _ | Done _ _ => False
  | _ => True
  end.

End Invariants.

(** What every reachable state of the server satisfies: the counter is
    at most the maximum, and so is every value of it that a worker has
    read and is about to decrement; between the admission test and the
    end of the increment, the counter, or the value read from it, is
    below the maximum. *)
Definition server_inv (maxThr : Z) (s : Server) : Prop :=
  (numThreads s ≤ maxThr)%Z
  ∧ Forall (λ w, match w with
                 | Decrementing n => (n ≤ maxThr)%Z
                 | _ => True
                 end) (workers s)
  ∧ match sched s with
    | Spawned => (numThreads s < maxThr)%Z
    | Incrementing n => (n < maxThr)%Z
    | _ => True
    end.

(** ** The running example of the design document *)

Module Scenario.

(** An evaluator with the two operators the examples use. *)
Definition matches_demo (fld cond value : string) : bool :=
  if decide (cond = "=") then bool_decide (fld = value)
  else if decide (cond = "!=") then bool_decide (fld ≠ value)
  else false.

(** A codec for tables of one column: the first line names the
    column, every further line is a row. *)
Definition load_demo (data : option (list string)) : result CSV :=
  match data with
  | Some (header :: body) =>
      if decide (header = "") then Throw (Exp "no column name")
      else Ok (mkCSV [header] ((λ l, [l]) <$> body))
  | Some [] => Throw (Exp "empty CSV")
  | None => Throw (Exp "unable to read")
  end.

Definition save_demo (csv : CSV) : list string :=
  join "," (columns csv) :: (join "," <$> rows csv).

#[export] Instance demo : Collaborators := {|
  matches := matches_demo;
  show_StrVec := join TAB;
  url_trim := id;
  breakDownURL := λ url, ("localhost", "80", url);
  csv_load := load_demo;
  csv_save := save_demo
|}.

(** [people.csv] *)
Definition people : CSV :=
  mkCSV ["name"; "age"] [["Ann"; "30"]; ["Bob"; "25"]].

(** A server directory with a table and a file that is not one, and
    no web server in reach. *)
Definition disk : World :=
  {| files := {[ "good.csv" := ["name"; "Ann"; "Bob"];
                 "bad.csv" := [""; "junk"] ]};
     remote := λ _ _ _, None;
     writable := λ _, true |}.

(** The same directory, mounted read-only. *)
Definition readonly : World :=
  {| files := files disk; remote := remote disk; writable := λ _, false |}.

Definition fresh : SQLAir := {| inMemoryCSV := ∅; recentCSV := "" |}.

(** [select name where age = 99] with [waitMode], and the update
    [age = 99 where name = Bob] that releases it. *)
Definition waiting_select : query :=
  mkQuery SELECT true ["name"] 1 "=" "99".

Definition bob_update : query :=
  mkQuery (UPDATE ["99"]) false ["age"] 0 "=" "Bob".

(** An update that matches no row. *)
Definition carl_update : query :=
  mkQuery (UPDATE ["99"]) false ["age"] 0 "=" "Carl".

Definition two_clients : System :=
  {| shared := {| table := people; csvMutex := None |};
     threads := [enter waiting_select; enter bob_update] |}.

(** The select scans, finds nothing and suspends itself. *)
Definition select_blocks : list label := replicate 6 (Step 0).

(** The update scans, overwrites Bob's row and notifies. *)
Definition update_commits : list label :=
  replicate 4 (Step 1) ++ [NotifyAll 1].

(** The select, woken up, scans again and reports. *)
Definition select_rescans : list label := replicate 4 (Step 0).

End Scenario.

(** ** Further vocabulary *)

(** Two tables of the same shape: the same columns, as many rows, and
    row by row as many fields. *)
Definition same_shape (csv csv' : CSV) : Prop :=
  columns csv' = columns csv
  ∧ Forall2 (λ row row' : CSVRow, length row' = length row)
      (rows csv) (rows csv').

(** A sequence of resolves, each in the world of its time. *)
Fixpoint resolves `{Collaborators} (st : SQLAir)
    (requests : list (World * string)) : SQLAir :=
  match requests with
  | [] => st
  | (w, request) :: rest => resolves (loadAndGet w st request).1 rest
  end.

(** The workers that are started and have not begun to leave. *)
Fixpoint count_serving (ws : list serveClient_pc) : nat :=
  match ws with
  | [] => 0
  | Serving :: ws' => S (count_serving ws')
  | _ :: ws' => count_serving ws'
  end.

Definition serving (s : Server) : nat := count_serving (workers s).

(** A step of the server in which [numThreads++] and [numThreads--]
    are not interrupted: the read and the store are made together. *)
Definition atomic_step (maxThr : Z) (s : Server) (ev : server_event)
    : option Server :=
  match ev with
  | Scheduler =>
      match sched s with
      | Spawned => server_run maxThr s [Scheduler; Scheduler]
      | _ => runServer maxThr s
      end
  | Worker k =>
      match workers s !! k with
      | Some Serving => server_run maxThr s [Worker k; Worker k]
      | _ => serveClient k s
      end
  end.

Fixpoint atomic_run (maxThr : Z) (s : Server) (evs : list server_event)
    : option Server :=
  match evs with
  | [] => Some s
  | ev :: evs' => s' ← atomic_step maxThr s ev; atomic_run maxThr s' evs'
  end.

(** What the states of such runs satisfy: the counter counts the
    serving workers, but for the one just started whose increment is
    still to come. *)
Definition atomic_inv (maxThr : Z) (s : Server) : Prop :=
  Z.of_nat (serving s)
  = (numThreads s + match sched s with Spawned => 1 | _ => 0 end)%Z
  ∧ Forall (λ w, ∀ n, w ≠ Decrementing n) (workers s)
  ∧ match sched s with
    | Spawned => (numThreads s < maxThr)%Z
    | Incrementing _ => False
    | _ => (numThreads s ≤ maxThr)%Z
    end.

(** Nothing was ever dispatched. *)
Definition idle_inv (s : Server) : Prop :=
  workers s = [] ∧ numThreads s = 0%Z
  ∧ (sched s = Accepting ∨ sched s = Admitting).

(** The thread is between locking [csvMutex] and waiting, or in a scan
    of the wait loop: it holds [csvMutex]. *)
Definition holds_mutex (t : Thread) : Prop :=
  match at_pc t with
  | AtWait _ | InScan true _ _ _ => True
  | _ => False
  end.

(** [csvMutex] names the thread that holds it, and only such a thread
    (or one that met undefined behaviour while holding it). *)
Definition mutex_inv (s : System) : Prop :=
  (∀ i t, threads s !! i = Some t → holds_mutex t →
     csvMutex (shared s) = Some i)
  ∧ (∀ i, csvMutex (shared s) = Some i →
       ∃ t, threads s !! i = Some t
            ∧ (holds_mutex t ∨ at_pc t = Crashed)).

(** ** A worker's request

    What [serveClient] does with its streams before it gives its slot
    back. *)

(** The fixed header of every answer to a query. *)
Definition HTTPRespHeader : string :=
  "HTTP/1.1 200 OK" +:+ CR +:+ NL +:+
  "Server: localhost" +:+ CR +:+ NL +:+
  "Connection: Close" +:+ CR +:+ NL +:+
  "Content-Type: text/plain" +:+ CR +:+ NL +:+
  "Content-Length: ".

(** [std::isspace] in the C locale. *)
Definition isspace (c : ascii) : bool :=
  (c =? " ")%char || (c =? "009")%char || (c =? "010")%char
  || (c =? "011")%char || (c =? "012")%char || (c =? "013")%char.

Fixpoint skip_ws (s : string) : string :=
  match s with
  | String c s' => if isspace c then skip_ws s' else s
  | EmptyString => EmptyString
  end.

(** The characters up to the next white space, and the stream from
    that white space on. *)
Fixpoint read_word (s : string) : string * string :=
  match s with
  | String c s' =>
      if isspace c then (EmptyString, s)
      else let '(word, rest) := read_word s' in (String c word, rest)
  | EmptyString => (EmptyString, EmptyString)
  end.

(** [is >> word]: leading white space is skipped; the extraction fails
    when the end of the stream comes first. *)
Definition extract (is_ : string) : option (string * string) :=
  match skip_ws is_ with
  | EmptyString => None
  | s => Some (read_word s)
  end.

(** The lines [std::getline] reads from a stream, one after the other
    to its end. *)
Fixpoint lines_of (s : string) : list string :=
  match s with
  | EmptyString => []
  | String c s' =>
      if (c =? "010")%char then EmptyString :: lines_of s'
      else
        match lines_of s' with
        | [] => [String c EmptyString]
        | line :: rest => String c line :: rest
        end
  end.

(** [while (std::getline(is, tmp) && (tmp != "\r")) {}]: the lines
    left unread. *)
Fixpoint skip_request (data : list string) : list string :=
  match data with
  | [] => []
  | tmp :: rest => if decide (tmp = CR) then rest else skip_request rest
  end.

(** The first two statements of [serveClient]: [line], the second word
    of the request, empty when an extraction failed, and the lines left
    unread (after a failed extraction every read fails). *)
Definition read_request (is_ : string) : string * list string :=
  match extract is_ with
  | Some (useless, rest) =>
      match extract rest with
      | Some (line, rest') => (line, skip_request (lines_of rest'))
      | None => (EmptyString, [])
      end
  | None => (EmptyString, [])
  end.

(** [s.find(c)] *)
Fixpoint find_char (c : ascii) (s : string) : option nat :=
  match s with
  | EmptyString => None
  | String c' s' => if (c' =? c)%char then Some 0 else S <$> find_char c s'
  end.

(** [s.substr(n)], for [n] within [s]. *)
Fixpoint string_drop (n : nat) (s : string) : string :=
  match n, s with
  | S n', String _ s' => string_drop n' s'
  | _, _ => s
  end.

(** [line.substr(line.find('=') + 1)]: [npos + 1] is [0]. *)
Definition query_of (line : string) : string :=
  match find_char "=" line with
  | Some i => string_drop (S i) line
  | None => line
  end.

(** What [serveClient] calls and does not define: [Helper::url_decode],
    [process] (on the state of the engine, with the text it writes to
    [resp] and how it ends), [http::file] (the text it puts on the
    stream) and [what()] of an exception. *)
Record Handlers (S : Type) : Type := mkHandlers {
  url_decode : string → string;
  process : string → S → S * string * result ();
  http_file : string → string;
  what : exn → string
}.
Arguments url_decode {S} _ _.
Arguments process {S} _ _ _.
Arguments http_file {S} _ _.
Arguments what {S} _ _.

(** The answer to a query whose text is [toPrint]. *)
Definition respond (toPrint : string) : string :=
  HTTPRespHeader +:+ pretty (String.length toPrint)
  +:+ CR +:+ NL +:+ CR +:+ NL +:+ toPrint.

(** The [try] block of [serveClient] and what follows it: the text
    [process] wrote to [resp], with the message of the exception it
    ended with, sent as one answer.  Modelled from the spec: the
    exceptions of [process] are [std::exception]s, so the handler
    catches them. *)
Definition answer {S : Type} (h : Handlers S)
    (processed : S * string * result ()) : S * result string :=
  match processed with
  | (st', resp, Ok ()) => (st', Ok (respond resp))
  | (st', resp, Throw exp) =>
      (st', Ok (respond (resp +:+ "Error: " +:+ what h exp +:+ NL)))
  | (st', resp, Undef) => (st', Undef)
  end.

(** [serveClient] up to its decrement: the state of the engine and the
    text written to [os]. *)
Definition serveClient_reply {S : Type} (h : Handlers S) (st : S)
    (is_ : string) : S * result string :=
  let line := (read_request is_).1 in
  match find_char "?" line with
  | Some _ => answer h (process h (query_of (url_decode h line)) st)
  | None =>
      if decide (line = EmptyString) then (st, Ok EmptyString)
      else (st, Ok (http_file h (string_drop 1 line)))
  end.

(** A string without a character that satisfies [p]. *)
Fixpoint none_of (p : ascii → bool) (s : string) : bool :=
  match s with
  | EmptyString => true
  | String c s' => negb (p c) && none_of p s'
  end.

Definition is_char (c : ascii) : ascii → bool := λ c', (c' =? c)%char.

(** Where a word of a stream ends: at white space or at the end. *)
Definition ends_word (s : string) : bool :=
  match s with
  | EmptyString => true
  | String c _ => isspace c
  end.

(** A string of white space only. *)
Definition blank (s : string) : bool := none_of (λ c, negb (isspace c)) s.

(** Handlers for the examples: the query is echoed, or refused. *)
Definition echo : Handlers () :=
  {| url_decode := id;
     process := λ query st,
       if decide (query = "fail") then (st, "partial", Throw (Exp "refused"))
       else (st, query +:+ NL, Ok ());
     http_file := λ name, "file " +:+ name;
     what := λ e, match e with Exp msg => msg | out_of_range => "out_of_range" end
  |}.

(** ** Strings and vectors *)

Lemma append_assoc (a b c : string) : (a +:+ b) +:+ c = a +:+ (b +:+ c).
Proof.
  induction a as [|ch a IH]; [done |].
  change (String ch ((a +:+ b) +:+ c) = String ch (a +:+ (b +:+ c))).
  by rewrite IH.
Qed.

Lemma append_nil_r (a : string) : a +:+ "" = a.
Proof.
  induction a as [|ch a IH]; [done |].
  change (String ch (a +:+ "") = String ch a). by rewrite IH.
Qed.

Lemma text_app (l1 l2 : list string) : text (l1 ++ l2) = text l1 +:+ text l2.
Proof.
  induction l1 as [|x l1 IH]; [done |].
  change (x +:+ text (l1 ++ l2) = (x +:+ text l1) +:+ text l2).
  by rewrite IH, append_assoc.
Qed.

Lemma vec_at_lookup {A} (v : list A) (i : nat) (x : A) :
  v !! i = Some x → vec_at v (Z.of_nat i) = Ok x.
Proof.
  intros Hx. unfold vec_at.
  destruct (decide (0 ≤ Z.of_nat i)%Z) as [_|]; [| lia].
  by rewrite Nat2Z.id, Hx.
Qed.

Lemma vec_idx_take {A} (v : list A) (n i : nat) :
  i < n → vec_idx (take n v) i = vec_idx v i.
Proof. intros Hi. unfold vec_idx. by rewrite lookup_take_lt. Qed.

(** ** Column lookup *)

Lemma column_of_Some (csv : CSV) (c : string) :
  c ∈ columns csv →
  ∃ i, column_of csv c = Some i ∧ i < length (columns csv).
Proof.
  intros Hc. unfold column_of.
  destruct (list_find (λ c', c' = c) (columns csv)) as [[i x]|] eqn:Hf.
  - exists i. split; [done |].
    apply list_find_Some in Hf as (Hi & _ & _). by eapply lookup_lt_Some.
  - apply list_find_None in Hf. rewrite Forall_forall in Hf.
    by destruct (Hf c Hc).
Qed.

Lemma getColumnIndex_column_of (csv : CSV) (c : string) :
  getColumnIndex csv c =
    match column_of csv c with
    | Some i => Ok (Z.of_nat i)
    | None => Throw out_of_range
    end.
Proof.
  unfold getColumnIndex, column_of.
  by destruct (list_find _ _) as [[i x]|].
Qed.

(** ** The row loops on a well-formed request *)

Section RowLoops.
Context `{Collaborators}.

Lemma whereClause_selected (csv : CSV) (w : Z) (cond value : string)
    (row : CSVRow) :
  where_ok csv w → length row = length (columns csv) →
  whereClause w cond value row = Ok (selected w cond value row).
Proof.
  intros Hw Hlen. unfold whereClause, selected.
  destruct (decide (w = -1)%Z) as [->|Hne]; [done |].
  rewrite bool_decide_eq_false_2 by done. simpl.
  destruct Hw as [?|[Hlo Hhi]]; [done |].
  destruct (lookup_lt_is_Some_2 row (Z.to_nat w)) as [fld Hfld]; [lia |].
  rewrite Hfld. unfold vec_at.
  destruct (decide (0 ≤ w)%Z); [| lia]. by rewrite Hfld.
Qed.

Lemma printColumns_ok (csv : CSV) (row : CSVRow) (colNames : StrVec)
    (delim toPrint : string) :
  length row = length (columns csv) → cols_ok csv colNames →
  printColumns csv row colNames delim toPrint =
    Ok (toPrint +:+
        match colNames with
        | [] => ""
        | _ => delim +:+
               join TAB ((λ c, default "" (column_of csv c ≫= (row !!.)))
                         <$> colNames)
        end).
Proof.
  intros Hlen Hcols. revert delim toPrint.
  induction Hcols as [|c rest Hc Hrest IH]; intros delim toPrint.
  - simpl. by rewrite append_nil_r.
  - destruct (column_of_Some csv c Hc) as (i & Hi & Hlt).
    destruct (lookup_lt_is_Some_2 row i) as [fld Hfld]; [lia |].
    cbn [printColumns]. rewrite getColumnIndex_column_of, Hi.
    cbn [mbind result_bind]. rewrite (vec_at_lookup _ _ _ Hfld).
    cbn [mbind result_bind]. rewrite IH. f_equal. cbn [fmap list_fmap]. rewrite Hi.
    cbn [mbind option_bind]. rewrite Hfld. cbn [default].
    destruct rest as [|c' rest'].
    + cbn [join]. by rewrite append_nil_r.
    + cbn [fmap list_fmap join]. by rewrite !append_assoc.
Qed.

Lemma selectRow_ok (csv : CSV) (colNames : StrVec) (w : Z)
    (cond value : string) (row : CSVRow) (toPrint : string) (count : Z) :
  where_ok csv w → length row = length (columns csv) →
  cols_ok csv colNames → (count < INT_MAX)%Z →
  selectRow csv colNames w cond value row toPrint count =
    Ok (if selected w cond value row
        then (toPrint +:+ rowLine csv colNames row, (count + 1)%Z)
        else (toPrint, count)).
Proof.
  intros Hw Hlen Hcols Hcount. unfold selectRow.
  rewrite (whereClause_selected csv) by done. cbn [mbind result_bind].
  destruct (selected w cond value row); [| done].
  rewrite printColumns_ok by done. cbn [mbind result_bind].
  unfold incr. destruct (decide (count < INT_MAX)%Z); [| done].
  f_equal. f_equal. unfold rowLine.
  destruct colNames; cbn [fmap list_fmap join];
    by rewrite ?append_assoc.
Qed.

Lemma hits_cons (w : Z) (cond value : string) (row : CSVRow)
    (rs : list CSVRow) :
  hits w cond value (row :: rs) =
    if selected w cond value row
    then row :: hits w cond value rs else hits w cond value rs.
Proof.
  unfold hits. destruct (selected w cond value row) eqn:Hs.
  - by rewrite filter_cons_True.
  - rewrite filter_cons_False; [done | by rewrite Hs].
Qed.

Lemma hits_all (cond value : string) (rs : list CSVRow) :
  hits (-1) cond value rs = rs.
Proof.
  induction rs as [|row rs IH]; [done |].
  rewrite hits_cons. cbn. by rewrite IH.
Qed.

Lemma selectRows_ok (csv : CSV) (colNames : StrVec) (w : Z)
    (cond value : string) (rs : list CSVRow) (toPrint : string)
    (count : Z) :
  where_ok csv w →
  Forall (λ row : CSVRow, length row = length (columns csv)) rs →
  cols_ok csv colNames →
  (count + Z.of_nat (length rs) ≤ INT_MAX)%Z →
  selectRows csv colNames w cond value rs toPrint count =
    Ok (toPrint +:+ text (rowLine csv colNames <$> hits w cond value rs),
        (count + Z.of_nat (length (hits w cond value rs)))%Z).
Proof.
  intros Hw Hrs Hcols. revert toPrint count.
  induction Hrs as [|row rs Hrow Hrs IH]; intros toPrint count Hcount.
  - cbn. by rewrite append_nil_r, Z.add_0_r.
  - cbn [selectRows]. cbn [length] in Hcount.
    rewrite selectRow_ok by (done || lia). cbn [mbind result_bind].
    rewrite hits_cons.
    destruct (selected w cond value row).
    + rewrite IH by lia. cbn [fmap list_fmap length text foldr].
      rewrite append_assoc. do 2 f_equal. lia.
    + by rewrite IH by lia.
Qed.

End RowLoops.

Section UpdateLoops.
Context `{Collaborators}.

Lemma overwrite_length (csv : CSV) (colNames values : StrVec)
    (row : CSVRow) :
  length (overwrite csv colNames values row) = length row.
Proof.
  unfold overwrite. revert row.
  induction (zip colNames values) as [|[c v] l IH]; intros row; [done |].
  cbn [foldl]. rewrite IH.
  destruct (column_of csv c); [apply length_insert | done].
Qed.

Lemma assignColumns_ok (csv : CSV) (colNames values : StrVec) (i : nat)
    (row : CSVRow) :
  length row = length (columns csv) → cols_ok csv colNames →
  i + length colNames ≤ length values →
  assignColumns csv colNames values i row =
    (overwrite csv colNames (drop i values) row, Ok ()).
Proof.
  intros Hlen Hcols. revert i row Hlen.
  induction Hcols as [|c rest Hc Hrest IH]; intros i row Hlen Hi.
  - done.
  - cbn [length] in Hi.
    destruct (lookup_lt_is_Some_2 values i) as [v Hv]; [lia |].
    destruct (column_of_Some csv c Hc) as (k & Hk & Hlt).
    destruct (lookup_lt_is_Some_2 row k) as [fld Hfld]; [lia |].
    cbn [assignColumns]. unfold vec_idx. rewrite Hv.
    cbn [mbind result_bind]. rewrite getColumnIndex_column_of, Hk.
    cbn [mbind result_bind]. unfold vec_set.
    rewrite (vec_at_lookup _ _ _ Hfld). cbn [mbind result_bind].
    rewrite Nat2Z.id, IH by (rewrite ?length_insert; lia).
    rewrite (drop_S _ _ _ Hv). unfold overwrite. cbn [zip zip_with foldl].
    by rewrite Hk.
Qed.

Lemma updateRow_ok (csv : CSV) (w : Z) (colNames : StrVec)
    (cond value : string) (values : StrVec) (row : CSVRow) (count : Z) :
  where_ok csv w → length row = length (columns csv) →
  cols_ok csv colNames → length colNames ≤ length values →
  (count < INT_MAX)%Z →
  updateRow csv w colNames cond value values row count =
    if selected w cond value row
    then (overwrite csv colNames values row, Ok (count + 1)%Z)
    else (row, Ok count).
Proof.
  intros Hw Hlen Hcols Hvals Hcount. unfold updateRow.
  rewrite (whereClause_selected csv) by done.
  destruct (selected w cond value row); [| done].
  rewrite assignColumns_ok by (done || lia). rewrite drop_0.
  cbn [mbind result_bind]. unfold incr.
  by destruct (decide (count < INT_MAX)%Z).
Qed.

Lemma updateRows_ok (csv : CSV) (w : Z) (colNames : StrVec)
    (cond value : string) (values : StrVec) (rs : list CSVRow)
    (count : Z) :
  where_ok csv w →
  Forall (λ row : CSVRow, length row = length (columns csv)) rs →
  cols_ok csv colNames → length colNames ≤ length values →
  (count + Z.of_nat (length rs) ≤ INT_MAX)%Z →
  updateRows csv w colNames cond value values rs count =
    ((λ row, if selected w cond value row
             then overwrite csv colNames values row else row) <$> rs,
     Ok (count + Z.of_nat (length (hits w cond value rs)))%Z).
Proof.
  intros Hw Hrs Hcols Hvals. revert count.
  induction Hrs as [|row rs Hrow Hrs IH]; intros count Hcount.
  - cbn. by rewrite Z.add_0_r.
  - cbn [updateRows]. cbn [length] in Hcount.
    rewrite updateRow_ok by (done || lia). rewrite hits_cons.
    cbn [fmap list_fmap].
    destruct (selected w cond value row).
    + rewrite IH by lia. cbn [length]. do 2 f_equal. lia.
    + by rewrite IH by lia.
Qed.

(** Values beyond the last column are never read. *)
Lemma assignColumns_take (csv : CSV) (colNames values : StrVec)
    (n i : nat) (row : CSVRow) :
  i + length colNames ≤ n →
  assignColumns csv colNames (take n values) i row =
    assignColumns csv colNames values i row.
Proof.
  revert i row. induction colNames as [|c rest IH]; intros i row Hi.
  - done.
  - cbn [length] in Hi. cbn [assignColumns].
    rewrite vec_idx_take by lia.
    destruct (v ← vec_idx values i;
              idx ← getColumnIndex csv c; vec_set row idx v)
      as [row'| |]; [| done | done].
    apply IH. lia.
Qed.

Lemma updateRows_take (csv : CSV) (w : Z) (colNames : StrVec)
    (cond value : string) (values : StrVec) (n : nat)
    (rs : list CSVRow) (count : Z) :
  length colNames ≤ n →
  updateRows csv w colNames cond value (take n values) rs count =
    updateRows csv w colNames cond value values rs count.
Proof.
  intros Hn. revert count.
  induction rs as [|row rs IH]; intros count; [done |].
  cbn [updateRows]. unfold updateRow.
  rewrite assignColumns_take by (simpl; lia).
  destruct (whereClause w cond value row) as [[|]| |]; try done.
  - destruct (assignColumns csv colNames values 0 row) as [row' [[]| |]];
      cbn [mbind result_bind]; try done.
    destruct (incr count) as [count'| |]; try done. by rewrite IH.
  - by rewrite IH.
Qed.

End UpdateLoops.

(** ** The properties of the query engine

    The examples are run with the collaborators of the scenario. *)

Import Scenario.

(** The scenario of the design document, run on [people.csv]. *)
Example select_age_30 :
  selectQuery people false ["*"] 1 "=" "30" =
    Returned ("name" +:+ TAB +:+ "age" +:+ NL
              +:+ "Ann" +:+ TAB +:+ "30" +:+ NL
              +:+ "1 row(s) selected." +:+ NL).
Proof. reflexivity. Qed.

Example update_then_select :
  let '(people', notified, out) :=
    updateQuery people false ["age"] ["31"] 0 "=" "Ann" in
  out = Returned ("1 row(s) updated." +:+ NL)
  ∧ notified = true
  ∧ selectQuery people' false ["*"] 1 "=" "31" =
      Returned ("name" +:+ TAB +:+ "age" +:+ NL
                +:+ "Ann" +:+ TAB +:+ "31" +:+ NL
                +:+ "1 row(s) selected." +:+ NL).
Proof. by vm_compute. Qed.

Example select_waits :
  selectQuery people true ["name"] 1 "=" "99" = Blocked.
Proof. reflexivity. Qed.

Example update_without_match :
  updateQuery people false ["age"] ["99"] 0 "=" "Carl" =
    (people, false, Returned ("0 row(s) updated." +:+ NL)).
Proof. reflexivity. Qed.

(** A column that does not exist, a where-clause outside the row and an
    empty column list raise [std::out_of_range]. *)
Example select_unknown_column :
  selectQuery people false ["city"] (-1) "" "" = Raised out_of_range.
Proof. reflexivity. Qed.

Example select_bad_where :
  selectQuery people false ["name"] 7 "=" "x" = Raised out_of_range.
Proof. reflexivity. Qed.

Example select_no_columns :
  selectQuery people false [] (-1) "" "" = Raised out_of_range.
Proof. reflexivity. Qed.

(** With fewer values than columns, [values[i]] is read out of range
    once the values are used up; the stores made before stay. *)
Example update_short_values :
  updateQuery people false ["age"; "name"] ["31"] 0 "=" "Ann" =
    (mkCSV ["name"; "age"] [["Ann"; "31"]; ["Bob"; "25"]], false, Undefined).
Proof. reflexivity. Qed.

(** C4: on a table whose rows have one field per column, with requested
    columns that exist and a where-clause that is omitted
    ([whereColIdx = -1]) or designates a column, select and update match
    every row when the where-clause is omitted and otherwise exactly the
    rows whose designated field satisfies the predicate; the matched
    rows are the ones printed, respectively overwritten, and the count
    returned is their number. *)
Theorem where_clause_matches_exactly `{Collaborators} (csv : CSV)
    (colNames values : StrVec) (w : Z) (cond value toPrint : string) :
  table_ok csv → cols_ok csv colNames → where_ok csv w →
  length colNames ≤ length values →
  (Z.of_nat (length (rows csv)) ≤ INT_MAX)%Z →
  let matched := hits w cond value (rows csv) in
  (w = (-1)%Z → matched = rows csv)
  ∧ (w ≠ (-1)%Z →
     ∀ row, row ∈ matched ↔
       row ∈ rows csv ∧
       ∃ fld, row !! Z.to_nat w = Some fld ∧ matches fld cond value = true)
  ∧ processSelectRow colNames toPrint csv w cond value =
      Ok (toPrint +:+ text (rowLine csv colNames <$> matched),
          Z.of_nat (length matched))
  ∧ processUpdateRow csv w colNames cond value values =
      (set_rows csv
         ((λ row, if selected w cond value row
                  then overwrite csv colNames values row else row)
          <$> rows csv),
       Ok (Z.of_nat (length matched))).
Proof.
  intros Hok Hcols Hw Hvals Hmax matched. subst matched.
  split; [| split; [| split]].
  - intros ->. apply hits_all.
  - intros Hne row. unfold hits. rewrite list_elem_of_filter.
    unfold selected. rewrite bool_decide_eq_false_2 by done. cbn [orb].
    split.
    + intros [Hm Hin]. split; [done |].
      destruct (row !! Z.to_nat w) as [fld|]; [eauto | done].
    + intros [Hin (fld & Hfld & Hm)]. by rewrite Hfld.
  - unfold processSelectRow. by rewrite selectRows_ok.
  - unfold processUpdateRow. by rewrite updateRows_ok.
Qed.

Lemma where_clause_matches_exactly_witness :
  processSelectRow ["name"] "" people 1 "=" "30" =
    Ok ("Ann" +:+ NL, 1%Z)
  ∧ processUpdateRow people (-1) ["age"] "" "" ["7"] =
    (mkCSV ["name"; "age"] [["Ann"; "7"]; ["Bob"; "7"]], Ok 2%Z).
Proof.
  assert (Hok : table_ok people) by (repeat constructor).
  assert (Hn : cols_ok people ["name"]) by (repeat constructor).
  assert (Ha : cols_ok people ["age"]) by (repeat constructor).
  assert (Hmax : (Z.of_nat (length (rows people)) ≤ INT_MAX)%Z)
    by (vm_compute; discriminate).
  split.
  - assert (Hw : where_ok people 1) by (right; simpl; lia).
    destruct (where_clause_matches_exactly people ["name"] ["x"]
                1 "=" "30" "" Hok Hn Hw (le_n 1) Hmax) as (_ & _ & Hs & _).
    exact Hs.
  - assert (Hw : where_ok people (-1)) by (by left).
    destruct (where_clause_matches_exactly people ["age"] ["7"]
                (-1) "" "" "" Hok Ha Hw (le_n 1) Hmax) as (_ & _ & _ & Hu).
    exact Hu.
Defined.

(** C8: a select or an update whose column list is [*] runs as the
    same request with all the columns of the table in their defined
    order; the expansion is the first thing the call does, before it
    visits any row. *)
Theorem star_expands_to_all_columns `{Collaborators} (csv : CSV)
    (mustWait : bool) (values : StrVec) (w : Z) (cond value : string)
    (k : stmt) (me : nat) (sh : Shared) :
  expandStar csv ["*"] = Ok (getColumnNames csv)
  ∧ selectQuery csv mustWait ["*"] w cond value =
      selectResolved csv mustWait (columns csv) w cond value
  ∧ updateQuery csv mustWait ["*"] values w cond value =
      updateResolved csv mustWait (columns csv) values w cond value
  ∧ thread_step me sh (enter (mkQuery k mustWait ["*"] w cond value)) =
      Some (sh,
            {| qry := mkQuery k mustWait ["*"] w cond value;
               cols := columns (table sh);
               at_pc := InScan false 0 "" 0 |},
            false).
Proof. done. Qed.

(** C1 does not hold as stated: a values list longer than the column
    list is accepted, and the matching row is overwritten. *)
Lemma update_arity_mismatch_counterexample :
  let r := updateQuery people false ["age"] ["31"; "32"] 0 "=" "Ann" in
  expandStar people ["age"] = Ok ["age"]
  ∧ length ["31"; "32"] ≠ length ["age"]
  ∧ r = (mkCSV ["name"; "age"] [["Ann"; "31"]; ["Bob"; "25"]], true,
         Returned ("1 row(s) updated." +:+ NL))
  ∧ ¬ (∃ e, r.2 = Raised e)
  ∧ r.1.1 ≠ people.
Proof.
  vm_compute. split; [done |]. split; [discriminate |]. split; [done |].
  split; [by intros [e He] | discriminate].
Qed.

(** C1, amended: [updateQuery] does not compare the two lengths.  When
    the values list is at least as long as the resolved column list,
    the values past the last column are ignored: the call does what it
    does with the values list cut to the length of the column list. *)
Theorem update_ignores_surplus_values `{Collaborators} (csv : CSV)
    (mustWait : bool) (colNames colNames' values : StrVec) (w : Z)
    (cond value : string) :
  expandStar csv colNames = Ok colNames' →
  length colNames' ≤ length values →
  updateQuery csv mustWait colNames values w cond value =
    updateQuery csv mustWait colNames (take (length colNames') values)
      w cond value.
Proof.
  intros Hexp Hlen. unfold updateQuery. rewrite Hexp.
  unfold updateResolved, processUpdateRow.
  by rewrite updateRows_take.
Qed.

Lemma update_ignores_surplus_values_witness :
  updateQuery people false ["age"] ["31"; "32"] 0 "=" "Ann" =
    updateQuery people false ["age"] ["31"] 0 "=" "Ann".
Proof.
  apply (update_ignores_surplus_values people false ["age"] ["age"]
           ["31"; "32"] 0 "=" "Ann").
  - reflexivity.
  - simpl. lia.
Defined.

(** ** The properties of the registry *)

Section RegistryFacts.
Context `{Collaborators}.

Lemma loadAndGet_resident (w : World) (st : SQLAir) (request : string) :
  let fileOrURL := if decide (request = "") then recentCSV st else request in
  is_Some (inMemoryCSV st !! fileOrURL) →
  loadAndGet w st request =
    ({| inMemoryCSV := inMemoryCSV st; recentCSV := fileOrURL |},
     Ok fileOrURL).
Proof.
  intros fileOrURL Hres. unfold loadAndGet, lookupRecent.
  fold fileOrURL. by rewrite bool_decide_eq_true_2.
Qed.

Lemma loadAndGet_absent (w : World) (st : SQLAir) (request : string) :
  let fileOrURL := if decide (request = "") then recentCSV st else request in
  inMemoryCSV st !! fileOrURL = None →
  loadAndGet w st request =
    match loadSource w fileOrURL with
    | Ok csv =>
        ({| inMemoryCSV := <[fileOrURL := csv]> (inMemoryCSV st);
            recentCSV := fileOrURL |}, Ok fileOrURL)
    | Throw e =>
        ({| inMemoryCSV := inMemoryCSV st; recentCSV := fileOrURL |},
         Throw e)
    | Undef =>
        ({| inMemoryCSV := inMemoryCSV st; recentCSV := fileOrURL |},
         Undef)
    end.
Proof.
  intros fileOrURL Habs. unfold loadAndGet, lookupRecent.
  fold fileOrURL. rewrite bool_decide_eq_false_2.
  - by destruct (loadSource w fileOrURL).
  - rewrite Habs. by intros [? ?].
Qed.

(** Once recorded, the identifier is what an empty request and the
    request itself both stand for. *)
Lemma recent_again (request recent : string) :
  (if decide (request = "")
   then (if decide (request = "") then recent else request)
   else request)
  = if decide (request = "") then recent else request.
Proof. by destruct (decide (request = "")). Qed.

End RegistryFacts.

(** C5: a resolve substitutes the most recent identifier for an empty
    one and records the identifier it resolved as the most recent one.
    When it succeeds, the reference it returns is the one of that
    identifier's node in the registry, and every later resolve of the
    same request, while the table is resident (and, for an empty
    request, while the identifier is still the most recent one),
    returns that same reference without loading and leaves the tables
    of the registry as they are. *)
Theorem resolve_recent_and_same_instance `{Collaborators} (w : World)
    (st : SQLAir) (request : string) :
  let fileOrURL := if decide (request = "") then recentCSV st else request in
  let st1 := (loadAndGet w st request).1 in
  (lookupRecent st request).1.2 = fileOrURL
  ∧ recentCSV st1 = fileOrURL
  ∧ ∀ ref : CSVRef, (loadAndGet w st request).2 = Ok ref →
      ref = fileOrURL
      ∧ is_Some (inMemoryCSV st1 !! ref)
      ∧ ∀ (w2 : World) (st2 : SQLAir),
          is_Some (inMemoryCSV st2 !! ref) →
          (request = "" → recentCSV st2 = ref) →
          loadAndGet w2 st2 request =
            ({| inMemoryCSV := inMemoryCSV st2; recentCSV := ref |}, Ok ref).
Proof.
  intros fileOrURL st1. subst st1.
  assert (Hagain : ∀ (w2 : World) (st2 : SQLAir),
            is_Some (inMemoryCSV st2 !! fileOrURL) →
            (request = "" → recentCSV st2 = fileOrURL) →
            loadAndGet w2 st2 request =
              ({| inMemoryCSV := inMemoryCSV st2; recentCSV := fileOrURL |},
               Ok fileOrURL)).
  { intros w2 st2 Hres Hrec.
    pose proof (loadAndGet_resident w2 st2 request) as Hl. cbn zeta in Hl.
    assert ((if decide (request = "") then recentCSV st2 else request)
            = fileOrURL) as Heq.
    { unfold fileOrURL in *.
      destruct (decide (request = "")) as [He|_]; [by apply Hrec | done]. }
    rewrite Heq in Hl. by apply Hl. }
  split; [done |].
  destruct (inMemoryCSV st !! fileOrURL) as [csv|] eqn:Hlook.
  - rewrite (loadAndGet_resident w st request)
      by (fold fileOrURL; rewrite Hlook; eauto).
    fold fileOrURL. cbn [fst snd recentCSV inMemoryCSV].
    split; [done |]. intros ref [= <-].
    split; [done |]. split; [rewrite Hlook; eauto | done].
  - rewrite (loadAndGet_absent w st request) by done. fold fileOrURL.
    destruct (loadSource w fileOrURL) as [csv|e|];
      cbn [fst snd recentCSV inMemoryCSV];
      (split; [done |]); intros ref [= <-].
    split; [done |]. split; [rewrite lookup_insert_eq; eauto | done].
Qed.

Lemma resolve_recent_and_same_instance_witness :
  let st1 := (loadAndGet disk fresh "good.csv").1 in
  let st2 := (loadAndGet disk st1 "bad.csv").1 in
  (loadAndGet disk fresh "good.csv").2 = Ok "good.csv"
  ∧ loadAndGet disk st1 "" = (st1, Ok "good.csv")
  ∧ recentCSV st2 = "bad.csv"
  ∧ (loadAndGet disk st2 "good.csv").2 = Ok "good.csv"
  ∧ inMemoryCSV (loadAndGet disk st2 "good.csv").1 !! "good.csv"
    = Some (mkCSV ["name"] [["Ann"]; ["Bob"]]).
Proof.
  destruct (resolve_recent_and_same_instance disk fresh "good.csv")
    as (_ & _ & Href).
  destruct (Href "good.csv" eq_refl) as (_ & _ & Hagain).
  split; [reflexivity |]. split; [| split; [reflexivity | split]].
  - pose proof (resolve_recent_and_same_instance disk
                  (loadAndGet disk fresh "good.csv").1 "") as (_ & _ & Href2).
    destruct (Href2 "good.csv" eq_refl) as (_ & Hres & Hnext).
    exact (Hnext disk _ Hres (λ _, eq_refl)).
  - rewrite (Hagain disk (loadAndGet disk
                            (loadAndGet disk fresh "good.csv").1 "bad.csv").1);
      [reflexivity | by eexists | discriminate].
  - rewrite (Hagain disk (loadAndGet disk
                            (loadAndGet disk fresh "good.csv").1 "bad.csv").1);
      [reflexivity | by eexists | discriminate].
Defined.

(** C6: when the table is not resident and the load from its source
    fails, the exception reaches the caller of the resolve and nothing
    is inserted into the registry, so the next resolve of the same
    request loads from the source again. *)
Theorem failed_load_is_not_registered `{Collaborators} (w : World)
    (st : SQLAir) (request : string) (e : exn) :
  let fileOrURL := if decide (request = "") then recentCSV st else request in
  inMemoryCSV st !! fileOrURL = None →
  loadSource w fileOrURL = Throw e →
  let st1 := (loadAndGet w st request).1 in
  (loadAndGet w st request).2 = Throw e
  ∧ inMemoryCSV st1 = inMemoryCSV st
  ∧ inMemoryCSV st1 !! fileOrURL = None
  ∧ ∀ w2 : World,
      loadAndGet w2 st1 request =
        match loadSource w2 fileOrURL with
        | Ok csv =>
            ({| inMemoryCSV := <[fileOrURL := csv]> (inMemoryCSV st);
                recentCSV := fileOrURL |}, Ok fileOrURL)
        | Throw e2 => (st1, Throw e2)
        | Undef => (st1, Undef)
        end.
Proof.
  intros fileOrURL Habs Hfail st1. subst st1.
  rewrite (loadAndGet_absent w st request) by done. fold fileOrURL.
  rewrite Hfail. cbn [fst snd inMemoryCSV].
  split; [done |]. split; [done |]. split; [done |]. intros w2.
  rewrite loadAndGet_absent; cbn [recentCSV inMemoryCSV];
    unfold fileOrURL in *; by rewrite recent_again.
Qed.

Lemma failed_load_is_not_registered_witness :
  let st1 := (loadAndGet disk fresh "bad.csv").1 in
  (loadAndGet disk fresh "bad.csv").2 = Throw (Exp "no column name")
  ∧ inMemoryCSV st1 = ∅
  ∧ (loadAndGet (write_file disk "bad.csv" ["age"; "30"]) st1 "bad.csv").2
    = Ok "bad.csv".
Proof.
  assert (Habs : inMemoryCSV fresh !! "bad.csv" = None) by reflexivity.
  assert (Hfail : loadSource disk "bad.csv" = Throw (Exp "no column name"))
    by reflexivity.
  destruct (failed_load_is_not_registered disk fresh "bad.csv" _ Habs Hfail)
    as (Hthrow & Hsame & _ & Hretry).
  split; [exact Hthrow |]. split; [exact Hsame |].
  rewrite Hretry. reflexivity.
Defined.

(** C9: the first critical section of a resolve records the requested
    identifier as the most recent one before anything is loaded.  When
    the load then fails, the most recent identifier is the one that
    failed, and an empty request that follows stands for it: it is
    resolved as a request for the failed source. *)
Theorem failed_load_becomes_most_recent `{Collaborators} (w : World)
    (st : SQLAir) (fileOrURL : string) (e : exn) :
  fileOrURL ≠ "" →
  inMemoryCSV st !! fileOrURL = None →
  loadSource w fileOrURL = Throw e →
  let st1 := (loadAndGet w st fileOrURL).1 in
  recentCSV (lookupRecent st fileOrURL).1.1 = fileOrURL
  ∧ (loadAndGet w st fileOrURL).2 = Throw e
  ∧ recentCSV st1 = fileOrURL
  ∧ ∀ w2 : World, loadAndGet w2 st1 "" = loadAndGet w2 st1 fileOrURL.
Proof.
  intros Hne Habs Hfail st1. subst st1.
  pose proof (loadAndGet_absent w st fileOrURL) as Hl. cbn zeta in Hl.
  destruct (decide (fileOrURL = "")) as [|_]; [done |].
  rewrite Hl, Hfail by done. cbn [fst snd recentCSV].
  split; [| split; [done | split; [done |]]].
  - unfold lookupRecent. by destruct (decide (fileOrURL = "")).
  - intros w2. unfold loadAndGet, lookupRecent. cbn [recentCSV inMemoryCSV].
    destruct (decide (fileOrURL = "")) as [|_]; [done |].
    by destruct (decide ("" = "")).
Qed.

Lemma failed_load_becomes_most_recent_witness :
  let st1 := (loadAndGet disk fresh "good.csv").1 in
  let st2 := (loadAndGet disk st1 "bad.csv").1 in
  recentCSV st1 = "good.csv"
  ∧ recentCSV st2 = "bad.csv"
  ∧ (loadAndGet disk st2 "").2 = Throw (Exp "no column name").
Proof.
  assert (Hne : "bad.csv" ≠ "") by discriminate.
  assert (Habs : inMemoryCSV (loadAndGet disk fresh "good.csv").1
                   !! "bad.csv" = None) by reflexivity.
  assert (Hfail : loadSource disk "bad.csv" = Throw (Exp "no column name"))
    by reflexivity.
  destruct (failed_load_becomes_most_recent disk _ "bad.csv" _
              Hne Habs Hfail) as (_ & _ & Hrec & Hempty).
  split; [reflexivity |]. split; [exact Hrec |].
  rewrite Hempty. reflexivity.
Defined.



(** ** The properties of the scheduler *)

Lemma server_step_inv (maxThr : Z) (s s' : Server) (ev : server_event) :
  server_inv maxThr s → server_step maxThr s ev = Some s' →
  server_inv maxThr s'.
Proof.
  intros (Hle & Hws & Hsched) Hstep. destruct ev as [|k]; cbn in Hstep.
  - unfold runServer in Hstep. destruct (sched s) as [| | |n]; simplify_eq.
    + by repeat split.
    + destruct (decide (numThreads s < maxThr)%Z); simplify_eq.
      repeat split; cbn; [done | | done].
      apply Forall_app. split; [done | by repeat constructor].
    + by repeat split.
    + repeat split; cbn; [lia | done].
  - unfold serveClient in Hstep.
    destruct (workers s !! k) as [[|n| |]|] eqn:Hk; simplify_eq.
    + repeat split; cbn; [done | by apply Forall_insert | done].
    + assert (n ≤ maxThr)%Z as Hn.
      { rewrite Forall_forall in Hws.
        apply (Hws (Decrementing n)). by eapply list_elem_of_lookup_2. }
      repeat split; cbn; [lia | by apply Forall_insert |].
      destruct (sched s); (done || lia).
    + repeat split; cbn; [done | by apply Forall_insert | done].
Qed.

Lemma server_run_inv (maxThr : Z) (evs : list server_event) (s s' : Server) :
  server_inv maxThr s → server_run maxThr s evs = Some s' →
  server_inv maxThr s'.
Proof.
  revert s. induction evs as [|ev evs IH]; intros s Hinv Hrun.
  - by simplify_eq/=.
  - cbn in Hrun. destruct (server_step maxThr s ev) as [s1|] eqn:Hstep;
      [| done].
    eauto using server_step_inv.
Qed.

(** C7: in every state the server reaches, the counter is at most the
    configured maximum.  A connection that was accepted is dispatched
    exactly when the counter is strictly below the maximum; the worker
    is then started and the scheduler adds one to the counter.  A worker
    that completes takes one from the counter and then signals the
    scheduler's condition. *)
Theorem counter_never_exceeds_maximum (maxThr : Z)
    (evs : list server_event) (s : Server) :
  (0 ≤ maxThr)%Z →
  server_run maxThr server_init evs = Some s →
  (numThreads s ≤ maxThr)%Z
  ∧ (sched s = Admitting →
     (is_Some (runServer maxThr s) ↔ (numThreads s < maxThr)%Z)
     ∧ ∀ s', runServer maxThr s = Some s' →
         sched s' = Spawned
         ∧ workers s' = workers s ++ [Serving]
         ∧ ∃ s'', server_run maxThr s' [Scheduler; Scheduler] = Some s''
                  ∧ sched s'' = Accepting
                  ∧ numThreads s'' = (numThreads s + 1)%Z)
  ∧ (∀ k, workers s !! k = Some Serving →
       ∃ s', server_run maxThr s [Worker k; Worker k; Worker k] = Some s'
             ∧ numThreads s' = (numThreads s - 1)%Z
             ∧ workers s' !! k = Some Finished).
Proof.
  intros Hmax Hrun.
  assert (Hinv : server_inv maxThr s).
  { eapply server_run_inv; [| exact Hrun].
    repeat split; cbn; [done | constructor]. }
  destruct Hinv as (Hle & _ & _).
  split; [done |]. split.
  - intros Hadm. unfold runServer. rewrite Hadm. split.
    + destruct (decide (numThreads s < maxThr)%Z) as [Hlt|Hge].
      * split; [done | by eexists].
      * split; [by intros [? ?] | done].
    + intros s' Hs'.
      destruct (decide (numThreads s < maxThr)%Z); simplify_eq.
      cbn. split; [done |]. split; [done |]. by eexists.
  - intros k Hk.
    assert (Hlt : k < length (workers s)) by (by eapply lookup_lt_Some).
    pose (s1 := {| numThreads := numThreads s; sched := sched s;
                   workers := <[k := Decrementing (numThreads s)]>
                                (workers s) |}).
    pose (s2 := {| numThreads := numThreads s - 1; sched := sched s;
                   workers := <[k := Notifying]> (workers s1) |}).
    pose (s3 := {| numThreads := numThreads s - 1; sched := sched s;
                   workers := <[k := Finished]> (workers s2) |}).
    assert (H1 : serveClient k s = Some s1)
      by (unfold serveClient; by rewrite Hk).
    assert (H2 : serveClient k s1 = Some s2).
    { unfold serveClient, s2, s1. cbn [workers numThreads sched].
      by rewrite list_lookup_insert_eq. }
    assert (H3 : serveClient k s2 = Some s3).
    { unfold serveClient, s3, s2, s1. cbn [workers numThreads sched].
      by rewrite list_lookup_insert_eq by (by rewrite length_insert). }
    exists s3. cbn [server_run server_step].
    rewrite H1. cbn [mbind option_bind]. rewrite H2. cbn [mbind option_bind].
    rewrite H3. split; [done |]. split; [done |].
    unfold s3, s2, s1. cbn [workers]. apply list_lookup_insert_eq.
    by rewrite !length_insert.
Qed.

Lemma counter_never_exceeds_maximum_witness :
  let two_dispatched := replicate 9 Scheduler in
  ∃ s, server_run 2 server_init two_dispatched = Some s
       ∧ sched s = Admitting
       ∧ workers s = [Serving; Serving]
       ∧ (numThreads s ≤ 2)%Z
       ∧ numThreads s = 2%Z
       ∧ runServer 2 s = None
       ∧ is_Some (server_run 2 s [Worker 0; Worker 0; Scheduler]).
Proof.
  intros two_dispatched.
  exists {| numThreads := 2; sched := Admitting;
            workers := [Serving; Serving] |}.
  assert (Hrun : server_run 2 server_init two_dispatched
                 = Some {| numThreads := 2; sched := Admitting;
                           workers := [Serving; Serving] |}) by reflexivity.
  assert (Hmax : (0 ≤ 2)%Z) by lia.
  destruct (counter_never_exceeds_maximum 2 two_dispatched _ Hmax Hrun)
    as (Hle & _).
  split; [exact Hrun |]. split; [reflexivity |]. split; [reflexivity |].
  split; [exact Hle |]. split; [reflexivity |].
  split; [reflexivity |]. eexists. reflexivity.
Defined.

(** ** One row at a time *)

Section RowSteps.
Context `{Collaborators}.

Lemma incr_Ok (count count' : Z) :
  incr count = Ok count' → count' = (count + 1)%Z.
Proof. unfold incr. by destruct (decide (count < INT_MAX)%Z); intros [=]. Qed.

Lemma selectRow_Ok (csv : CSV) (colNames : StrVec) (w : Z)
    (cond value : string) (row : CSVRow) (toPrint toPrint' : string)
    (count count' : Z) :
  selectRow csv colNames w cond value row toPrint count
    = Ok (toPrint', count') →
  (whereClause w cond value row = Ok false
   ∧ toPrint' = toPrint ∧ count' = count)
  ∨ (whereClause w cond value row = Ok true ∧ count' = (count + 1)%Z).
Proof.
  unfold selectRow.
  destruct (whereClause w cond value row) as [[|]| |];
    cbn [mbind result_bind]; try done.
  - destruct (printColumns csv row colNames "" toPrint) as [tp| |];
      cbn [mbind result_bind]; try done.
    destruct (incr count) as [c| |] eqn:Hc; cbn [mbind result_bind];
      try done.
    intros [= <- <-]. right. split; [done | by apply incr_Ok].
  - intros [= <- <-]. by left.
Qed.

Lemma updateRow_Ok (csv : CSV) (w : Z) (colNames : StrVec)
    (cond value : string) (values : StrVec) (row row' : CSVRow)
    (count count' : Z) :
  updateRow csv w colNames cond value values row count = (row', Ok count') →
  (whereClause w cond value row = Ok false
   ∧ row' = row ∧ count' = count)
  ∨ (whereClause w cond value row = Ok true ∧ count' = (count + 1)%Z).
Proof.
  unfold updateRow.
  destruct (whereClause w cond value row) as [[|]| |]; try done.
  - destruct (assignColumns csv colNames values 0 row) as [r [[]| |]];
      cbn [mbind result_bind]; try done.
    destruct (incr count) as [c| |] eqn:Hc; try done.
    intros [= <- <-]. right. split; [done | by apply incr_Ok].
  - intros [= <- <-]. by left.
Qed.

Lemma selectRows_count (csv : CSV) (colNames : StrVec) (w : Z)
    (cond value : string) (rs : list CSVRow) (toPrint toPrint' : string)
    (count count' : Z) :
  selectRows csv colNames w cond value rs toPrint count
    = Ok (toPrint', count') →
  (count ≤ count')%Z
  ∧ ((∃ row, row ∈ rs ∧ whereClause w cond value row = Ok true) →
     (count < count')%Z).
Proof.
  revert toPrint count.
  induction rs as [|row rs IH]; intros toPrint count Hrun.
  - cbn in Hrun. injection Hrun as <- <-. split; [lia |].
    intros (row & Hin & _). by apply not_elem_of_nil in Hin.
  - cbn [selectRows] in Hrun.
    destruct (selectRow csv colNames w cond value row toPrint count)
      as [[tp1 c1]| |] eqn:Hrow; cbn [mbind result_bind] in Hrun;
      try done.
    destruct (IH _ _ Hrun) as [Hle Hlt].
    apply selectRow_Ok in Hrow as [(Hw & -> & ->)|(Hw & ->)].
    + split; [done |]. intros (row' & Hin & Hrow').
      apply elem_of_cons in Hin as [->|Hin]; [congruence | eauto].
    + split; lia.
Qed.

End RowSteps.

(** ** How a thread moves in a step of the system *)

Section Moves.
Context `{Collaborators}.

Lemma sys_step_thread (s s' : System) (l : label) (i : nat) (t' : Thread) :
  sys_step s l = Some s' → threads s' !! i = Some t' →
  ∃ t, threads s !! i = Some t ∧ thread_move s l i t t'.
Proof.
  intros Hstep Hi. unfold sys_step in Hstep. destruct l as [j|j|j].
  - destruct (threads s !! j) as [tj|] eqn:Hj; [| done].
    cbn [mbind option_bind] in Hstep.
    destruct (thread_step j (shared s) tj) as [[[sh' tj'] [|]]|] eqn:Hts;
      cbn [mbind option_bind] in Hstep; simplify_eq.
    cbn [threads] in Hi. unfold thread_move.
    destruct (decide (j = i)) as [->|Hne].
    + rewrite list_lookup_insert_eq in Hi by (by eapply lookup_lt_Some).
      simplify_eq. eauto.
    + rewrite list_lookup_insert_ne in Hi by done. eauto.
  - destruct (threads s !! j) as [tj|] eqn:Hj; [| done].
    cbn [mbind option_bind] in Hstep.
    destruct (thread_step j (shared s) tj) as [[[sh' tj'] [|]]|] eqn:Hts;
      cbn [mbind option_bind] in Hstep; simplify_eq.
    cbn [threads] in Hi. rewrite list_lookup_fmap in Hi.
    unfold thread_move. destruct (decide (j = i)) as [->|Hne].
    + rewrite list_lookup_insert_eq in Hi by (by eapply lookup_lt_Some).
      simplify_eq/=. eauto 6.
    + rewrite list_lookup_insert_ne in Hi by done.
      destruct (threads s !! i) as [t|]; simplify_eq/=. eauto.
  - destruct (threads s !! j) as [tj|] eqn:Hj; [| done].
    cbn [mbind option_bind] in Hstep.
    destruct (at_pc tj) eqn:Hpc; simplify_eq.
    cbn [threads] in Hi. unfold thread_move.
    destruct (decide (j = i)) as [->|Hne].
    + rewrite list_lookup_insert_eq in Hi by (by eapply lookup_lt_Some).
      simplify_eq. eauto.
    + rewrite list_lookup_insert_ne in Hi by done. eauto.
Qed.

Lemma thread_step_notify (i : nat) (sh sh' : Shared) (t t' : Thread) :
  thread_step i sh t = Some (sh', t', true) →
  ∃ count, at_pc t = AtNotify count
           ∧ t' = goto t (Done count (updateReport count)) ∧ sh' = sh.
Proof.
  unfold thread_step. intros Hstep.
  destruct (at_pc t) eqn:Hpc; repeat case_match; simplify_eq/=; eauto.
  - destruct (lock i sh); simplify_eq/=.
  - destruct (lock i sh); simplify_eq/=.
Qed.

Lemma thread_step_qry (i : nat) (sh sh' : Shared) (t t' : Thread)
    (notify : bool) :
  thread_step i sh t = Some (sh', t', notify) → qry t' = qry t.
Proof.
  unfold thread_step. intros Hstep.
  destruct (at_pc t) eqn:Hpc; repeat case_match; simplify_eq/=; try done.
  - by destruct (lock i sh); simplify_eq/=.
  - by destruct (lock i sh); simplify_eq/=.
Qed.

Lemma wake_qry (t : Thread) : qry (wake t) = qry t.
Proof. unfold wake. by destruct (at_pc t). Qed.

Lemma thread_move_qry (s : System) (l : label) (i : nat) (t t' : Thread) :
  thread_move s l i t t' → qry t' = qry t.
Proof.
  unfold thread_move. destruct l as [j|j|j]; case_decide.
  - intros [sh' Hs]. by eapply thread_step_qry.
  - by intros ->.
  - intros (sh' & t0 & Hs & ->). rewrite wake_qry.
    by eapply thread_step_qry.
  - intros ->. apply wake_qry.
  - intros ->. apply wake_qry.
  - by intros ->.
Qed.

Lemma sys_run_snoc (s : System) (ls : list label) (l : label) :
  sys_run s (ls ++ [l]) = (sys_run s ls ≫= (λ s', sys_step s' l)).
Proof.
  revert s. induction ls as [|l' ls IH]; intros s; cbn.
  - by destruct (sys_step s l).
  - destruct (sys_step s l') as [s1|]; cbn; [apply IH | done].
Qed.

End Moves.

(** ** Who notifies, and when *)

Section Notification.
Context `{Collaborators}.

Lemma not_notified_snoc (i : nat) (ls : list label) (l : label) :
  NotifyAll i ∉ ls → l ≠ NotifyAll i → NotifyAll i ∉ ls ++ [l].
Proof.
  intros Hls Hl Hin. apply elem_of_app in Hin as [Hin|Hin]; [done |].
  apply list_elem_of_singleton in Hin. by subst.
Qed.

Lemma notify_inv_wake (i : nat) (ls : list label) (t : Thread) :
  notify_inv i ls t → notify_inv i ls (wake t).
Proof.
  unfold notify_inv, wake.
  destruct (at_pc t) eqn:Hpc; cbn; by rewrite ?Hpc.
Qed.

Lemma notify_inv_other (i : nat) (ls : list label) (l : label)
    (t : Thread) :
  l ≠ NotifyAll i → notify_inv i ls t → notify_inv i (ls ++ [l]) t.
Proof.
  intros Hl. unfold notify_inv.
  destruct (at_pc t) as [|held k tp c|tp|tp|tp|tp|c|c os|e|].
  2: { intros [Hc Hls]. split; [done | by apply not_notified_snoc]. }
  6: { intros (Hc & Hls & Hup).
       split; [done |]. split; [by apply not_notified_snoc | done]. }
  6: { intros [Hc Hrest]. split; [done |].
       destruct (kind (qry t)); [by apply not_notified_snoc |].
       destruct Hrest as (-> & Hiff & Hw).
       split; [done |]. split; [| done].
       rewrite elem_of_app, list_elem_of_singleton, Hiff.
       split; [by intros [?|?] | by left]. }
  all: intros Hls; by apply not_notified_snoc.
Qed.

Lemma after_scan_notify_inv (i : nat) (ls : list label) (t : Thread)
    (held : bool) (toPrint : string) (count : Z) :
  (0 ≤ count)%Z → NotifyAll i ∉ ls →
  notify_inv i ls (goto t (after_scan t held toPrint count)).
Proof.
  intros Hc Hls. unfold notify_inv, after_scan. cbn [at_pc goto qry].
  destruct ((held || mustWait (qry t)) && bool_decide (count < 1)%Z)
    eqn:Hloop; [done |].
  unfold is_update.
  destruct (kind (qry t)) eqn:Hk; [done |].
  destruct (decide (0 < count)%Z) as [Hpos|Hpos]; [done |].
  split; [done |]. split; [done |]. split; [done |]. intros _.
  rewrite bool_decide_eq_true_2 in Hloop by lia.
  rewrite andb_true_r in Hloop. by apply orb_false_elim in Hloop as [_ ?].
Qed.

Lemma thread_step_notify_inv (i : nat) (ls : list label) (sh sh' : Shared)
    (t t' : Thread) :
  thread_step i sh t = Some (sh', t', false) →
  notify_inv i ls t → notify_inv i ls t'.
Proof.
  unfold thread_step. intros Hstep Hinv.
  destruct (at_pc t) as [|held k tp c|tp|tp|tp|tp|c|c os|e|] eqn:Hpc;
    unfold notify_inv in Hinv; rewrite Hpc in Hinv.
  - repeat case_match; simplify_eq/=; unfold notify_inv; cbn;
      first [done | split; [lia | done]].
  - destruct Hinv as [Hc Hls].
    destruct (rows (table sh) !! k) as [row|]; simplify_eq/=;
      [| by apply after_scan_notify_inv].
    destruct (kind (qry t)) as [|values].
    + destruct (selectRow _ _ _ _ _ _ _ _) as [[tp1 c1]| |] eqn:Hrow;
        simplify_eq/=; try done.
      apply selectRow_Ok in Hrow. unfold notify_inv. cbn.
      split; [lia | done].
    + destruct (updateRow _ _ _ _ _ _ _ _) as [row' [c1| |]] eqn:Hrow;
        simplify_eq/=; try done.
      apply updateRow_Ok in Hrow. unfold notify_inv. cbn.
      split; [lia | done].
  - by destruct (lock i sh); simplify_eq/=.
  - by simplify_eq/=.
  - done.
  - destruct (lock i sh); simplify_eq/=. unfold notify_inv. cbn.
    split; [lia | done].
  - simplify_eq.
  - done.
  - done.
  - done.
Qed.

Lemma thread_move_notify_inv (s : System) (l : label) (i : nat)
    (ls : list label) (t t' : Thread) :
  thread_move s l i t t' →
  notify_inv i ls t → notify_inv i (ls ++ [l]) t'.
Proof.
  unfold thread_move. destruct l as [j|j|j]; case_decide; subst.
  - intros [sh' Hs] Hinv. apply notify_inv_other; [done |].
    by eapply thread_step_notify_inv.
  - intros -> Hinv. by apply notify_inv_other.
  - intros (sh' & t0 & Hs & ->) Hinv. apply notify_inv_wake.
    apply thread_step_notify in Hs as (c & Hpc & -> & _).
    unfold notify_inv in *. rewrite Hpc in Hinv. cbn.
    destruct Hinv as (Hc & Hls & Hup). unfold is_update in Hup.
    destruct (kind (qry t)); [done |].
    split; [lia |]. split; [done |]. split; [| lia].
    split; [done |]. intros _. apply elem_of_app. right.
    by apply list_elem_of_singleton.
  - intros -> Hinv. apply notify_inv_wake, notify_inv_other; [| done].
    congruence.
  - intros -> Hinv. by apply notify_inv_wake, notify_inv_other.
  - intros -> Hinv. by apply notify_inv_other.
Qed.

Lemma sys_run_notify_inv (s0 s : System) (ls : list label) :
  initial s0 → sys_run s0 ls = Some s →
  ∀ i t, threads s !! i = Some t → notify_inv i ls t.
Proof.
  intros [_ Hinit]. revert s.
  induction ls as [|l ls IH] using rev_ind; intros s Hrun i t Hi.
  - cbn in Hrun. simplify_eq. unfold notify_inv.
    rewrite (Hinit t) by (by eapply list_elem_of_lookup_2).
    apply not_elem_of_nil.
  - rewrite sys_run_snoc in Hrun.
    destruct (sys_run s0 ls) as [s1|] eqn:Hrun1; [| done].
    cbn in Hrun.
    destruct (sys_step_thread _ _ _ _ _ Hrun Hi) as (t1 & Hi1 & Hmove).
    eapply thread_move_notify_inv; eauto.
Qed.

End Notification.

(** ** Waiting for a match *)

Section Waiting.
Context `{Collaborators}.

Lemma waits_inv_wake (t : Thread) : waits_inv t → waits_inv (wake t).
Proof.
  unfold waits_inv, wake. destruct (at_pc t) eqn:Hpc; cbn; by rewrite ?Hpc.
Qed.

Lemma thread_step_waits_inv (i : nat) (sh sh' : Shared) (t t' : Thread)
    (notify : bool) :
  mustWait (qry t) = true →
  (∀ row, row ∈ rows (table sh) → ¬ row_matches (qry t) row) →
  thread_step i sh t = Some (sh', t', notify) →
  waits_inv t → waits_inv t'.
Proof.
  intros Hwait Hno. unfold thread_step. intros Hstep Hinv.
  destruct (at_pc t) as [|held k tp c|tp|tp|tp|tp|c|c os|e|] eqn:Hpc;
    unfold waits_inv in Hinv; rewrite Hpc in Hinv; try done.
  - by repeat case_match; simplify_eq/=.
  - subst c.
    destruct (rows (table sh) !! k) as [row|] eqn:Hk; simplify_eq/=.
    + assert (¬ row_matches (qry t) row) as Hrow
        by (by eapply Hno, list_elem_of_lookup_2).
      unfold row_matches in Hrow.
      destruct (kind (qry t)) as [|values].
      * destruct (selectRow _ _ _ _ _ _ _ _) as [[tp1 c1]| |] eqn:Hsel;
          simplify_eq/=; try done.
        apply selectRow_Ok in Hsel as [(_ & _ & ->)|[? _]]; done.
      * destruct (updateRow _ _ _ _ _ _ _ _) as [row' [c1| |]] eqn:Hupd;
          simplify_eq/=; try done.
        apply updateRow_Ok in Hupd as [(_ & _ & ->)|[? _]]; done.
    + unfold waits_inv, after_scan. cbn. rewrite Hwait.
      by rewrite orb_true_r.
  - by destruct (lock i sh); simplify_eq/=.
  - by simplify_eq/=.
  - by destruct (lock i sh); simplify_eq/=.
Qed.

Lemma thread_move_waits_inv (s : System) (l : label) (i : nat)
    (t t' : Thread) :
  mustWait (qry t) = true → no_match (qry t) s →
  thread_move s l i t t' → waits_inv t → waits_inv t'.
Proof.
  intros Hwait Hno. unfold thread_move.
  destruct l as [j|j|j]; case_decide; subst.
  - intros [sh' Hs]. by eapply thread_step_waits_inv.
  - by intros ->.
  - intros (sh' & t0 & Hs & ->) Hinv. apply waits_inv_wake.
    by eapply thread_step_waits_inv.
  - intros ->. apply waits_inv_wake.
  - intros ->. apply waits_inv_wake.
  - by intros ->.
Qed.

Lemma sys_run_waits_inv (q : query) (i : nat) (ls : list label)
    (s0 s : System) :
  mustWait q = true →
  along (no_match q) s0 ls → sys_run s0 ls = Some s →
  (∀ t0, threads s0 !! i = Some t0 → qry t0 = q ∧ waits_inv t0) →
  ∀ t, threads s !! i = Some t → qry t = q ∧ waits_inv t.
Proof.
  intros Hwait. revert s0.
  induction ls as [|l ls IH]; intros s0 Halong Hrun Hinit t Hi.
  - cbn in Hrun. simplify_eq. by apply Hinit.
  - cbn in Hrun, Halong. destruct Halong as [Hno Halong].
    destruct (sys_step s0 l) as [s1|] eqn:Hstep; [| done].
    cbn in Hrun. eapply (IH s1); [done | done | | done].
    intros t1 Hi1.
    destruct (sys_step_thread _ _ _ _ _ Hstep Hi1) as (t0 & Hi0 & Hmove).
    destruct (Hinit t0 Hi0) as [<- Hinv0].
    split; [by eapply thread_move_qry |].
    by eapply thread_move_waits_inv.
Qed.

(** A select that scans alone goes through the rows as [selectRows]
    does. *)
Lemma select_scan_alone (n : nat) (s : System) (i : nat) (t : Thread)
    (held : bool) (k : nat) (tp tp' : string) (c c' : Z) :
  threads s !! i = Some t → kind (qry t) = SELECT →
  at_pc t = InScan held k tp c →
  k + n = length (rows (table (shared s))) →
  selectRows (table (shared s)) (cols t) (whereColIdx (qry t))
    (cond (qry t)) (value (qry t)) (drop k (rows (table (shared s))))
    tp c = Ok (tp', c') →
  sys_run s (replicate n (Step i)) =
    Some {| shared := shared s;
            threads := <[i := goto t (InScan held (k + n) tp' c')]>
                         (threads s) |}.
Proof.
  revert s t k tp c.
  induction n as [|n IH]; intros s t k tp c Hi Hkind Hpc Hlen Hscan.
  - rewrite drop_ge in Hscan by lia. cbn in Hscan. simplify_eq.
    cbn. rewrite Nat.add_0_r, <- Hpc.
    destruct s as [sh ths], t as [q cs p]. cbn in *.
    by rewrite list_insert_id.
  - destruct (lookup_lt_is_Some_2 (rows (table (shared s))) k)
      as [row Hrow]; [lia |].
    rewrite (drop_S _ _ _ Hrow) in Hscan. cbn [selectRows] in Hscan.
    destruct (selectRow _ _ _ _ _ row tp c) as [[tp1 c1]| |] eqn:Hsel;
      cbn [mbind result_bind] in Hscan; try done.
    cbn [replicate sys_run]. unfold sys_step at 1. rewrite Hi.
    cbn [mbind option_bind]. unfold thread_step.
    rewrite Hpc, Hrow, Hkind, Hsel. cbn [mbind option_bind].
    rewrite (IH _ (goto t (InScan held (S k) tp1 c1)) (S k) tp1 c1);
      cbn [shared threads goto qry cols at_pc]; try done.
    + rewrite list_insert_insert_eq. unfold goto. cbn [qry cols].
      by replace (S k + n) with (k + S n) by lia.
    + apply list_lookup_insert_eq. by eapply lookup_lt_Some.
    + lia.
Qed.

Lemma sys_run_app (s : System) (ls1 ls2 : list label) :
  sys_run s (ls1 ++ ls2) = (sys_run s ls1 ≫= (λ s', sys_run s' ls2)).
Proof.
  revert s. induction ls1 as [|l ls1 IH]; intros s; cbn; [done |].
  destruct (sys_step s l) as [s1|]; cbn; [apply IH | done].
Qed.

End Waiting.

Section Rescan.
Context `{Collaborators}.

(** A select that was woken up, and that finds [csvMutex] free and a
    table on which its scan counts at least one row, is over after
    that one scan. *)
Lemma rescan_alone (s : System) (i : nat) (t : Thread)
    (tp tp' : string) (c : Z) :
  threads s !! i = Some t → kind (qry t) = SELECT →
  at_pc t = Woken tp → csvMutex (shared s) = None →
  processSelectRow (cols t) tp (table (shared s)) (whereColIdx (qry t))
    (cond (qry t)) (value (qry t)) = Ok (tp', c) →
  (1 ≤ c)%Z →
  sys_run s (Step i :: replicate (length (rows (table (shared s))))
                         (Step i) ++ [Step i]) =
    Some {| shared := {| table := table (shared s); csvMutex := None |};
            threads := <[i := goto t (Done c (selectReport (cols t) tp' c))]>
                         (threads s) |}.
Proof.
  intros Hi Hkind Hpc Hfree Hscan Hc.
  assert (Hlt : i < length (threads s)) by (by eapply lookup_lt_Some).
  cbn [sys_run]. unfold sys_step at 1. rewrite Hi.
  cbn [mbind option_bind]. unfold thread_step, lock. rewrite Hpc, Hfree.
  cbn [mbind option_bind]. rewrite sys_run_app.
  rewrite (select_scan_alone _ _ i (goto t (InScan true 0 tp 0))
             true 0 tp tp' 0 c);
    cbn [shared threads goto qry cols at_pc table]; try done.
  2: { by apply list_lookup_insert_eq. }
  cbn [mbind option_bind sys_run]. unfold sys_step.
  cbn [shared threads]. rewrite list_insert_insert_eq.
  rewrite list_lookup_insert_eq by done.
  cbn [mbind option_bind]. unfold thread_step.
  cbn [goto qry cols at_pc table Nat.add].
  rewrite (lookup_ge_None_2 _ (length (rows (table (shared s))))) by done.
  cbn [mbind option_bind unlock table]. rewrite list_insert_insert_eq.
  unfold after_scan. cbn [goto qry cols orb].
  rewrite bool_decide_eq_false_2 by lia. cbn [andb]. by rewrite Hkind.
Qed.

End Rescan.

(** ** The properties of the blocking queries *)

(** C2: a select or an update called with [mustWait] has not returned
    as long as no state of the run has a row that matches it; and when
    a select is suspended and another thread notifies, the select is
    woken up, and if it then finds [csvMutex] free and a matching row in
    the table, its next scan selects that row and the call returns with
    what that scan selected. *)
Theorem blocked_until_a_row_matches `{Collaborators} :
  (∀ (q : query) (s0 s : System) (ls : list label) (i : nat) (t : Thread),
     mustWait q = true →
     threads s0 !! i = Some (enter q) →
     along (no_match q) s0 ls →
     sys_run s0 ls = Some s →
     threads s !! i = Some t →
     ∀ count os, at_pc t ≠ Done count os)
  ∧ (∀ (s s1 : System) (i j : nat) (t : Thread) (tp tp' : string) (c : Z),
       threads s !! i = Some t → kind (qry t) = SELECT →
       at_pc t = Waiting tp →
       sys_step s (NotifyAll j) = Some s1 →
       csvMutex (shared s1) = None →
       (∃ row, row ∈ rows (table (shared s1)) ∧ row_matches (qry t) row) →
       processSelectRow (cols t) tp (table (shared s1))
         (whereColIdx (qry t)) (cond (qry t)) (value (qry t))
         = Ok (tp', c) →
       threads s1 !! i = Some (goto t (Woken tp))
       ∧ (1 ≤ c)%Z
       ∧ ∃ s2,
           sys_run s1 (Step i :: replicate (length (rows (table (shared s1))))
                                   (Step i) ++ [Step i]) = Some s2
           ∧ threads s2 !! i =
               Some (goto t (Done c (selectReport (cols t) tp' c)))).
Proof.
  split.
  - intros q s0 s ls i t Hwait Hi0 Halong Hrun Hi count os Hpc.
    destruct (sys_run_waits_inv q i ls s0 s Hwait Halong Hrun) with (t := t)
      as [_ Hinv]; [| done |].
    + intros t0 Ht0. rewrite Hi0 in Ht0. by simplify_eq.
    + unfold waits_inv in Hinv. by rewrite Hpc in Hinv.
  - intros s s1 i j t tp tp' c Hi Hkind Hpc Hstep Hfree Hrow Hscan.
    assert (Hwoken : threads s1 !! i = Some (goto t (Woken tp))).
    { unfold sys_step in Hstep.
      destruct (threads s !! j) as [tj|] eqn:Hj; [| done].
      cbn [mbind option_bind] in Hstep.
      destruct (thread_step j (shared s) tj) as [[[sh' tj'] [|]]|] eqn:Hts;
        cbn [mbind option_bind] in Hstep; simplify_eq.
      apply thread_step_notify in Hts as (cj & Hpcj & -> & ->).
      cbn [threads]. rewrite list_lookup_fmap.
      rewrite list_lookup_insert_ne by (intros ->; congruence).
      rewrite Hi. cbn. unfold wake. by rewrite Hpc. }
    split; [done |].
    assert (Hc : (1 ≤ c)%Z).
    { unfold processSelectRow in Hscan.
      apply selectRows_count in Hscan as [_ Hlt].
      destruct Hrow as (row & Hin & Hrow).
      assert (0 < c)%Z by eauto. lia. }
    split; [done |]. eexists. split.
    + by apply (rescan_alone s1 i (goto t (Woken tp)) tp tp' c).
    + cbn [threads goto qry cols]. apply list_lookup_insert_eq.
      by eapply lookup_lt_Some.
Qed.

Lemma blocked_until_a_row_matches_witness :
  ∃ s1 s2 s3,
    sys_run two_clients select_blocks = Some s1
    ∧ at_pc <$> threads s1 !! 0 = Some (Waiting "")
    ∧ sys_run s1 update_commits = Some s2
    ∧ rows (table (shared s2)) = [["Ann"; "30"]; ["Bob"; "99"]]
    ∧ sys_run s2 select_rescans = Some s3
    ∧ at_pc <$> threads s3 !! 0 =
        Some (Done 1 ("name" +:+ NL +:+ "Bob" +:+ NL
                      +:+ "1 row(s) selected." +:+ NL)).
Proof.
  destruct blocked_until_a_row_matches as [Hblocked Hwoken].
  assert (Halong : along (no_match waiting_select) two_clients select_blocks).
  { assert (Hno : ∀ sh ths,
              table sh = people →
              no_match waiting_select {| shared := sh; threads := ths |}).
    { intros sh ths Htable row Hin. cbn in Hin. rewrite Htable in Hin.
      apply list_elem_of_In in Hin. cbn in Hin.
      destruct Hin as [<-|[<-|[]]]; discriminate. }
    cbn. repeat split; by apply Hno. }
  pose (s1 := default two_clients (sys_run two_clients select_blocks)).
  pose (s2 := default two_clients
                (sys_run s1 (replicate 4 (Step 1)))).
  pose (s3 := default two_clients (sys_step s2 (NotifyAll 1))).
  assert (Hnot_done :
    ∀ count os, at_pc (goto (enter waiting_select) (Waiting ""))
                ≠ Done count os).
  { apply (Hblocked waiting_select two_clients s1 select_blocks 0);
      [reflexivity | reflexivity | exact Halong | reflexivity | reflexivity]. }
  destruct (Hwoken s2 s3 0 1 (goto (enter waiting_select) (Waiting ""))
              "" ("Bob" +:+ NL) 1%Z)
    as (_ & _ & s4 & Hrun & Hdone);
    [reflexivity | reflexivity | reflexivity | reflexivity | reflexivity
    | | reflexivity |].
  { exists ["Bob"; "99"]. split; [| reflexivity].
    apply list_elem_of_In. vm_compute. right. by left. }
  exists s1, s3, s4.
  split; [reflexivity |]. split; [reflexivity |].
  split; [reflexivity |]. split; [reflexivity |].
  split; [exact Hrun |]. by rewrite Hdone.
Defined.

(** C3: when an update that started with the run has returned, it has
    called [notify_all] if it updated at least one row, and then
    before it returned; if it updated no row, it has not called it, and
    it was called without [mustWait].  The call of [notify_all] wakes
    up every thread suspended on the table's condition. *)
Theorem update_notifies_iff_rows_updated `{Collaborators}
    (s0 s : System) (ls : list label) (i : nat) (t : Thread)
    (count : Z) (os : string) :
  initial s0 →
  sys_run s0 ls = Some s →
  threads s !! i = Some t →
  is_update (qry t) →
  at_pc t = Done count os →
  os = updateReport count
  ∧ ((0 < count)%Z → NotifyAll i ∈ ls)
  ∧ ((count ≤ 0)%Z →
     count = 0%Z ∧ (NotifyAll i ∉ ls) ∧ mustWait (qry t) = false)
  ∧ (∀ (s1 s2 : System) (k : nat) (tk : Thread) (tp : string),
       sys_step s1 (NotifyAll i) = Some s2 →
       threads s1 !! k = Some tk → at_pc tk = Waiting tp →
       threads s2 !! k = Some (goto tk (Woken tp))).
Proof.
  intros Hinit Hrun Hi Hup Hpc.
  pose proof (sys_run_notify_inv s0 s ls Hinit Hrun i t Hi) as Hinv.
  unfold notify_inv in Hinv. rewrite Hpc in Hinv.
  unfold is_update in Hup. destruct (kind (qry t)); [done |].
  destruct Hinv as (Hc & -> & Hiff & Hw).
  split; [done |]. split; [by intros ?%Hiff |]. split.
  - intros Hle. split; [lia |]. split; [| by apply Hw].
    intros Hin%Hiff. lia.
  - intros s1 s2 k tk tp Hstep Hk Hwaiting. unfold sys_step in Hstep.
    destruct (threads s1 !! i) as [ti|] eqn:Hti; [| done].
    cbn [mbind option_bind] in Hstep.
    destruct (thread_step i (shared s1) ti) as [[[sh' ti'] [|]]|] eqn:Hts;
      cbn [mbind option_bind] in Hstep; simplify_eq.
    apply thread_step_notify in Hts as (ci & Hpci & -> & ->).
    cbn [threads]. rewrite list_lookup_fmap.
    rewrite list_lookup_insert_ne by (intros ->; congruence).
    rewrite Hk. cbn. unfold wake. by rewrite Hwaiting.
Qed.

Lemma update_notifies_iff_rows_updated_witness :
  ∃ s,
    sys_run two_clients (select_blocks ++ update_commits) = Some s
    ∧ at_pc <$> threads s !! 1 = Some (Done 1 ("1 row(s) updated." +:+ NL))
    ∧ NotifyAll 1 ∈ select_blocks ++ update_commits
    ∧ at_pc <$> threads s !! 0 = Some (Woken "").
Proof.
  pose (s := default two_clients
               (sys_run two_clients (select_blocks ++ update_commits))).
  assert (Hinit : initial two_clients).
  { split; [reflexivity |]. intros t Ht.
    apply list_elem_of_In in Ht. cbn in Ht.
    by destruct Ht as [<-|[<-|[]]]. }
  destruct (update_notifies_iff_rows_updated two_clients s
              (select_blocks ++ update_commits) 1
              (goto (enter bob_update) (Done 1 ("1 row(s) updated." +:+ NL)))
              1 ("1 row(s) updated." +:+ NL) Hinit)
    as (_ & Hnotified & _ & _);
    [reflexivity | reflexivity | exact I | reflexivity |].
  exists s. split; [reflexivity |]. split; [reflexivity |].
  split; [apply Hnotified; lia | reflexivity].
Defined.

(** ** A call alone on the table

    The machine, when only one thread moves, does what the call does in
    isolation. *)

Section Alone.
Context `{Collaborators}.

Lemma assignColumns_columns (csv csv' : CSV) (colNames values : StrVec)
    (k : nat) (row : CSVRow) :
  columns csv = columns csv' →
  assignColumns csv colNames values k row
  = assignColumns csv' colNames values k row.
Proof.
  intros Hcols. revert k row.
  induction colNames as [|c rest IH]; intros k row; [done |].
  cbn [assignColumns]. unfold getColumnIndex. rewrite Hcols.
  destruct (v ← vec_idx values k;
            idx ← match list_find (λ c0, c0 = c) (columns csv') with
                  | Some (i, _) => Ok (Z.of_nat i)
                  | None => Throw out_of_range
                  end;
            vec_set row idx v); [apply IH | done | done].
Qed.

Lemma updateRows_columns (csv csv' : CSV) (w : Z) (colNames : StrVec)
    (cond value : string) (values : StrVec) (rs : list CSVRow) (count : Z) :
  columns csv = columns csv' →
  updateRows csv w colNames cond value values rs count
  = updateRows csv' w colNames cond value values rs count.
Proof.
  intros Hcols. revert count.
  induction rs as [|row rs IH]; intros count; [done |].
  cbn [updateRows]. unfold updateRow.
  rewrite (assignColumns_columns csv csv') by done.
  destruct (whereClause w cond value row) as [[|]| |]; try done.
  - destruct (assignColumns csv' colNames values 0 row) as [row' [[]| |]];
      cbn [mbind result_bind]; try done.
    destruct (incr count); try done. by rewrite IH.
  - by rewrite IH.
Qed.

Lemma set_rows_id (csv : CSV) : set_rows csv (rows csv) = csv.
Proof. by destruct csv. Qed.

(** An update that scans alone leaves the rows as [updateRows] does. *)
Lemma update_scan_alone (n : nat) (s : System) (i : nat) (t : Thread)
    (values : StrVec) (held : bool) (k : nat) (tp : string) (c c' : Z)
    (rs' : list CSVRow) :
  threads s !! i = Some t → kind (qry t) = UPDATE values →
  at_pc t = InScan held k tp c →
  k + n = length (rows (table (shared s))) →
  updateRows (table (shared s)) (whereColIdx (qry t)) (cols t)
    (cond (qry t)) (value (qry t)) values
    (drop k (rows (table (shared s)))) c = (rs', Ok c') →
  sys_run s (replicate n (Step i)) =
    Some {| shared :=
              {| table := set_rows (table (shared s))
                            (take k (rows (table (shared s))) ++ rs');
                 csvMutex := csvMutex (shared s) |};
            threads := <[i := goto t (InScan held (k + n) tp c')]>
                         (threads s) |}.
Proof.
  revert s t k c rs'.
  induction n as [|n IH]; intros s t k c rs' Hi Hkind Hpc Hlen Hscan.
  - rewrite drop_ge in Hscan by lia. cbn in Hscan. simplify_eq.
    rewrite take_ge, app_nil_r, set_rows_id by lia.
    cbn. rewrite Nat.add_0_r, <- Hpc.
    destruct s as [[tb mx] ths], t as [q cs p]. cbn in *.
    by rewrite list_insert_id.
  - destruct (lookup_lt_is_Some_2 (rows (table (shared s))) k)
      as [row Hrow]; [lia |].
    rewrite (drop_S _ _ _ Hrow) in Hscan. cbn [updateRows] in Hscan.
    destruct (updateRow _ _ _ _ _ _ row c) as [row' [c1| |]] eqn:Hupd;
      try (by simplify_eq).
    destruct (updateRows _ _ _ _ _ _ (drop (S k) _) c1)
      as [rest' r'] eqn:Hrest.
    simplify_eq.
    cbn [replicate sys_run]. unfold sys_step at 1. rewrite Hi.
    cbn [mbind option_bind]. unfold thread_step.
    rewrite Hpc, Hrow, Hkind, Hupd. cbn [mbind option_bind].
    rewrite (IH _ (goto t (InScan held (S k) tp c1)) (S k) c1 rest');
      cbn [shared threads goto qry cols at_pc table store_row set_rows
           rows columns csvMutex]; try done.
    + rewrite list_insert_insert_eq. unfold goto, set_rows.
      cbn [qry cols columns].
      rewrite (take_S_r _ _ row') by
        (apply list_lookup_insert_eq; by eapply lookup_lt_Some).
      rewrite take_insert_ge by done. rewrite <- app_assoc. cbn [app].
      by replace (S k + n) with (k + S n) by lia.
    + apply list_lookup_insert_eq. by eapply lookup_lt_Some.
    + rewrite length_insert. lia.
    + rewrite drop_insert_lt by lia.
      by rewrite <- (updateRows_columns (table (shared s))).
Qed.

(** X20: a select that returns in isolation returns the same text when
    it is a thread that moves alone among the threads of a table: it
    comes to its end in one step per row and two more, and leaves the
    table and [csvMutex] as they were. *)
Lemma select_alone (s : System) (i : nat) (q : query) (os : string) :
  threads s !! i = Some (enter q) → kind q = SELECT →
  selectQuery (table (shared s)) (mustWait q) (colNames q)
    (whereColIdx q) (cond q) (value q) = Returned os →
  ∃ colNames' count,
    sys_run s (Step i :: replicate (length (rows (table (shared s))))
                           (Step i) ++ [Step i])
    = Some {| shared := shared s;
              threads := <[i := {| qry := q; cols := colNames';
                                   at_pc := Done count os |}]>
                           (threads s) |}.
Proof.
  intros Hi Hkind Hq. unfold selectQuery in Hq.
  destruct (expandStar (table (shared s)) (colNames q)) as [cs| |] eqn:Hexp;
    try done.
  unfold selectResolved, processSelectRow in Hq.
  destruct (selectRows _ _ _ _ _ _ _ _) as [[tp c]| |] eqn:Hscan; try done.
  destruct (mustWait q && bool_decide (c < 1)%Z) eqn:Hloop; simplify_eq.
  assert (Hlt : i < length (threads s)) by (by eapply lookup_lt_Some).
  exists cs, c. cbn [sys_run].
  unfold sys_step at 1. rewrite Hi. cbn [mbind option_bind].
  unfold thread_step. cbn [enter at_pc qry]. rewrite Hexp.
  cbn [mbind option_bind]. rewrite sys_run_app.
  rewrite (select_scan_alone _ _ i
             {| qry := q; cols := cs; at_pc := InScan false 0 "" 0 |}
             false 0 "" tp 0 c);
    cbn [shared threads goto qry cols at_pc table]; try done.
  2: { by apply list_lookup_insert_eq. }
  cbn [mbind option_bind sys_run]. unfold sys_step.
  cbn [shared threads]. rewrite list_insert_insert_eq.
  rewrite list_lookup_insert_eq by done.
  cbn [mbind option_bind]. unfold thread_step.
  cbn [goto qry cols at_pc table Nat.add].
  rewrite (lookup_ge_None_2 _ (length (rows (table (shared s))))) by done.
  cbn [mbind option_bind unlock]. rewrite list_insert_insert_eq.
  unfold after_scan. cbn [goto qry cols orb]. by rewrite Hloop, Hkind.
Qed.

(** X21: an update that returns in isolation leaves the same table,
    returns the same text and calls [notify_all] in the same case when
    it is a thread that moves alone among the threads of a table; its
    notification wakes up the threads that are suspended. *)
Lemma update_alone (s : System) (i : nat) (q : query) (values : StrVec)
    (csv' : CSV) (notified : bool) (os : string) :
  threads s !! i = Some (enter q) → kind q = UPDATE values →
  updateQuery (table (shared s)) (mustWait q) (colNames q) values
    (whereColIdx q) (cond q) (value q) = (csv', notified, Returned os) →
  ∃ colNames' count,
    sys_run s (Step i :: replicate (length (rows (table (shared s))))
                           (Step i)
               ++ Step i :: (if notified then [NotifyAll i] else []))
    = Some {| shared := {| table := csv';
                           csvMutex := csvMutex (shared s) |};
              threads :=
                (if notified then fmap wake else id)
                  (<[i := {| qry := q; cols := colNames';
                             at_pc := Done count os |}]> (threads s)) |}.
Proof.
  intros Hi Hkind Hq. unfold updateQuery in Hq.
  destruct (expandStar (table (shared s)) (colNames q)) as [cs| |] eqn:Hexp;
    try (by simplify_eq).
  unfold updateResolved, processUpdateRow in Hq.
  destruct (updateRows _ _ _ _ _ _ _ _) as [rs' [c| |]] eqn:Hscan;
    try (by simplify_eq).
  destruct (mustWait q && bool_decide (c < 1)%Z) eqn:Hloop; simplify_eq.
  assert (Hlt : i < length (threads s)) by (by eapply lookup_lt_Some).
  exists cs, c. cbn [sys_run].
  unfold sys_step at 1. rewrite Hi. cbn [mbind option_bind].
  unfold thread_step. cbn [enter at_pc qry]. rewrite Hexp.
  cbn [mbind option_bind]. rewrite sys_run_app.
  rewrite (update_scan_alone _ _ i
             {| qry := q; cols := cs; at_pc := InScan false 0 "" 0 |}
             values false 0 "" 0 c rs');
    cbn [shared threads goto qry cols at_pc table]; try done.
  2: { by apply list_lookup_insert_eq. }
  cbn [mbind option_bind sys_run take app]. unfold sys_step at 1.
  cbn [shared threads]. rewrite list_insert_insert_eq.
  rewrite list_lookup_insert_eq by done.
  cbn [mbind option_bind]. unfold thread_step at 1.
  cbn [goto qry cols at_pc table Nat.add set_rows rows].
  assert (Hrs : length rs' = length (rows (table (shared s)))).
  { clear -Hscan. revert Hscan. generalize 0%Z at 1. revert rs'.
    induction (rows (table (shared s))) as [|row rs IH]; intros rs' c0 Hscan.
    - cbn in Hscan. by simplify_eq.
    - cbn [updateRows] in Hscan.
      destruct (updateRow _ _ _ _ _ _ row c0) as [row' [c1| |]];
        try (by simplify_eq).
      destruct (updateRows _ _ _ _ _ _ rs c1) as [rest' r'] eqn:Hrest.
      simplify_eq. cbn. f_equal. by eapply IH. }
  rewrite (lookup_ge_None_2 rs') by lia.
  cbn [mbind option_bind unlock]. rewrite list_insert_insert_eq.
  unfold after_scan. cbn [goto qry cols orb]. rewrite Hloop, Hkind.
  destruct (decide (0 < c)%Z) as [Hpos|Hpos].
  - rewrite bool_decide_eq_true_2 by done.
    cbn [sys_run]. unfold sys_step. cbn [threads shared].
    rewrite list_lookup_insert_eq by done.
    cbn [mbind option_bind]. unfold thread_step. cbn [goto at_pc qry cols].
    cbn [mbind option_bind]. by rewrite list_insert_insert_eq.
  - by rewrite bool_decide_eq_false_2 by done.
Qed.

End Alone.

(** ** More on the row loops *)

Section UpdateFacts.
Context `{Collaborators}.

Lemma vec_set_length {A} (v v' : list A) (n : Z) (x : A) :
  vec_set v n x = Ok v' → length v' = length v.
Proof.
  unfold vec_set. destruct (vec_at v n); cbn [mbind result_bind]; try done.
  intros [= <-]. apply length_insert.
Qed.

Lemma assignColumns_length (csv : CSV) (colNames values : StrVec)
    (i : nat) (row : CSVRow) :
  length (assignColumns csv colNames values i row).1 = length row.
Proof.
  revert i row. induction colNames as [|c rest IH]; intros i row; [done |].
  cbn [assignColumns].
  destruct (v ← vec_idx values i;
            idx ← getColumnIndex csv c; vec_set row idx v)
    as [row'| |] eqn:Hset; [| done | done].
  rewrite IH.
  destruct (vec_idx values i) as [v| |]; cbn [mbind result_bind] in Hset;
    try done.
  destruct (getColumnIndex csv c) as [idx| |];
    cbn [mbind result_bind] in Hset; try done.
  by eapply vec_set_length.
Qed.

Lemma updateRow_length (csv : CSV) (w : Z) (colNames : StrVec)
    (cond value : string) (values : StrVec) (row : CSVRow) (count : Z) :
  length (updateRow csv w colNames cond value values row count).1
  = length row.
Proof.
  unfold updateRow.
  destruct (whereClause w cond value row) as [[|]| |]; try done.
  pose proof (assignColumns_length csv colNames values 0 row) as Hlen.
  by destruct (assignColumns csv colNames values 0 row).
Qed.

Lemma updateRow_unmatched (csv : CSV) (w : Z) (colNames : StrVec)
    (cond value : string) (values : StrVec) (row : CSVRow) (count : Z) :
  whereClause w cond value row ≠ Ok true →
  (updateRow csv w colNames cond value values row count).1 = row.
Proof.
  unfold updateRow.
  by destruct (whereClause w cond value row) as [[|]| |].
Qed.

Lemma same_width_refl (rs : list CSVRow) :
  Forall2 (λ row row' : CSVRow, length row' = length row) rs rs.
Proof. induction rs; by constructor. Qed.

Lemma updateRows_shape (csv : CSV) (w : Z) (colNames : StrVec)
    (cond value : string) (values : StrVec) (rs : list CSVRow) (count : Z) :
  Forall2 (λ row row' : CSVRow, length row' = length row) rs
    (updateRows csv w colNames cond value values rs count).1.
Proof.
  revert count. induction rs as [|row rs IH]; intros count; [constructor |].
  cbn [updateRows].
  pose proof (updateRow_length csv w colNames cond value values row count)
    as Hrow.
  destruct (updateRow csv w colNames cond value values row count)
    as [row' [c1| |]]; cbn [fst] in *.
  - specialize (IH c1).
    destruct (updateRows csv w colNames cond value values rs c1).
    by constructor.
  - constructor; [done | apply same_width_refl].
  - constructor; [done | apply same_width_refl].
Qed.

Lemma updateRows_unmatched (csv : CSV) (w : Z) (colNames : StrVec)
    (cond value : string) (values : StrVec) (rs : list CSVRow) (count : Z)
    (i : nat) (row : CSVRow) :
  rs !! i = Some row → whereClause w cond value row ≠ Ok true →
  (updateRows csv w colNames cond value values rs count).1 !! i = Some row.
Proof.
  revert count i. induction rs as [|r rs IH]; intros count i Hi Hno;
    [done |].
  cbn [updateRows].
  pose proof (updateRow_unmatched csv w colNames cond value values r count)
    as Hr.
  destruct (updateRow csv w colNames cond value values r count)
    as [r' [c1| |]]; cbn [fst] in *.
  - specialize (IH c1).
    destruct (updateRows csv w colNames cond value values rs c1) as [rs' r1].
    destruct i as [|i]; cbn in *.
    + simplify_eq. by rewrite Hr.
    + by apply IH.
  - destruct i as [|i]; cbn in *; [| done]. simplify_eq. by rewrite Hr.
  - destruct i as [|i]; cbn in *; [| done]. simplify_eq. by rewrite Hr.
Qed.

Lemma updateQuery_table (csv : CSV) (mustWait : bool)
    (colNames values : StrVec) (w : Z) (cond value : string) :
  (updateQuery csv mustWait colNames values w cond value).1.1 = csv
  ∨ ∃ colNames',
      (updateQuery csv mustWait colNames values w cond value).1.1
      = set_rows csv
          (updateRows csv w colNames' cond value values (rows csv) 0).1.
Proof.
  unfold updateQuery.
  destruct (expandStar csv colNames) as [cs| |]; [| by left | by left].
  right. exists cs. unfold updateResolved, processUpdateRow.
  destruct (updateRows csv w cs cond value values (rows csv) 0)
    as [rs [c| |]]; cbn [fst]; try done.
  by destruct (mustWait && bool_decide (c < 1)%Z).
Qed.

End UpdateFacts.

(** X1: whatever the request and however the call ends, short of
    undefined behaviour, [updateQuery] leaves a table of the same shape:
    the same columns, as many rows, and every row as wide as it was. *)
Theorem update_keeps_shape `{Collaborators} (csv : CSV) (mustWait : bool)
    (colNames values : StrVec) (w : Z) (cond value : string) :
  (updateQuery csv mustWait colNames values w cond value).2 ≠ Undefined →
  same_shape csv (updateQuery csv mustWait colNames values w cond value).1.1.
Proof.
  intros _.
  destruct (updateQuery_table csv mustWait colNames values w cond value)
    as [->|[cs ->]].
  - split; [done | apply same_width_refl].
  - split; [done | apply updateRows_shape].
Qed.

Lemma update_keeps_shape_witness :
  same_shape people
    (updateQuery people false ["age"; "city"] ["31"; "Rome"] (-1) "" "").1.1
  ∧ (updateQuery people false ["age"; "city"] ["31"; "Rome"] (-1) "" "").2
    = Raised out_of_range.
Proof.
  split; [| reflexivity].
  apply (update_keeps_shape people false ["age"; "city"] ["31"; "Rome"]
           (-1) "" "").
  discriminate.
Defined.

(** X2: a row on which the where-clause does not hold is never
    modified by [updateQuery], however the call ends, short of
    undefined behaviour; the rows keep their places. *)
Theorem update_spares_unmatched_rows `{Collaborators} (csv : CSV)
    (mustWait : bool) (colNames values : StrVec) (w : Z)
    (cond value : string) (i : nat) (row : CSVRow) :
  (updateQuery csv mustWait colNames values w cond value).2 ≠ Undefined →
  rows csv !! i = Some row →
  whereClause w cond value row ≠ Ok true →
  rows (updateQuery csv mustWait colNames values w cond value).1.1 !! i
  = Some row.
Proof.
  intros _ Hi Hno.
  destruct (updateQuery_table csv mustWait colNames values w cond value)
    as [->|[cs ->]]; [done |].
  by apply updateRows_unmatched.
Qed.

Lemma update_spares_unmatched_rows_witness :
  rows (updateQuery people false ["age"; "city"] ["31"; "Rome"]
          0 "=" "Ann").1.1 !! 1
  = Some ["Bob"; "25"].
Proof.
  apply (update_spares_unmatched_rows people false ["age"; "city"]
           ["31"; "Rome"] 0 "=" "Ann" 1 ["Bob"; "25"]).
  - discriminate.
  - reflexivity.
  - discriminate.
Defined.

Section Overwrite.
Context `{Collaborators}.

Lemma column_of_lookup (csv : CSV) (c : string) (i : nat) :
  column_of csv c = Some i → columns csv !! i = Some c.
Proof.
  unfold column_of.
  destruct (list_find (λ c', c' = c) (columns csv)) as [[k x]|] eqn:Hf;
    [| done].
  intros [= <-]. by apply list_find_Some in Hf as (Hk & -> & _).
Qed.

(** A column that is not named keeps its field. *)
Lemma overwrite_other (csv : CSV) (colNames values : StrVec)
    (row : CSVRow) (i : nat) :
  (∀ c, c ∈ colNames → column_of csv c ≠ Some i) →
  overwrite csv colNames values row !! i = row !! i.
Proof.
  unfold overwrite. revert values row.
  induction colNames as [|c rest IH]; intros values row Hnot; [done |].
  destruct values as [|v vs]; [done |]. cbn [zip zip_with foldl].
  rewrite IH by (intros c' Hc'; apply Hnot; by right).
  destruct (column_of csv c) as [k|] eqn:Hk; [| done].
  apply list_lookup_insert_ne. intros ->. by apply (Hnot c); [left |].
Qed.

(** A column named once gets the value of its place. *)
Lemma overwrite_named (csv : CSV) (colNames values : StrVec)
    (row : CSVRow) (j i : nat) (c v : string) :
  NoDup colNames → colNames !! j = Some c → values !! j = Some v →
  column_of csv c = Some i → i < length row →
  overwrite csv colNames values row !! i = Some v.
Proof.
  unfold overwrite. revert values row j.
  induction colNames as [|c0 rest IH]; intros values row j Hnd Hc Hv Hi Hlt;
    [done |].
  destruct values as [|v0 vs]; [done |]. cbn [zip zip_with foldl].
  apply NoDup_cons in Hnd as [Hc0 Hnd].
  destruct j as [|j]; cbn in Hc, Hv.
  - simplify_eq. rewrite Hi.
    change (overwrite csv rest vs (<[i:=v]> row) !! i = Some v).
    rewrite overwrite_other.
    + by apply list_lookup_insert_eq.
    + intros c' Hc' Hi'. apply column_of_lookup in Hi, Hi'.
      by simplify_eq.
  - apply (IH vs _ j); try done.
    destruct (column_of csv c0); [by rewrite length_insert | done].
Qed.

End Overwrite.

(** X3: on a well-formed request whose column names are distinct,
    [processUpdateRow] gives every matched row the values of the
    request, each in the column named at its place, and leaves the
    fields of the columns that are not named as they were. *)
Theorem update_writes_named_columns `{Collaborators} (csv : CSV)
    (colNames values : StrVec) (w : Z) (cond value : string)
    (k : nat) (row : CSVRow) :
  table_ok csv → cols_ok csv colNames → where_ok csv w →
  NoDup colNames → length colNames ≤ length values →
  (Z.of_nat (length (rows csv)) ≤ INT_MAX)%Z →
  rows csv !! k = Some row →
  selected w cond value row = true →
  ∃ row',
    rows (processUpdateRow csv w colNames cond value values).1 !! k
    = Some row'
    ∧ (∀ j c v, colNames !! j = Some c → values !! j = Some v →
         ∃ i, columns csv !! i = Some c ∧ row' !! i = Some v)
    ∧ (∀ i c, columns csv !! i = Some c → c ∉ colNames →
         row' !! i = row !! i).
Proof.
  intros Hok Hcols Hw Hnd Hvals Hmax Hk Hsel.
  exists (overwrite csv colNames values row).
  unfold processUpdateRow. rewrite updateRows_ok by done.
  cbn [fst set_rows rows]. split; [| split].
  - rewrite list_lookup_fmap, Hk. cbn. by rewrite Hsel.
  - intros j c v Hc Hv.
    assert (c ∈ columns csv) as Hin.
    { unfold cols_ok in Hcols. rewrite Forall_forall in Hcols.
      apply Hcols. by eapply list_elem_of_lookup_2. }
    destruct (column_of_Some csv c Hin) as (i & Hi & Hlt).
    exists i. split; [by apply column_of_lookup |].
    eapply overwrite_named; try done.
    unfold table_ok in Hok. rewrite Forall_forall in Hok.
    rewrite (Hok row) by (by eapply list_elem_of_lookup_2). done.
  - intros i c Hi Hc. apply overwrite_other.
    intros c' Hc' Hi'. apply column_of_lookup in Hi'. by simplify_eq.
Qed.

Lemma update_writes_named_columns_witness :
  ∃ row',
    rows (processUpdateRow people 0 ["age"] "=" "Bob" ["26"]).1 !! 1
    = Some row'
    ∧ row' !! 1 = Some "26" ∧ row' !! 0 = Some "Bob".
Proof.
  assert (Hok : table_ok people) by (repeat constructor).
  assert (Hcols : cols_ok people ["age"]) by (repeat constructor).
  assert (Hw : where_ok people 0) by (right; simpl; lia).
  assert (Hnd : NoDup ["age"]) by apply NoDup_singleton.
  assert (Hmax : (Z.of_nat (length (rows people)) ≤ INT_MAX)%Z)
    by (vm_compute; discriminate).
  assert (Hsel : selected 0 "=" "Bob" ["Bob"; "25"] = true) by reflexivity.
  destruct (update_writes_named_columns people ["age"] ["26"] 0 "=" "Bob"
              1 ["Bob"; "25"] Hok Hcols Hw Hnd (le_n 1) Hmax
              eq_refl Hsel) as (row' & Hrow & Hnamed & Hother).
  exists row'. split; [exact Hrow |]. split.
  - destruct (Hnamed 0 "age" "26" eq_refl eq_refl) as (i & Hi & Hv).
    destruct i as [|[|i]]; cbn in Hi; [discriminate | exact Hv | discriminate].
  - rewrite (Hother 0 "name" eq_refl); [reflexivity |].
    intros Hin. apply list_elem_of_In in Hin. cbn in Hin.
    destruct Hin as [?|[]]. discriminate.
Defined.

Section NoMatch.
Context `{Collaborators}.

Lemma selectRows_no_match (csv : CSV) (colNames : StrVec) (w : Z)
    (cond value : string) (rs : list CSVRow) (toPrint : string) (count : Z) :
  Forall (λ row, whereClause w cond value row = Ok false) rs →
  selectRows csv colNames w cond value rs toPrint count = Ok (toPrint, count).
Proof.
  induction 1 as [|row rs Hrow Hrs IH]; [done |].
  cbn [selectRows]. unfold selectRow. rewrite Hrow.
  cbn [mbind result_bind]. apply IH.
Qed.

Lemma updateRows_no_match (csv : CSV) (w : Z) (colNames : StrVec)
    (cond value : string) (values : StrVec) (rs : list CSVRow) (count : Z) :
  Forall (λ row, whereClause w cond value row = Ok false) rs →
  updateRows csv w colNames cond value values rs count = (rs, Ok count).
Proof.
  induction 1 as [|row rs Hrow Hrs IH]; [done |].
  cbn [updateRows]. unfold updateRow. rewrite Hrow. by rewrite IH.
Qed.

Lemma expandStar_cons (csv : CSV) (c : string) (rest : StrVec) :
  expandStar csv (c :: rest)
  = Ok (if decide (c = "*") then getColumnNames csv else c :: rest).
Proof. done. Qed.

End NoMatch.

(** X4: when the where-clause holds on no row (in particular on a table
    without rows), the requested columns and the values are never
    looked at: whatever they are, a select reports no row and prints no
    column header, an update reports no row, leaves the table as it is
    and notifies nobody; with [mustWait] both calls wait instead. *)
Theorem no_match_no_column_check `{Collaborators} (csv : CSV) (c : string)
    (rest values : StrVec) (w : Z) (cond value : string) :
  Forall (λ row, whereClause w cond value row = Ok false) (rows csv) →
  selectQuery csv false (c :: rest) w cond value
  = Returned ("0 row(s) selected." +:+ NL)
  ∧ selectQuery csv true (c :: rest) w cond value = Blocked
  ∧ updateQuery csv false (c :: rest) values w cond value
    = (csv, false, Returned ("0 row(s) updated." +:+ NL))
  ∧ updateQuery csv true (c :: rest) values w cond value
    = (csv, false, Blocked).
Proof.
  intros Hno. unfold selectQuery, updateQuery. rewrite expandStar_cons.
  unfold selectResolved, updateResolved, processSelectRow, processUpdateRow.
  rewrite !selectRows_no_match, !updateRows_no_match by done.
  rewrite set_rows_id. by repeat split.
Qed.

Lemma no_match_no_column_check_witness :
  selectQuery people false ["city"] 0 "=" "Carl"
  = Returned ("0 row(s) selected." +:+ NL)
  ∧ updateQuery people false ["city"; "zip"] [] 0 "=" "Carl"
    = (people, false, Returned ("0 row(s) updated." +:+ NL)).
Proof.
  assert (Hno : Forall (λ row, whereClause 0 "=" "Carl" row = Ok false)
                  (rows people)) by (repeat constructor).
  split.
  - by destruct (no_match_no_column_check people "city" [] [] 0 "=" "Carl"
                   Hno) as (Hs & _).
  - by destruct (no_match_no_column_check people "city" ["zip"] [] 0 "="
                   "Carl" Hno) as (_ & _ & Hu & _).
Defined.

(** X5: an update that fails is not undone.  When the first row matches
    and the column list starts with a column of the table followed by a
    name that is no column, [updateQuery] raises [std::out_of_range]
    after it has stored the first value in the first row, and leaves
    the table with that store. *)
Theorem failed_update_keeps_its_stores `{Collaborators} (csv : CSV)
    (mustWait : bool) (good bad : string) (more : StrVec)
    (v0 v1 : string) (vs : StrVec) (w : Z) (cond value : string)
    (row0 : CSVRow) (rest : list CSVRow) (i : nat) :
  rows csv = row0 :: rest →
  whereClause w cond value row0 = Ok true →
  good ≠ "*" →
  column_of csv good = Some i → i < length row0 →
  bad ∉ columns csv →
  updateQuery csv mustWait (good :: bad :: more) (v0 :: v1 :: vs)
    w cond value
  = (set_rows csv (<[i := v0]> row0 :: rest), false, Raised out_of_range).
Proof.
  intros Hrows Hhit Hstar Hgood Hlt Hbad.
  unfold updateQuery. rewrite expandStar_cons.
  destruct (decide (good = "*")) as [|_]; [done |].
  unfold updateResolved, processUpdateRow. rewrite Hrows.
  cbn [updateRows]. unfold updateRow. rewrite Hhit.
  cbn [assignColumns vec_idx lookup list_lookup mbind result_bind].
  rewrite !getColumnIndex_column_of, Hgood. cbn [mbind result_bind].
  destruct (lookup_lt_is_Some_2 row0 i Hlt) as [fld Hfld].
  unfold vec_set at 1. rewrite (vec_at_lookup _ _ _ Hfld).
  cbn [mbind result_bind]. rewrite Nat2Z.id.
  assert (column_of csv bad = None) as ->; [| done].
  unfold column_of.
  destruct (list_find (λ c', c' = bad) (columns csv)) as [[k x]|] eqn:Hf;
    [| done].
  apply list_find_Some in Hf as (Hk & -> & _).
  destruct Hbad. by eapply list_elem_of_lookup_2.
Qed.

Lemma failed_update_keeps_its_stores_witness :
  updateQuery people false ["age"; "city"] ["31"; "Rome"] 0 "=" "Ann"
  = (mkCSV ["name"; "age"] [["Ann"; "31"]; ["Bob"; "25"]], false,
     Raised out_of_range).
Proof.
  assert (Hbad : "city" ∉ columns people).
  { intros Hin. apply list_elem_of_In in Hin. cbn in Hin.
    destruct Hin as [?|[?|[]]]; discriminate. }
  assert (Hstar : "age" ≠ "*") by discriminate.
  assert (Hlt : 1 < length ["Ann"; "30"]) by (cbn; lia).
  exact (failed_update_keeps_its_stores people false "age" "city" []
           "31" "Rome" [] 0 "=" "Ann" ["Ann"; "30"] [["Bob"; "25"]] 1
           eq_refl eq_refl Hstar eq_refl Hlt Hbad).
Defined.

(** X6: a where-clause whose column index is not [-1] and lies outside
    the first row makes both queries raise [std::out_of_range] at that
    row; the update has then written nothing. *)
Theorem where_index_out_of_range `{Collaborators} (csv : CSV)
    (mustWait : bool) (c : string) (cs values : StrVec) (w : Z)
    (cond value : string) (row0 : CSVRow) (rest : list CSVRow) :
  rows csv = row0 :: rest →
  w ≠ (-1)%Z →
  ¬ (0 ≤ w < Z.of_nat (length row0))%Z →
  selectQuery csv mustWait (c :: cs) w cond value = Raised out_of_range
  ∧ updateQuery csv mustWait (c :: cs) values w cond value
    = (csv, false, Raised out_of_range).
Proof.
  intros Hrows Hne Hout.
  assert (Hwhere : whereClause w cond value row0 = Throw out_of_range).
  { unfold whereClause. destruct (decide (w = -1)%Z); [done |].
    unfold vec_at. destruct (decide (0 ≤ w)%Z); [| done].
    rewrite lookup_ge_None_2 by lia. done. }
  unfold selectQuery, updateQuery. rewrite expandStar_cons.
  unfold selectResolved, updateResolved, processSelectRow, processUpdateRow.
  rewrite Hrows. cbn [selectRows updateRows]. unfold selectRow, updateRow.
  rewrite Hwhere. cbn [mbind result_bind]. split; [done |].
  by rewrite <- Hrows, set_rows_id.
Qed.

Lemma where_index_out_of_range_witness :
  selectQuery people false ["name"] 2 "=" "x" = Raised out_of_range
  ∧ updateQuery people true ["name"] ["y"] (-5) "=" "x"
    = (people, false, Raised out_of_range).
Proof.
  split.
  - assert (Hne : (2 ≠ -1)%Z) by discriminate.
    assert (Hout : ¬ (0 ≤ 2 < Z.of_nat (length ["Ann"; "30"]))%Z)
      by (cbn; lia).
    by destruct (where_index_out_of_range people false "name" [] [] 2 "="
                   "x" ["Ann"; "30"] [["Bob"; "25"]] eq_refl Hne Hout)
         as [Hs _].
  - assert (Hne : (-5 ≠ -1)%Z) by discriminate.
    assert (Hout : ¬ (0 ≤ -5 < Z.of_nat (length ["Ann"; "30"]))%Z)
      by (cbn; lia).
    by destruct (where_index_out_of_range people true "name" [] ["y"] (-5)
                   "=" "x" ["Ann"; "30"] [["Bob"; "25"]] eq_refl Hne Hout)
         as [_ Hu].
Defined.

(** ** More on the registry *)

Section RegistryFrame.
Context `{Collaborators}.

Lemma loadAndGet_map (w : World) (st : SQLAir) (request : string) :
  let fileOrURL := if decide (request = "") then recentCSV st else request in
  inMemoryCSV (loadAndGet w st request).1
  = match inMemoryCSV st !! fileOrURL, loadSource w fileOrURL with
    | None, Ok csv => <[fileOrURL := csv]> (inMemoryCSV st)
    | _, _ => inMemoryCSV st
    end.
Proof.
  intros fileOrURL.
  destruct (inMemoryCSV st !! fileOrURL) as [csv|] eqn:Hlook.
  - rewrite (loadAndGet_resident w st request)
      by (fold fileOrURL; rewrite Hlook; eauto).
    done.
  - rewrite (loadAndGet_absent w st request) by done. fold fileOrURL.
    by destruct (loadSource w fileOrURL).
Qed.

Lemma loadAndGet_keeps (w : World) (st : SQLAir) (request k : string)
    (csv : CSV) :
  inMemoryCSV st !! k = Some csv →
  inMemoryCSV (loadAndGet w st request).1 !! k = Some csv.
Proof.
  intros Hk. rewrite loadAndGet_map.
  destruct (inMemoryCSV st !! (if decide (request = "") then recentCSV st
                               else request)) as [csv'|] eqn:Hlook;
    [done |].
  destruct (loadSource w _) as [csv'| |]; [| done | done].
  rewrite lookup_insert_ne; [done |]. intros <-. congruence.
Qed.

End RegistryFrame.

(** X7: a resolve changes the registry at most at the identifier it
    resolves: every other table stays as it is, a resident table is
    returned without being replaced, and a table that was not resident
    and loads is afterwards found under its identifier as it was
    loaded. *)
Theorem resolve_touches_one_entry `{Collaborators} (w : World) (st : SQLAir)
    (request : string) :
  let fileOrURL := if decide (request = "") then recentCSV st else request in
  let st1 := (loadAndGet w st request).1 in
  (∀ k, k ≠ fileOrURL → inMemoryCSV st1 !! k = inMemoryCSV st !! k)
  ∧ (∀ csv, inMemoryCSV st !! fileOrURL = Some csv →
       inMemoryCSV st1 !! fileOrURL = Some csv
       ∧ (loadAndGet w st request).2 = Ok fileOrURL)
  ∧ (∀ csv, inMemoryCSV st !! fileOrURL = None →
       loadSource w fileOrURL = Ok csv →
       inMemoryCSV st1 !! fileOrURL = Some csv
       ∧ (loadAndGet w st request).2 = Ok fileOrURL).
Proof.
  intros fileOrURL st1. subst st1. split; [| split].
  - intros k Hk. rewrite loadAndGet_map. fold fileOrURL.
    destruct (inMemoryCSV st !! fileOrURL); [done |].
    destruct (loadSource w fileOrURL); [| done | done].
    by rewrite lookup_insert_ne.
  - intros csv Hres. split; [by apply loadAndGet_keeps |].
    rewrite (loadAndGet_resident w st request)
      by (fold fileOrURL; rewrite Hres; eauto).
    done.
  - intros csv Habs Hload.
    rewrite (loadAndGet_absent w st request) by done. fold fileOrURL.
    rewrite Hload. cbn. by rewrite lookup_insert_eq.
Qed.

Lemma resolve_touches_one_entry_witness :
  let st1 := (loadAndGet disk fresh "good.csv").1 in
  let st2 := (loadAndGet disk st1 "bad.csv").1 in
  inMemoryCSV st1 !! "good.csv" = Some (mkCSV ["name"] [["Ann"]; ["Bob"]])
  ∧ inMemoryCSV st2 !! "good.csv" = inMemoryCSV st1 !! "good.csv".
Proof.
  split.
  - destruct (resolve_touches_one_entry disk fresh "good.csv")
      as (_ & _ & Hload).
    by destruct (Hload (mkCSV ["name"] [["Ann"]; ["Bob"]]) eq_refl eq_refl).
  - destruct (resolve_touches_one_entry disk
                (loadAndGet disk fresh "good.csv").1 "bad.csv")
      as (Hother & _).
    apply Hother. discriminate.
Defined.

(** X8: the registry only grows.  Whatever resolves follow, in worlds
    that may have changed, a table that is resident stays resident and
    is not loaded again: it is found unchanged under its identifier. *)
Theorem resident_tables_stay `{Collaborators} (st : SQLAir)
    (requests : list (World * string)) (k : string) (csv : CSV) :
  inMemoryCSV st !! k = Some csv →
  inMemoryCSV (resolves st requests) !! k = Some csv.
Proof.
  revert st. induction requests as [|[w request] rest IH]; intros st Hk;
    [done |].
  cbn [resolves]. apply IH. by apply loadAndGet_keeps.
Qed.

Lemma resident_tables_stay_witness :
  let st1 := (loadAndGet disk fresh "good.csv").1 in
  let later := write_file disk "good.csv" ["name"; "Zoe"] in
  inMemoryCSV (resolves st1 [(later, "bad.csv"); (later, "good.csv");
                             (later, "")]) !! "good.csv"
  = Some (mkCSV ["name"] [["Ann"]; ["Bob"]]).
Proof.
  apply (resident_tables_stay (loadAndGet disk fresh "good.csv").1).
  reflexivity.
Defined.

(** ** Downloading and saving *)

Section Download.
Context `{Collaborators}.

Lemma skipHeaders_blank (hs : list string) (blank : string)
    (body : list string) :
  Forall (λ l, l ≠ "" ∧ l ≠ CR) hs → blank = "" ∨ blank = CR →
  skipHeaders (hs ++ blank :: body) = body.
Proof.
  intros Hhs Hblank. induction Hhs as [|l hs [Hl1 Hl2] Hhs IH]; cbn.
  - by destruct (decide (blank = "" ∨ blank = CR)).
  - destruct (decide (l = "" ∨ l = CR)) as [[?|?]|_]; done.
Qed.

Lemma skipHeaders_no_blank (hs : list string) :
  Forall (λ l, l ≠ "" ∧ l ≠ CR) hs → skipHeaders hs = [].
Proof.
  induction 1 as [|l hs [Hl1 Hl2] Hhs IH]; cbn; [done |].
  destruct (decide (l = "" ∨ l = CR)) as [[?|?]|_]; done.
Qed.

Lemma skipHeaders_suffix (data : list string) :
  ∃ skipped, data = skipped ++ skipHeaders data.
Proof.
  induction data as [|l data [skipped IH]]; cbn.
  - by exists [].
  - destruct (decide (l = "" ∨ l = CR)).
    + by exists [l].
    + exists (l :: skipped). cbn. by rewrite <- IH.
Qed.

End Download.

(** X9: when the server answers with a status line that contains
    [200 OK], [setupDownload] leaves exactly what follows the first
    empty line (empty, or a lone carriage return) of the answer; when
    the answer has no empty line, it leaves nothing. *)
Theorem download_leaves_the_body `{Collaborators} (w : World)
    (hostName path port status : string) (hs body : list string)
    (blank : string) :
  contains "200 OK" status = true →
  Forall (λ l, l ≠ "" ∧ l ≠ CR) hs →
  blank = "" ∨ blank = CR →
  (remote w hostName port path = Some (status :: hs ++ blank :: body) →
   setupDownload w hostName path port = Ok body)
  ∧ (remote w hostName port path = Some (status :: hs) →
     setupDownload w hostName path port = Ok []).
Proof.
  intros Hstatus Hhs Hblank. unfold setupDownload. split; intros ->;
    change (default "" (head (status :: ?l))) with status;
    cbn [tail]; rewrite Hstatus.
  - by rewrite skipHeaders_blank.
  - by rewrite skipHeaders_no_blank.
Qed.

Lemma download_leaves_the_body_witness :
  let web := {| files := ∅;
                remote := λ _ _ _,
                  Some ["HTTP/1.1 200 OK" +:+ CR; "Server: x" +:+ CR; CR;
                        "name"; "Ann"];
                writable := λ _, true |} in
  setupDownload web "host" "/people.csv" "80" = Ok ["name"; "Ann"].
Proof.
  intros web.
  assert (Hstatus : contains "200 OK" ("HTTP/1.1 200 OK" +:+ CR) = true)
    by reflexivity.
  assert (Hhs : Forall (λ l, l ≠ "" ∧ l ≠ CR) ["Server: x" +:+ CR])
    by (repeat constructor; discriminate).
  destruct (download_leaves_the_body web "host" "/people.csv" "80"
              ("HTTP/1.1 200 OK" +:+ CR) ["Server: x" +:+ CR]
              ["name"; "Ann"] CR Hstatus Hhs (or_intror eq_refl))
    as [Hbody _].
  by apply Hbody.
Defined.

(** X10: [setupDownload] succeeds only when the connection is good and
    the first line of the answer contains [200 OK], and what it leaves
    is then an end piece of the lines after the first; every failure is
    an [Exp], never another exception. *)
Theorem download_needs_200 `{Collaborators} (w : World)
    (hostName path port : string) :
  (∀ body, setupDownload w hostName path port = Ok body →
     ∃ status rest skipped,
       remote w hostName port path = Some (status :: rest)
       ∧ contains "200 OK" status = true
       ∧ rest = skipped ++ body)
  ∧ (∀ e, setupDownload w hostName path port = Throw e →
       ∃ what, e = Exp what)
  ∧ setupDownload w hostName path port ≠ Undef.
Proof.
  unfold setupDownload.
  destruct (remote w hostName port path) as [[|status rest]|].
  - change (contains "200 OK" (default "" (head []))) with false.
    cbn match.
    split; [done |]. split; [| done]. intros e [= <-]. eauto.
  - change (default "" (head (status :: rest))) with status. cbn [tail].
    destruct (contains "200 OK" status) eqn:Hstatus.
    + split; [| done]. intros body [= <-].
      destruct (skipHeaders_suffix rest) as [skipped Hrest].
      by exists status, rest, skipped.
    + split; [done |]. split; [| done]. intros e [= <-]. eauto.
  - split; [done |]. split; [| done]. intros e [= <-]. eauto.
Qed.

Lemma download_needs_200_witness :
  let web := {| files := ∅;
                remote := λ _ _ _, Some ["HTTP/1.1 404 Not Found" +:+ CR];
                writable := λ _, true |} in
  ∃ what, setupDownload web "host" "/people.csv" "80" = Throw (Exp what).
Proof.
  intros web.
  destruct (download_needs_200 web "host" "/people.csv" "80")
    as (_ & Hexp & _).
  destruct (Hexp (Exp ("Error (HTTP/1.1 404 Not Found" +:+ CR
                       +:+ ") getting /people.csv from host at port 80"))
              eq_refl) as [what Hwhat].
  exists what. by rewrite <- Hwhat.
Defined.

(** X11: a table saved by [saveQuery] to a file that can be opened
    is the table a later resolve of that file loads, in a registry where
    it is not resident, provided the codec reads back what it writes
    for this table.  When the file cannot be opened, [saveQuery] reports
    the table as saved all the same, and has written nothing. *)
Theorem save_then_load `{Collaborators} (w : World) (st st0 : SQLAir)
    (csv : CSV) :
  recentCSV st ≠ "" →
  starts_with "http://" (recentCSV st) = false →
  inMemoryCSV st !! recentCSV st = Some csv →
  csv_load (Some (csv_save csv)) = Ok csv →
  inMemoryCSV st0 !! recentCSV st = None →
  (saveQuery w st).2 = Ok (recentCSV st +:+ " saved." +:+ NL)
  ∧ (writable w (recentCSV st) = true →
     files (saveQuery w st).1 !! recentCSV st = Some (csv_save csv)
     ∧ (loadAndGet (saveQuery w st).1 st0 (recentCSV st)).2
       = Ok (recentCSV st)
     ∧ inMemoryCSV (loadAndGet (saveQuery w st).1 st0 (recentCSV st)).1
         !! recentCSV st = Some csv)
  ∧ (writable w (recentCSV st) = false → (saveQuery w st).1 = w).
Proof.
  intros Hne Hlocal Hres Hcodec Habs.
  assert (Hsave : saveQuery w st
                  = (save_to (open_trunc w (recentCSV st)).1
                       (open_trunc w (recentCSV st)).2 (recentCSV st)
                       (csv_save csv),
                     Ok (recentCSV st +:+ " saved." +:+ NL))).
  { unfold saveQuery.
    rewrite bool_decide_eq_false_2, Hlocal by done. cbn [orb].
    destruct (open_trunc w (recentCSV st)) as [w1 csvData].
    by rewrite Hres. }
  rewrite Hsave. cbn [fst snd]. split; [done |]. unfold open_trunc.
  split; intros Hopen; rewrite Hopen; cbn [fst snd save_to]; [| done].
  assert (Hfile : files (write_file (write_file w (recentCSV st) [])
                           (recentCSV st) (csv_save csv)) !! recentCSV st
                  = Some (csv_save csv)) by apply lookup_insert_eq.
  split; [done |].
  pose proof (loadAndGet_absent
                (write_file (write_file w (recentCSV st) []) (recentCSV st)
                   (csv_save csv)) st0 (recentCSV st)) as Hl.
  cbn zeta in Hl. destruct (decide (recentCSV st = "")) as [|_]; [done |].
  rewrite Hl by done. unfold loadSource. rewrite Hlocal, Hfile, Hcodec.
  cbn [fst snd inMemoryCSV]. by rewrite lookup_insert_eq.
Qed.

Lemma save_then_load_witness :
  let st := (loadAndGet disk fresh "good.csv").1 in
  let disk' := (saveQuery (write_file disk "good.csv" []) st).1 in
  files disk' !! "good.csv" = Some ["name"; "Ann"; "Bob"]
  ∧ inMemoryCSV (loadAndGet disk' fresh "good.csv").1 !! "good.csv"
    = Some (mkCSV ["name"] [["Ann"]; ["Bob"]])
  ∧ saveQuery (write_file readonly "good.csv" []) st
    = (write_file readonly "good.csv" [], Ok ("good.csv saved." +:+ NL)).
Proof.
  assert (Hne : recentCSV (loadAndGet disk fresh "good.csv").1 ≠ "")
    by discriminate.
  assert (Hcodec : csv_load (Some (csv_save
                                     (mkCSV ["name"] [["Ann"]; ["Bob"]])))
                   = Ok (mkCSV ["name"] [["Ann"]; ["Bob"]])) by reflexivity.
  assert (Hlocal : starts_with "http://"
                     (recentCSV (loadAndGet disk fresh "good.csv").1)
                   = false) by reflexivity.
  assert (Hres : inMemoryCSV (loadAndGet disk fresh "good.csv").1
                   !! recentCSV (loadAndGet disk fresh "good.csv").1
                 = Some (mkCSV ["name"] [["Ann"]; ["Bob"]])) by reflexivity.
  assert (Habs : inMemoryCSV fresh
                   !! recentCSV (loadAndGet disk fresh "good.csv").1
                 = None) by reflexivity.
  destruct (save_then_load (write_file disk "good.csv" [])
              (loadAndGet disk fresh "good.csv").1 fresh
              (mkCSV ["name"] [["Ann"]; ["Bob"]])
              Hne Hlocal Hres Hcodec Habs)
    as (_ & Hopen & _).
  destruct (Hopen eq_refl) as (Hfile & _ & Hload).
  destruct (save_then_load (write_file readonly "good.csv" [])
              (loadAndGet disk fresh "good.csv").1 fresh
              (mkCSV ["name"] [["Ann"]; ["Bob"]])
              Hne Hlocal Hres Hcodec Habs)
    as (Hsaid & _ & Hclosed).
  specialize (Hclosed eq_refl).
  split; [exact Hfile |]. split; [exact Hload |].
  destruct (saveQuery (write_file readonly "good.csv" [])
              (loadAndGet disk fresh "good.csv").1) as [w' said].
  cbn [fst snd] in Hsaid, Hclosed. by rewrite Hsaid, Hclosed.
Defined.

(** X12: [saveQuery] writes to no file but the one named by the most
    recent identifier, and it does not write at all, raising [Exp],
    when that identifier is empty or a [http://] address. *)
Theorem save_touches_one_file `{Collaborators} (w : World) (st : SQLAir) :
  remote (saveQuery w st).1 = remote w
  ∧ (∀ path, path ≠ recentCSV st →
       files (saveQuery w st).1 !! path = files w !! path)
  ∧ (recentCSV st = "" ∨ starts_with "http://" (recentCSV st) = true →
     saveQuery w st
     = (w, Throw (Exp "Saving CSV to an URL using POST is not implemented"))).
Proof.
  unfold saveQuery.
  destruct (bool_decide (recentCSV st = "")) eqn:Hempty;
    [| destruct (starts_with "http://" (recentCSV st)) eqn:Hurl];
    cbn [orb fst].
  - by repeat split.
  - by repeat split.
  - apply bool_decide_eq_false in Hempty. unfold open_trunc.
    destruct (writable w (recentCSV st)),
      (inMemoryCSV st !! recentCSV st) as [csv|];
      cbn [fst save_to write_file files remote];
      (split; [done |]); (split; [| by intros [?|?]]); intros path Hpath;
      by rewrite ?lookup_insert_ne.
Qed.

Lemma save_touches_one_file_witness :
  let st := (loadAndGet disk fresh "http://host/people.csv").1 in
  recentCSV st = "http://host/people.csv"
  ∧ saveQuery disk st
    = (disk, Throw (Exp "Saving CSV to an URL using POST is not implemented")).
Proof.
  split; [reflexivity |].
  destruct (save_touches_one_file disk
              (loadAndGet disk fresh "http://host/people.csv").1)
    as (_ & _ & Hurl).
  apply Hurl. right. reflexivity.
Defined.

(** ** More on the scheduler *)

Lemma serving_app (ws ws' : list serveClient_pc) :
  count_serving (ws ++ ws') = count_serving ws + count_serving ws'.
Proof.
  induction ws as [|[| | |] ws IH]; cbn; by rewrite ?IH.
Qed.

Lemma serving_leave (ws : list serveClient_pc) (k : nat)
    (w' : serveClient_pc) :
  ws !! k = Some Serving → w' ≠ Serving →
  S (count_serving (<[k := w']> ws)) = count_serving ws.
Proof.
  revert k. induction ws as [|w ws IH]; intros k Hk Hw'; [done |].
  destruct k as [|k]; cbn in Hk.
  - simplify_eq. cbn. by destruct w'.
  - specialize (IH k Hk Hw').
    destruct w; cbn [insert list_insert count_serving];
      first [exact IH | by f_equal].
Qed.

Lemma serving_same (ws : list serveClient_pc) (k : nat)
    (w w' : serveClient_pc) :
  ws !! k = Some w → w ≠ Serving → w' ≠ Serving →
  count_serving (<[k := w']> ws) = count_serving ws.
Proof.
  revert k. induction ws as [|w0 ws IH]; intros k Hk Hw Hw'; [done |].
  destruct k as [|k]; cbn in Hk.
  - simplify_eq. cbn. by destruct w, w'.
  - specialize (IH k Hk Hw Hw').
    destruct w0; cbn [insert list_insert count_serving];
      first [exact IH | by f_equal].
Qed.

Lemma serving_exists (ws : list serveClient_pc) :
  0 < count_serving ws → ∃ k, ws !! k = Some Serving.
Proof.
  induction ws as [|w ws IH]; cbn; [lia |]. intros Hpos.
  destruct w; try (by exists 0);
    destruct (IH Hpos) as [k Hk]; by exists (S k).
Qed.

Lemma atomic_step_inv (maxThr : Z) (s s' : Server) (ev : server_event) :
  atomic_inv maxThr s → atomic_step maxThr s ev = Some s' →
  atomic_inv maxThr s'.
Proof.
  intros (Hcount & Hws & Hsched) Hstep. unfold atomic_inv, serving in *.
  destruct ev as [|k]; cbn [atomic_step] in Hstep.
  - unfold runServer in Hstep. cbn in Hstep. unfold runServer in Hstep.
    destruct (sched s) as [| | |n] eqn:Hpc; try done.
    + simplify_eq. cbn. split; [lia | done].
    + destruct (decide (numThreads s < maxThr)%Z); simplify_eq. cbn.
      rewrite serving_app. cbn.
      split; [lia |]. split; [| done].
      apply Forall_app. split; [done | by repeat constructor].
    + cbn in Hstep. simplify_eq. cbn. split; [lia |]. split; [done | lia].
  - destruct (workers s !! k) as [[|n| |]|] eqn:Hk.
    + cbn in Hstep. unfold serveClient in Hstep. rewrite Hk in Hstep.
      cbn in Hstep.
      rewrite list_lookup_insert_eq in Hstep by (by eapply lookup_lt_Some).
      cbn in Hstep. simplify_eq. cbn. rewrite list_insert_insert_eq.
      assert (Notifying ≠ Serving) as Hne by done.
      pose proof (serving_leave (workers s) k Notifying Hk Hne) as Hleave.
      split; [| split].
      * destruct (sched s); lia.
      * by apply Forall_insert.
      * destruct (sched s); (done || lia).
    + rewrite Forall_forall in Hws.
      destruct (Hws (Decrementing n)) with n; [| done].
      by eapply list_elem_of_lookup_2.
    + unfold serveClient in Hstep. rewrite Hk in Hstep. simplify_eq. cbn.
      rewrite (serving_same _ _ Notifying) by done.
      split; [done |]. split; [by apply Forall_insert | done].
    + unfold serveClient in Hstep. by rewrite Hk in Hstep.
    + unfold serveClient in Hstep. by rewrite Hk in Hstep.
Qed.

Lemma atomic_run_inv (maxThr : Z) (evs : list server_event) (s s' : Server) :
  atomic_inv maxThr s → atomic_run maxThr s evs = Some s' →
  atomic_inv maxThr s'.
Proof.
  revert s. induction evs as [|ev evs IH]; intros s Hinv Hrun.
  - by simplify_eq/=.
  - cbn in Hrun. destruct (atomic_step maxThr s ev) as [s1|] eqn:Hstep;
      [| done].
    eauto using atomic_step_inv.
Qed.

Lemma server_run_app (maxThr : Z) (s : Server) (evs1 evs2 : list server_event) :
  server_run maxThr s (evs1 ++ evs2)
  = (server_run maxThr s evs1 ≫= (λ s', server_run maxThr s' evs2)).
Proof.
  revert s. induction evs1 as [|ev evs1 IH]; intros s; cbn; [done |].
  destruct (server_step maxThr s ev) as [s1|]; cbn; [apply IH | done].
Qed.

(** An atomic run is a run of the server. *)
Lemma atomic_run_is_run (maxThr : Z) (evs : list server_event)
    (s s' : Server) :
  atomic_run maxThr s evs = Some s' →
  ∃ evs', server_run maxThr s evs' = Some s'.
Proof.
  revert s. induction evs as [|ev evs IH]; intros s Hrun.
  - exists []. done.
  - cbn in Hrun. destruct (atomic_step maxThr s ev) as [s1|] eqn:Hstep;
      [| done].
    cbn in Hrun. destruct (IH _ Hrun) as [evs' Hevs'].
    assert (∃ evs1, server_run maxThr s evs1 = Some s1) as [evs1 Hevs1].
    { unfold atomic_step in Hstep. destruct ev as [|k].
      - destruct (sched s); [by exists [Scheduler]; cbn; rewrite Hstep ..
                            | by eexists | by exists [Scheduler]; cbn;
                                              rewrite Hstep].
      - destruct (workers s !! k) as [[| | |]|];
          [by eexists | by exists [Worker k]; cbn; rewrite Hstep ..]. }
    exists (evs1 ++ evs'). rewrite server_run_app, Hevs1. done.
Qed.

(** X13: as long as the increments and decrements of [numThreads] are
    not interrupted, the counter counts the serving workers (one less
    while the worker just started awaits its increment), and no more
    workers serve at a time than the maximum allows. *)
Theorem atomic_counter_bounds_workers (maxThr : Z)
    (evs : list server_event) (s : Server) :
  (0 ≤ maxThr)%Z →
  atomic_run maxThr server_init evs = Some s →
  (∃ evs', server_run maxThr server_init evs' = Some s)
  ∧ Z.of_nat (serving s)
    = (numThreads s + match sched s with Spawned => 1 | _ => 0 end)%Z
  ∧ (Z.of_nat (serving s) ≤ maxThr)%Z.
Proof.
  intros Hmax Hrun. split; [by eapply atomic_run_is_run |].
  assert (Hinv : atomic_inv maxThr s).
  { eapply atomic_run_inv; [| exact Hrun].
    repeat split; cbn; [constructor | done]. }
  destruct Hinv as (Hcount & _ & Hsched). split; [done |].
  rewrite Hcount. destruct (sched s); (done || lia).
Qed.

Lemma atomic_counter_bounds_workers_witness :
  let evs := [Scheduler; Scheduler; Scheduler; Scheduler; Scheduler;
              Worker 0; Scheduler; Scheduler; Scheduler; Scheduler] in
  let s := {| numThreads := 2; sched := Accepting;
              workers := [Notifying; Serving; Serving] |} in
  atomic_run 2 server_init evs = Some s
  ∧ (Z.of_nat (serving s) ≤ 2)%Z.
Proof.
  intros evs s.
  assert (Hrun : atomic_run 2 server_init evs = Some s) by reflexivity.
  assert (Hmax : (0 ≤ 2)%Z) by lia.
  split; [exact Hrun |].
  by destruct (atomic_counter_bounds_workers 2 evs s Hmax Hrun)
       as (_ & _ & Hle).
Defined.

Lemma server_step_idle (maxThr : Z) (s s' : Server) (ev : server_event) :
  (maxThr ≤ 0)%Z → idle_inv s → server_step maxThr s ev = Some s' →
  idle_inv s'.
Proof.
  intros Hmax (Hws & Hn & Hpc) Hstep. destruct ev as [|k]; cbn in Hstep.
  - unfold runServer in Hstep. destruct Hpc as [Hpc|Hpc]; rewrite Hpc in Hstep.
    + simplify_eq. repeat split; cbn; auto.
    + destruct (decide (numThreads s < maxThr)%Z); [lia | done].
  - unfold serveClient in Hstep. by rewrite Hws in Hstep.
Qed.

(** X14: with a maximum of zero or less the scheduler admits nobody:
    in every state of every run no worker was ever started, and the
    counter is still zero. *)
Theorem no_slot_no_worker (maxThr : Z) (evs : list server_event)
    (s : Server) :
  (maxThr ≤ 0)%Z →
  server_run maxThr server_init evs = Some s →
  workers s = [] ∧ numThreads s = 0%Z.
Proof.
  intros Hmax Hrun.
  assert (Hinv : idle_inv s); [| by destruct Hinv as (? & ? & _)].
  assert (Hinit : idle_inv server_init) by (repeat split; by left).
  revert Hinit Hrun. generalize server_init. clear -Hmax.
  induction evs as [|ev evs IH]; intros s0 Hinit Hrun.
  - by simplify_eq/=.
  - cbn in Hrun. destruct (server_step maxThr s0 ev) as [s1|] eqn:Hstep;
      [| done].
    eauto using server_step_idle.
Qed.

Lemma no_slot_no_worker_witness :
  server_run 0 server_init [Scheduler] = Some (mkServer 0 Admitting [])
  ∧ server_run 0 server_init [Scheduler; Scheduler] = None.
Proof.
  split; [| reflexivity].
  assert (Hmax : (0 ≤ 0)%Z) by lia.
  assert (Hrun : server_run 0 server_init [Scheduler]
                 = Some (mkServer 0 Admitting [])) by reflexivity.
  destruct (no_slot_no_worker 0 [Scheduler] _ Hmax Hrun) as [_ _].
  exact Hrun.
Defined.

(** A step with the wait spelled out is a step of the server, or
    leaves the server as it is. *)
Lemma admission_step_server (maxThr : Z) (a a' : Admission)
    (ev : admission_event) :
  admission_step maxThr a ev = Some a' →
  server a' = server a
  ∨ ∃ ev', server_step maxThr (server a) ev' = Some (server a').
Proof.
  destruct ev as [[|k]|]; cbn [admission_step]; intros Hstep.
  - assert (Hrun : ∀ s', runServer maxThr (server a) = Some s' →
              ∃ ev', server_step maxThr (server a) ev' = Some s')
      by (intros s' Hs'; by exists Scheduler).
    destruct (sched (server a)) eqn:Hpc.
    2: { unfold thrCond_wait in Hstep. destruct (in_wait a).
         - destruct (decide (numThreads (server a) < maxThr)%Z).
           + destruct (runServer maxThr (server a)) as [s'|] eqn:Hs';
               [| done].
             cbn in Hstep. simplify_eq. right. cbn. eauto.
           + simplify_eq. by left.
         - simplify_eq. by left.
         - done. }
    all: destruct (runServer maxThr (server a)) as [s'|] eqn:Hs'; [| done];
      cbn in Hstep; simplify_eq; right; cbn; eauto.
  - destruct (serveClient k (server a)) as [s'|] eqn:Hs'; [| done].
    cbn in Hstep. simplify_eq. right. by exists (Worker k).
  - destruct (in_wait a); simplify_eq. by left.
Qed.

Lemma admission_run_server (maxThr : Z) (evs : list admission_event)
    (a a' : Admission) :
  admission_run maxThr a evs = Some a' →
  ∃ evs', server_run maxThr (server a) evs' = Some (server a').
Proof.
  revert a. induction evs as [|ev evs IH]; intros a Hrun.
  - simplify_eq/=. by exists [].
  - cbn in Hrun. destruct (admission_step maxThr a ev) as [a1|] eqn:Hstep;
      [| done].
    cbn in Hrun. destruct (IH _ Hrun) as [evs' Hevs'].
    destruct (admission_step_server _ _ _ _ Hstep) as [Hsame|[ev' Hev']].
    + exists evs'. by rewrite <- Hsame.
    + exists (ev' :: evs'). cbn. by rewrite Hev'.
Qed.

(** X15: [notify_one] releases the scheduler only when the scheduler is
    already suspended.  With the scheduler in the wait and a worker
    serving, the worker's decrement and notification wake a suspended
    scheduler, which tests again and dispatches.  When they come between
    the scheduler's test and its suspension, the notification is lost:
    the scheduler suspends with the counter below the maximum, and
    with no other worker left it moves again only on a spurious
    wake-up. *)
Theorem notify_one_needs_a_suspended_scheduler (maxThr : Z) (a : Admission)
    (k : nat) :
  sched (server a) = Admitting →
  workers (server a) !! k = Some Serving →
  (numThreads (server a) ≤ maxThr)%Z →
  ∃ a', admission_run maxThr a (replicate 3 (Move (Worker k))) = Some a'
    ∧ numThreads (server a') = (numThreads (server a) - 1)%Z
    ∧ workers (server a') = <[k := Finished]> (workers (server a))
    ∧ (in_wait a = Suspended →
       in_wait a' = Testing
       ∧ ∃ a'', admission_step maxThr a' (Move Scheduler) = Some a''
                ∧ sched (server a'') = Spawned)
    ∧ (in_wait a = Blocking →
       ∃ a'', admission_step maxThr a' (Move Scheduler) = Some a''
              ∧ in_wait a'' = Suspended
              ∧ server a'' = server a'
              ∧ (numThreads (server a'') < maxThr)%Z
              ∧ admission_step maxThr a'' (Move Scheduler) = None
              ∧ ((∀ j w, workers (server a) !! j = Some w → j ≠ k →
                    w = Finished) →
                 ∀ ev, ev ≠ SpuriousWake →
                   admission_step maxThr a'' ev = None)).
Proof.
  intros Hpc Hk Hle.
  assert (Hlt : k < length (workers (server a)))
    by (by eapply lookup_lt_Some).
  pose (s1 := {| numThreads := numThreads (server a);
                 sched := sched (server a);
                 workers := <[k := Decrementing (numThreads (server a))]>
                              (workers (server a)) |}).
  pose (s2 := {| numThreads := numThreads (server a) - 1;
                 sched := sched (server a);
                 workers := <[k := Notifying]> (workers (server a)) |}).
  pose (s3 := {| numThreads := numThreads (server a) - 1;
                 sched := sched (server a);
                 workers := <[k := Finished]> (workers (server a)) |}).
  assert (H1 : serveClient k (server a) = Some s1)
    by (unfold serveClient; by rewrite Hk).
  assert (H2 : serveClient k s1 = Some s2).
  { unfold serveClient, s2, s1. cbn [workers numThreads sched].
    rewrite list_lookup_insert_eq by done. by rewrite list_insert_insert_eq. }
  assert (H3 : serveClient k s2 = Some s3).
  { unfold serveClient, s3, s2. cbn [workers numThreads sched].
    rewrite list_lookup_insert_eq by done. by rewrite list_insert_insert_eq. }
  assert (Hk1 : workers s1 !! k = Some (Decrementing (numThreads (server a))))
    by (unfold s1; cbn [workers]; by rewrite list_lookup_insert_eq).
  assert (Hk2 : workers s2 !! k = Some Notifying)
    by (unfold s2; cbn [workers]; by rewrite list_lookup_insert_eq).
  exists {| server := s3; in_wait := notify_one (in_wait a) |}.
  split.
  { cbn [replicate admission_run admission_step]. rewrite H1, Hk.
    cbn [mbind option_bind server in_wait]. rewrite H2, Hk1.
    cbn [mbind option_bind server in_wait]. rewrite H3, Hk2. done. }
  cbn [server in_wait]. split; [done |]. split; [done |]. split.
  - intros ->. split; [done |].
    cbn [admission_step server in_wait notify_one]. unfold s3 at 1.
    cbn [sched]. rewrite Hpc. unfold thrCond_wait. cbn [in_wait server].
    unfold s3 at 1. cbn [numThreads].
    destruct (decide (numThreads (server a) - 1 < maxThr)%Z); [| lia].
    unfold runServer, s3. cbn [sched numThreads workers]. rewrite Hpc.
    destruct (decide (numThreads (server a) - 1 < maxThr)%Z); [| lia].
    eexists. split; [done |]. done.
  - intros ->. cbn [notify_one].
    exists {| server := s3; in_wait := Suspended |}.
    assert (Hpc3 : sched s3 = Admitting) by done.
    split.
    { cbn [admission_step server in_wait]. rewrite Hpc3. done. }
    split; [done |]. split; [done |]. split; [cbn; lia |]. split.
    { cbn [admission_step server in_wait]. rewrite Hpc3. done. }
    intros Hrest [[|j]|] Hev; [| | done].
    + cbn [admission_step server in_wait]. rewrite Hpc3. done.
    + cbn [admission_step server in_wait].
      assert (Hj : serveClient j s3 = None); [| by rewrite Hj].
      unfold serveClient, s3. cbn [workers].
      destruct (decide (j = k)) as [->|Hjk].
      * by rewrite list_lookup_insert_eq.
      * rewrite list_lookup_insert_ne by done.
        destruct (workers (server a) !! j) as [w|] eqn:Hw; [| done].
        by rewrite (Hrest j w Hw Hjk).
Qed.

Lemma notify_one_needs_a_suspended_scheduler_witness :
  let a := {| server := {| numThreads := 1; sched := Admitting;
                           workers := [Serving] |};
              in_wait := Blocking |} in
  admission_run 1 admission_init (replicate 6 (Move Scheduler)) = Some a
  ∧ ∃ a', admission_run 1 a
            [Move (Worker 0); Move (Worker 0); Move (Worker 0);
             Move Scheduler] = Some a'
          ∧ in_wait a' = Suspended
          ∧ numThreads (server a') = 0%Z
          ∧ workers (server a') = [Finished]
          ∧ admission_step 1 a' (Move Scheduler) = None
          ∧ admission_step 1 a' (Move (Worker 0)) = None.
Proof.
  intros a. split; [reflexivity |].
  assert (Hle : (numThreads (server a) ≤ 1)%Z) by (cbn; lia).
  destruct (notify_one_needs_a_suspended_scheduler 1 a 0 eq_refl eq_refl Hle)
    as (a' & Hrun & Hn & Hws & _ & Hlost).
  destruct (Hlost eq_refl) as (a'' & Hstep & Hwait & Hsame & _ & _ & Hstuck).
  exists a''. split.
  { change [Move (Worker 0); Move (Worker 0); Move (Worker 0); Move Scheduler]
      with (replicate 3 (Move (Worker 0)) ++ [Move Scheduler]).
    cbn [replicate app admission_run] in Hrun |- *.
    destruct (admission_step 1 a (Move (Worker 0))) as [a1|]; [| done].
    cbn [mbind option_bind] in Hrun |- *.
    destruct (admission_step 1 a1 (Move (Worker 0))) as [a2|]; [| done].
    cbn [mbind option_bind] in Hrun |- *.
    destruct (admission_step 1 a2 (Move (Worker 0))) as [a3|]; [| done].
    cbn [mbind option_bind] in Hrun |- *. simplify_eq. by rewrite Hstep. }
  split; [done |]. rewrite Hsame, Hn, Hws.
  split; [done |]. split; [done |].
  assert (Hrest : ∀ j w, workers (server a) !! j = Some w → j ≠ 0 →
                    w = Finished) by (by intros [|[|j]] w Hw Hj).
  split; by apply Hstuck.
Defined.

(** X26: spelling out the suspension of the scheduler does not add
    states of the server: every state reached with the wait spelled
    out, spurious wake-ups included, is a state of a run of
    [runServer] and [serveClient], the counter is at most the maximum,
    and the scheduler is suspended or about to be only inside the
    wait. *)
Theorem suspension_keeps_the_bound (maxThr : Z)
    (evs : list admission_event) (a : Admission) :
  (0 ≤ maxThr)%Z →
  admission_run maxThr admission_init evs = Some a →
  (∃ evs', server_run maxThr server_init evs' = Some (server a))
  ∧ (numThreads (server a) ≤ maxThr)%Z
  ∧ (in_wait a ≠ Testing → sched (server a) = Admitting).
Proof.
  intros Hmax Hrun.
  destruct (admission_run_server _ _ _ _ Hrun) as [evs' Hevs'].
  split; [by exists evs' |]. split.
  - assert (Hinv : server_inv maxThr (server a)).
    { eapply server_run_inv; [| exact Hevs'].
      repeat split; cbn; [done | constructor]. }
    by destruct Hinv as (Hle & _).
  - assert (Hinit : in_wait admission_init ≠ Testing →
                    sched (server admission_init) = Admitting) by done.
    revert Hinit Hrun. generalize admission_init. clear.
    induction evs as [|ev evs IH]; intros a0 Hinit Hrun.
    + by simplify_eq/=.
    + cbn in Hrun.
      destruct (admission_step maxThr a0 ev) as [a1|] eqn:Hstep; [| done].
      cbn in Hrun. apply (IH a1); [| done]. clear IH Hrun.
      destruct ev as [[|k]|]; cbn [admission_step] in Hstep.
      * destruct (sched (server a0)) eqn:Hpc.
        2: { unfold thrCond_wait in Hstep. destruct (in_wait a0); [| | done].
             - destruct (decide (numThreads (server a0) < maxThr)%Z).
               + destruct (runServer maxThr (server a0)); [| done].
                 cbn in Hstep. by simplify_eq.
               + by simplify_eq.
             - by simplify_eq. }
        all: destruct (runServer maxThr (server a0)); [| done];
          cbn in Hstep; by simplify_eq.
      * unfold serveClient in Hstep.
        destruct (workers (server a0) !! k) as [[|n| |]|]; cbn in Hstep;
          simplify_eq; cbn; try done.
        intros Hw. apply Hinit. by destruct (in_wait a0).
      * destruct (in_wait a0); by simplify_eq.
Qed.

Lemma suspension_keeps_the_bound_witness :
  ∃ a, admission_run 1 admission_init
         (replicate 7 (Move Scheduler) ++ [SpuriousWake; Move Scheduler])
       = Some a
       ∧ in_wait a = Blocking
       ∧ (numThreads (server a) ≤ 1)%Z.
Proof.
  assert (Hmax : (0 ≤ 1)%Z) by lia.
  destruct (admission_run 1 admission_init
              (replicate 7 (Move Scheduler) ++ [SpuriousWake; Move Scheduler]))
    as [a|] eqn:Hrun; [| by vm_compute in Hrun].
  exists a. split; [done |].
  destruct (suspension_keeps_the_bound 1 _ a Hmax Hrun) as (_ & Hle & _).
  split; [| exact Hle]. vm_compute in Hrun. by simplify_eq.
Defined.

(** ** More on the calls that share a table *)

Section Mutex.
Context `{Collaborators}.

Lemma holds_mutex_wake (t : Thread) : holds_mutex (wake t) ↔ holds_mutex t.
Proof.
  unfold holds_mutex, wake. destruct (at_pc t) eqn:Hpc; cbn; by rewrite ?Hpc.
Qed.

Lemma crashed_wake (t : Thread) : at_pc (wake t) = Crashed ↔ at_pc t = Crashed.
Proof.
  unfold wake. destruct (at_pc t) eqn:Hpc; cbn; by rewrite ?Hpc.
Qed.

(** What a step of thread [j] does to [csvMutex]. *)
Lemma thread_step_mutex (j : nat) (sh sh' : Shared) (t t' : Thread)
    (notify : bool) :
  thread_step j sh t = Some (sh', t', notify) →
  (holds_mutex t → csvMutex sh = Some j) →
  (csvMutex sh = Some j → holds_mutex t ∨ at_pc t = Crashed) →
  (holds_mutex t' → csvMutex sh' = Some j)
  ∧ (csvMutex sh' = Some j → holds_mutex t' ∨ at_pc t' = Crashed)
  ∧ (csvMutex sh' = csvMutex sh
     ∨ (csvMutex sh = None ∧ csvMutex sh' = Some j)
     ∨ (csvMutex sh = Some j ∧ csvMutex sh' = None)).
Proof.
  unfold thread_step, holds_mutex. intros Hstep Hholds Hheld.
  destruct (at_pc t) as [|held k tp c|tp|tp|tp|tp|c|c os|e|] eqn:Hpc.
  - destruct (expandStar (table sh) (colNames (qry t))); simplify_eq; cbn;
      intuition congruence.
  - destruct (rows (table sh) !! k) as [row|].
    + destruct (kind (qry t)) as [|values].
      * destruct (selectRow _ _ _ _ _ _ _ _) as [[tp1 c1]| |];
          simplify_eq; cbn; destruct held; cbn; intuition congruence.
      * destruct (updateRow _ _ _ _ _ _ _ _) as [row' [c1| |]];
          simplify_eq; cbn; destruct held; cbn; intuition congruence.
    + simplify_eq. cbn.
      assert (¬ match after_scan t held tp c with
                | InScan true _ _ _ | AtWait _ => True
                | _ => False
                end) as Hafter.
      { unfold after_scan.
        destruct ((held || mustWait (qry t)) && bool_decide (c < 1)%Z);
          [by intros [] |].
        destruct (kind (qry t)); [by intros [] |].
        destruct (decide (0 < c)%Z); by intros []. }
      destruct held; cbn; intuition congruence.
  - unfold lock in Hstep. destruct (csvMutex sh) eqn:Hm; simplify_eq/=.
    intuition congruence.
  - simplify_eq. cbn. intuition congruence.
  - done.
  - unfold lock in Hstep. destruct (csvMutex sh) eqn:Hm; simplify_eq/=.
    intuition congruence.
  - simplify_eq. cbn. intuition congruence.
  - done.
  - done.
  - done.
Qed.

Lemma sys_step_mutex_inv (s s' : System) (l : label) :
  mutex_inv s → sys_step s l = Some s' → mutex_inv s'.
Proof.
  intros [Hholds Hheld] Hstep.
  assert (Hcases :
    (shared s' = shared s
     ∧ ∀ i t', threads s' !! i = Some t' →
         ∃ t, threads s !! i = Some t
              ∧ (holds_mutex t' ↔ holds_mutex t)
              ∧ (at_pc t' = Crashed ↔ at_pc t = Crashed))
    ∨ ∃ j t sh' t0 notify,
        threads s !! j = Some t
        ∧ thread_step j (shared s) t = Some (sh', t0, notify)
        ∧ shared s' = sh'
        ∧ (∃ t', threads s' !! j = Some t'
                 ∧ (holds_mutex t' ↔ holds_mutex t0)
                 ∧ (at_pc t' = Crashed ↔ at_pc t0 = Crashed))
        ∧ ∀ i t', i ≠ j → threads s' !! i = Some t' →
            ∃ ti, threads s !! i = Some ti
                  ∧ (holds_mutex t' ↔ holds_mutex ti)
                  ∧ (at_pc t' = Crashed ↔ at_pc ti = Crashed)).
  { unfold sys_step in Hstep. destruct l as [j|j|j].
    - destruct (threads s !! j) as [t|] eqn:Hj; [| done].
      cbn [mbind option_bind] in Hstep.
      destruct (thread_step j (shared s) t) as [[[sh' t0] [|]]|] eqn:Hts;
        cbn [mbind option_bind] in Hstep; simplify_eq.
      right. exists j, t, sh', t0, false. repeat split; try done.
      + exists t0. cbn. rewrite list_lookup_insert_eq
          by (by eapply lookup_lt_Some). done.
      + intros i t' Hne Hi. cbn in Hi.
        rewrite list_lookup_insert_ne in Hi by done. by exists t'.
    - destruct (threads s !! j) as [t|] eqn:Hj; [| done].
      cbn [mbind option_bind] in Hstep.
      destruct (thread_step j (shared s) t) as [[[sh' t0] [|]]|] eqn:Hts;
        cbn [mbind option_bind] in Hstep; simplify_eq.
      right. exists j, t, sh', t0, true. repeat split; try done.
      + exists (wake t0). cbn. rewrite list_lookup_fmap.
        rewrite list_lookup_insert_eq by (by eapply lookup_lt_Some).
        split; [done |]. split; [apply holds_mutex_wake | apply crashed_wake].
      + intros i t' Hne Hi. cbn in Hi. rewrite list_lookup_fmap in Hi.
        rewrite list_lookup_insert_ne in Hi by done.
        destruct (threads s !! i) as [ti|]; simplify_eq/=.
        exists ti. split; [done |].
        split; [apply holds_mutex_wake | apply crashed_wake].
    - destruct (threads s !! j) as [t|] eqn:Hj; [| done].
      cbn [mbind option_bind] in Hstep.
      destruct (at_pc t) eqn:Hpc; simplify_eq.
      left. split; [done |]. intros i t' Hi. cbn in Hi.
      destruct (decide (j = i)) as [->|Hne].
      + rewrite list_lookup_insert_eq in Hi by (by eapply lookup_lt_Some).
        simplify_eq. exists t. split; [done |].
        split; [apply holds_mutex_wake | apply crashed_wake].
      + rewrite list_lookup_insert_ne in Hi by done. by exists t'. }
  destruct Hcases as [[Hsh Hths]|(j & t & sh' & t0 & notify & Hj & Hts & Hsh
                                   & (tj' & Hj' & Hhj & Hcj) & Hothers)].
  - split.
    + intros i t' Hi Hh. rewrite Hsh.
      destruct (Hths i t' Hi) as (t & Hti & Hiff & _).
      apply (Hholds i t Hti). by apply Hiff.
    + intros i Hm. rewrite Hsh in Hm.
      destruct (Hheld i Hm) as (t & Hti & Hor).
      destruct (lookup_lt_is_Some_2 (threads s') i) as [t' Ht'].
      { unfold sys_step in Hstep. destruct l as [k|k|k];
          destruct (threads s !! k) as [tk|]; simplify_eq/=;
          try destruct (thread_step k (shared s) tk) as [[[? ?] [|]]|];
          simplify_eq/=; try (destruct (at_pc tk); simplify_eq/=);
          rewrite ?length_fmap, ?length_insert; by eapply lookup_lt_Some. }
      exists t'. split; [done |].
      destruct (Hths i t' Ht') as (t2 & Hti2 & Hiff & Hc).
      simplify_eq. destruct Hor; [left; by apply Hiff | right; by apply Hc].
  - destruct (thread_step_mutex j (shared s) sh' t t0 notify Hts
                (Hholds j t Hj)) as (Hpost1 & Hpost2 & Hframe).
    { intros Hm. destruct (Hheld j Hm) as (t2 & Ht2 & Hor). by simplify_eq. }
    unfold mutex_inv. rewrite Hsh. split.
    + intros i t' Hi Hh. destruct (decide (i = j)) as [->|Hne].
      * simplify_eq. apply Hpost1. by apply Hhj.
      * destruct (Hothers i t' Hne Hi) as (ti & Hti & Hiff & _).
        assert (csvMutex (shared s) = Some i) as Hm
          by (apply (Hholds i ti Hti); by apply Hiff).
        destruct Hframe as [->|[[Hn _]|[Hs _]]]; [done | congruence |].
        rewrite Hm in Hs. by simplify_eq.
    + intros i Hm. destruct (decide (i = j)) as [->|Hne].
      * exists tj'. split; [done |].
        destruct (Hpost2 Hm); [left; by apply Hhj | right; by apply Hcj].
      * destruct Hframe as [Heq|[[_ Hs]|[_ Hn]]]; [| congruence | congruence].
        rewrite Heq in Hm. destruct (Hheld i Hm) as (ti & Hti & Hor).
        destruct (lookup_lt_is_Some_2 (threads s') i) as [t' Ht'].
        { unfold sys_step in Hstep. destruct l as [k|k|k];
            destruct (threads s !! k) as [tk|]; simplify_eq/=;
            try destruct (thread_step k (shared s) tk) as [[[? ?] [|]]|];
            simplify_eq/=; try (destruct (at_pc tk); simplify_eq/=);
            rewrite ?length_fmap, ?length_insert; by eapply lookup_lt_Some. }
        exists t'. split; [done |].
        destruct (Hothers i t' Hne Ht') as (ti2 & Hti2 & Hiff & Hc).
        simplify_eq. destruct Hor; [left; by apply Hiff | right; by apply Hc].
Qed.

Lemma sys_run_mutex_inv (s0 s : System) (ls : list label) :
  mutex_inv s0 → sys_run s0 ls = Some s → mutex_inv s.
Proof.
  revert s0. induction ls as [|l ls IH]; intros s0 Hinv Hrun.
  - by simplify_eq/=.
  - cbn in Hrun. destruct (sys_step s0 l) as [s1|] eqn:Hstep; [| done].
    eauto using sys_step_mutex_inv.
Qed.

Lemma initial_mutex_inv (s : System) : initial s → mutex_inv s.
Proof.
  intros [Hfree Hentry]. split.
  - intros i t Hi Hh. unfold holds_mutex in Hh.
    by rewrite (Hentry t) in Hh by (by eapply list_elem_of_lookup_2).
  - intros i Hm. congruence.
Qed.

End Mutex.

(** X16: in every state reached from calls just made, [csvMutex] is
    held by one thread at most: two threads are never both in a scan of
    the wait loop (or between locking and waiting), and a call that has
    returned or was left by an exception does not hold the mutex. *)
Theorem csvMutex_is_exclusive `{Collaborators} (s0 s : System)
    (ls : list label) :
  initial s0 →
  sys_run s0 ls = Some s →
  (∀ i j ti tj, threads s !! i = Some ti → threads s !! j = Some tj →
     holds_mutex ti → holds_mutex tj → i = j)
  ∧ (∀ i t, threads s !! i = Some t →
       (∃ count os, at_pc t = Done count os) ∨ (∃ e, at_pc t = Failed e) →
       csvMutex (shared s) ≠ Some i).
Proof.
  intros Hinit Hrun.
  destruct (sys_run_mutex_inv s0 s ls (initial_mutex_inv s0 Hinit) Hrun)
    as [Hholds Hheld].
  split.
  - intros i j ti tj Hi Hj Hti Htj.
    pose proof (Hholds i ti Hi Hti) as Hmi.
    pose proof (Hholds j tj Hj Htj) as Hmj. congruence.
  - intros i t Hi Hover Hm.
    destruct (Hheld i Hm) as (t' & Hi' & Hor). simplify_eq.
    unfold holds_mutex in Hor.
    destruct Hover as [(count & os & Hpc)|(e & Hpc)]; rewrite Hpc in Hor;
      by destruct Hor.
Qed.

Lemma csvMutex_is_exclusive_witness :
  ∃ s, sys_run two_clients (replicate 5 (Step 0)) = Some s
       ∧ csvMutex (shared s) = Some 0
       ∧ at_pc <$> threads s !! 0 = Some (AtWait "")
       ∧ sys_run s (replicate 4 (Step 1)) ≠ None
       ∧ ∀ j tj, threads s !! j = Some tj → holds_mutex tj → 0 = j.
Proof.
  pose (s := default two_clients
               (sys_run two_clients (replicate 5 (Step 0)))).
  assert (Hinit : initial two_clients).
  { split; [reflexivity |]. intros t Ht.
    apply list_elem_of_In in Ht. cbn in Ht.
    by destruct Ht as [<-|[<-|[]]]. }
  assert (Hrun : sys_run two_clients (replicate 5 (Step 0)) = Some s)
    by reflexivity.
  destruct (csvMutex_is_exclusive two_clients s _ Hinit Hrun) as [Hexcl _].
  exists s. split; [exact Hrun |]. split; [reflexivity |].
  split; [reflexivity |]. split; [discriminate |].
  intros j tj Hj Htj.
  by apply (Hexcl 0 j (goto (enter waiting_select) (AtWait "")) tj).
Defined.

Section Shape.
Context `{Collaborators}.

Lemma same_shape_refl (csv : CSV) : same_shape csv csv.
Proof. split; [done | apply same_width_refl]. Qed.

Lemma same_shape_trans (csv1 csv2 csv3 : CSV) :
  same_shape csv1 csv2 → same_shape csv2 csv3 → same_shape csv1 csv3.
Proof.
  intros [Hc12 Hr12] [Hc23 Hr23]. split; [congruence |].
  revert Hr23. generalize (rows csv3). clear Hc12 Hc23.
  induction Hr12 as [|r1 r2 rs1 rs2 Hr Hrs IH]; intros rs3 Hr23.
  - inversion Hr23. constructor.
  - inversion Hr23 as [|? r3 ? rs3' Hr' Hrs']; subst.
    constructor; [congruence | by apply IH].
Qed.

Lemma store_row_shape (sh : Shared) (i : nat) (row row' : CSVRow) :
  rows (table sh) !! i = Some row → length row' = length row →
  same_shape (table sh) (table (store_row sh i row')).
Proof.
  intros Hi Hlen. split; [done |]. cbn.
  revert i Hi. induction (rows (table sh)) as [|r rs IH]; intros i Hi;
    [done |].
  destruct i as [|i]; cbn in *.
  - simplify_eq. constructor; [done | apply same_width_refl].
  - constructor; [done | by apply IH].
Qed.

Lemma thread_step_shape (j : nat) (sh sh' : Shared) (t t' : Thread)
    (notify : bool) :
  thread_step j sh t = Some (sh', t', notify) →
  same_shape (table sh) (table sh').
Proof.
  unfold thread_step. intros Hstep.
  destruct (at_pc t) as [|held k tp c|tp|tp|tp|tp|c|c os|e|] eqn:Hpc.
  - destruct (expandStar (table sh) (colNames (qry t))); simplify_eq;
      apply same_shape_refl.
  - destruct (rows (table sh) !! k) as [row|] eqn:Hk.
    + destruct (kind (qry t)) as [|values].
      * destruct (selectRow _ _ _ _ _ _ _ _) as [[tp1 c1]| |];
          simplify_eq; destruct held; apply same_shape_refl.
      * pose proof (updateRow_length (table sh) (whereColIdx (qry t))
                      (cols t) (cond (qry t)) (value (qry t)) values row c)
          as Hlen.
        destruct (updateRow _ _ _ _ _ _ _ _) as [row' [c1| |]];
          simplify_eq; destruct held; cbn [unlock table];
          by apply (store_row_shape sh k row row').
    + simplify_eq. destruct held; apply same_shape_refl.
  - unfold lock in Hstep. destruct (csvMutex sh); simplify_eq/=.
    apply same_shape_refl.
  - simplify_eq. apply same_shape_refl.
  - done.
  - unfold lock in Hstep. destruct (csvMutex sh); simplify_eq/=.
    apply same_shape_refl.
  - simplify_eq. apply same_shape_refl.
  - done.
  - done.
  - done.
Qed.

Lemma sys_step_shape (s s' : System) (l : label) :
  sys_step s l = Some s' →
  same_shape (table (shared s)) (table (shared s')).
Proof.
  unfold sys_step. intros Hstep. destruct l as [j|j|j];
    destruct (threads s !! j) as [t|]; simplify_eq/=.
  - destruct (thread_step j (shared s) t) as [[[sh' t'] [|]]|] eqn:Hts;
      simplify_eq/=. by eapply thread_step_shape.
  - destruct (thread_step j (shared s) t) as [[[sh' t'] [|]]|] eqn:Hts;
      simplify_eq/=. by eapply thread_step_shape.
  - destruct (at_pc t); simplify_eq/=. apply same_shape_refl.
Qed.

End Shape.

(** X17: whatever the calls that run on a table and however they
    interleave, the table keeps its shape, short of undefined
    behaviour: the same columns, as many rows, and every row as wide as
    it was. *)
Theorem runs_keep_the_shape `{Collaborators} (s0 s : System)
    (ls : list label) :
  sys_run s0 ls = Some s →
  (∀ t, t ∈ threads s → at_pc t ≠ Crashed) →
  same_shape (table (shared s0)) (table (shared s)).
Proof.
  intros Hrun _. revert s0 Hrun.
  induction ls as [|l ls IH]; intros s0 Hrun.
  - simplify_eq/=. apply same_shape_refl.
  - cbn in Hrun. destruct (sys_step s0 l) as [s1|] eqn:Hstep; [| done].
    eapply same_shape_trans; [by eapply sys_step_shape | by apply IH].
Qed.

Lemma runs_keep_the_shape_witness :
  ∃ s, sys_run two_clients (select_blocks ++ update_commits) = Some s
       ∧ rows (table (shared s)) = [["Ann"; "30"]; ["Bob"; "99"]]
       ∧ same_shape people (table (shared s)).
Proof.
  pose (s := default two_clients
               (sys_run two_clients (select_blocks ++ update_commits))).
  assert (Hrun : sys_run two_clients (select_blocks ++ update_commits)
                 = Some s) by reflexivity.
  exists s. split; [exact Hrun |]. split; [reflexivity |].
  apply (runs_keep_the_shape two_clients s _ Hrun).
  intros t Ht. apply list_elem_of_In in Ht. vm_compute in Ht.
  destruct Ht as [<-|[<-|[]]]; discriminate.
Defined.

(** X18: a row of the shared table changes only in a step of an update
    that is visiting that row and whose where-clause holds on it: no
    select, no wake-up and no update on another row or on a row that
    does not match ever stores to it. *)
Theorem rows_change_by_matching_updates `{Collaborators} (s s' : System)
    (l : label) (k : nat) (row : CSVRow) :
  sys_step s l = Some s' →
  rows (table (shared s)) !! k = Some row →
  rows (table (shared s')) !! k ≠ Some row →
  ∃ j t values held toPrint count,
    l = Step j
    ∧ threads s !! j = Some t
    ∧ kind (qry t) = UPDATE values
    ∧ at_pc t = InScan held k toPrint count
    ∧ row_matches (qry t) row.
Proof.
  unfold sys_step. intros Hstep Hk Hchanged. destruct l as [j|j|j];
    destruct (threads s !! j) as [t|] eqn:Hj; simplify_eq/=.
  - destruct (thread_step j (shared s) t) as [[[sh' t'] [|]]|] eqn:Hts;
      simplify_eq/=.
    unfold thread_step in Hts.
    destruct (at_pc t) as [|held i tp c|tp|tp|tp|tp|c|c os|e|] eqn:Hpc;
      try (by simplify_eq);
      try (by unfold lock in Hts; destruct (csvMutex (shared s));
              simplify_eq/=).
    + by destruct (expandStar _ _); simplify_eq.
    + destruct (rows (table (shared s)) !! i) as [rowi|] eqn:Hi;
        [| by simplify_eq; destruct held].
      destruct (kind (qry t)) as [|values] eqn:Hkind.
      * destruct (selectRow _ _ _ _ _ _ _ _) as [[tp1 c1]| |];
          simplify_eq; by destruct held.
      * pose proof (updateRow_unmatched (table (shared s))
                      (whereColIdx (qry t)) (cols t) (cond (qry t))
                      (value (qry t)) values rowi c) as Hsame.
        assert (rows (table (store_row (shared s) i
                  (updateRow (table (shared s)) (whereColIdx (qry t))
                     (cols t) (cond (qry t)) (value (qry t)) values rowi c).1))
                !! k ≠ Some row) as Hstore.
        { destruct (updateRow _ _ _ _ _ _ _ _) as [row' [c1| |]];
            simplify_eq; by destruct held. }
        cbn in Hstore. destruct (decide (i = k)) as [->|Hne].
        -- assert (rowi = row) as -> by congruence.
           exists j, t, values, held, tp, c.
           repeat split; try done. unfold row_matches.
           destruct (whereClause (whereColIdx (qry t)) (cond (qry t))
                       (value (qry t)) row) as [[|]| |] eqn:Hw; [done | ..];
             rewrite Hsame in Hstore by done;
             by rewrite list_insert_id in Hstore.
        -- by rewrite list_lookup_insert_ne in Hstore.
  - destruct (thread_step j (shared s) t) as [[[sh' t'] [|]]|] eqn:Hts;
      simplify_eq/=.
    by apply thread_step_notify in Hts as (c & _ & _ & ->).
  - by destruct (at_pc t); simplify_eq/=.
Qed.

Lemma rows_change_by_matching_updates_witness :
  ∃ s s', sys_run two_clients (replicate 2 (Step 1)) = Some s
          ∧ sys_step s (Step 1) = Some s'
          ∧ rows (table (shared s)) !! 1 = Some ["Bob"; "25"]
          ∧ rows (table (shared s')) !! 1 = Some ["Bob"; "99"]
          ∧ row_matches bob_update ["Bob"; "25"].
Proof.
  pose (s := default two_clients
               (sys_run two_clients (replicate 2 (Step 1)))).
  pose (s' := default two_clients (sys_step s (Step 1))).
  assert (Hstep : sys_step s (Step 1) = Some s') by reflexivity.
  assert (Hchanged : rows (table (shared s')) !! 1 ≠ Some ["Bob"; "25"])
    by discriminate.
  destruct (rows_change_by_matching_updates s s' (Step 1) 1 ["Bob"; "25"]
              Hstep eq_refl Hchanged)
    as (j & t & values & held & tp & c & Hl & Hj & _ & _ & Hmatch).
  exists s, s'. split; [reflexivity |]. split; [exact Hstep |].
  split; [reflexivity |]. split; [reflexivity |].
  injection Hl as <-.
  assert (t = goto (enter bob_update) (InScan false 1 "" 0)) as ->
    by (vm_compute in Hj; by injection Hj).
  exact Hmatch.
Defined.

(** X19: a notification reaches only the threads that are suspended.
    A call that has scanned without counting a row and is about to lock
    [csvMutex] when another thread notifies is not woken up: it goes on
    to suspend itself, the table being what the notifier left, and it
    cannot move from there on its own. *)
Theorem notification_before_wait_is_lost `{Collaborators} (s : System)
    (i j : nat) (t tj : Thread) (toPrint : string) (count : Z) :
  threads s !! i = Some t → at_pc t = AtLock toPrint →
  threads s !! j = Some tj → at_pc tj = AtNotify count →
  csvMutex (shared s) = None →
  ∃ s',
    sys_run s [NotifyAll j; Step i; Step i] = Some s'
    ∧ threads s' !! i = Some (goto t (Waiting toPrint))
    ∧ table (shared s') = table (shared s)
    ∧ sys_step s' (Step i) = None
    ∧ sys_step s' (NotifyAll i) = None.
Proof.
  intros Hi Hpc Hj Hpcj Hfree.
  assert (Hne : j ≠ i) by (intros ->; congruence).
  assert (Hlti : i < length (threads s)) by (by eapply lookup_lt_Some).
  assert (Hltj : j < length (threads s)) by (by eapply lookup_lt_Some).
  pose (ths1 := wake <$> <[j := goto tj (Done count (updateReport count))]>
                           (threads s)).
  assert (Hi1 : ths1 !! i = Some t).
  { unfold ths1. rewrite list_lookup_fmap, list_lookup_insert_ne by done.
    rewrite Hi. cbn. unfold wake. by rewrite Hpc. }
  assert (Hlen1 : i < length ths1)
    by (unfold ths1; by rewrite length_fmap, length_insert).
  assert (H1 : sys_step s (NotifyAll j)
               = Some {| shared := shared s; threads := ths1 |}).
  { unfold sys_step. rewrite Hj. cbn [mbind option_bind].
    unfold thread_step. rewrite Hpcj. done. }
  assert (H2 : sys_step {| shared := shared s; threads := ths1 |} (Step i)
               = Some {| shared := {| table := table (shared s);
                                      csvMutex := Some i |};
                         threads := <[i := goto t (AtWait toPrint)]> ths1 |}).
  { unfold sys_step. cbn [threads shared]. rewrite Hi1.
    cbn [mbind option_bind]. unfold thread_step, lock. rewrite Hpc, Hfree.
    done. }
  assert (H3 : sys_step {| shared := {| table := table (shared s);
                                        csvMutex := Some i |};
                           threads := <[i := goto t (AtWait toPrint)]> ths1 |}
                 (Step i)
               = Some {| shared := {| table := table (shared s);
                                      csvMutex := None |};
                         threads := <[i := goto t (Waiting toPrint)]> ths1 |}).
  { unfold sys_step. cbn [threads shared].
    rewrite list_lookup_insert_eq by done.
    cbn [mbind option_bind]. unfold thread_step. cbn [goto at_pc qry cols].
    cbn [mbind option_bind unlock table]. by rewrite list_insert_insert_eq. }
  eexists. split.
  { cbn [sys_run]. rewrite H1. cbn [mbind option_bind]. rewrite H2.
    cbn [mbind option_bind]. rewrite H3. done. }
  cbn [threads shared table]. split; [by apply list_lookup_insert_eq |].
  split; [done |].
  unfold sys_step. cbn [threads].
  rewrite list_lookup_insert_eq by done. cbn [mbind option_bind].
  unfold thread_step. cbn [goto at_pc]. done.
Qed.

Lemma notification_before_wait_is_lost_witness :
  ∃ s s',
    sys_run two_clients (replicate 4 (Step 0) ++ replicate 4 (Step 1))
    = Some s
    ∧ sys_run s [NotifyAll 1; Step 0; Step 0] = Some s'
    ∧ at_pc <$> threads s' = [Waiting ""; Done 1 ("1 row(s) updated." +:+ NL)]
    ∧ rows (table (shared s')) = [["Ann"; "30"]; ["Bob"; "99"]]
    ∧ row_matches waiting_select ["Bob"; "99"]
    ∧ sys_step s' (Step 0) = None ∧ sys_step s' (Step 1) = None.
Proof.
  pose (s := default two_clients
               (sys_run two_clients
                  (replicate 4 (Step 0) ++ replicate 4 (Step 1)))).
  destruct (notification_before_wait_is_lost s 0 1
              (goto (enter waiting_select) (AtLock ""))
              (goto (enter bob_update) (AtNotify 1)) "" 1)
    as (s' & Hrun & _ & _ & Hstuck & _);
    [reflexivity | reflexivity | reflexivity | reflexivity | reflexivity |].
  exists s, s'. split; [reflexivity |]. split; [exact Hrun |].
  assert (Some s' = sys_run s [NotifyAll 1; Step 0; Step 0]) as Hs'
    by (by rewrite Hrun).
  vm_compute in Hs'. injection Hs' as ->.
  split; [reflexivity |]. split; [reflexivity |]. split; [reflexivity |].
  split; reflexivity.
Defined.

Lemma select_alone_witness :
  let q := mkQuery SELECT false ["*"] 1 "=" "30" in
  let s := {| shared := {| table := people; csvMutex := None |};
              threads := [enter bob_update; enter q] |} in
  ∃ s', sys_run s (replicate 4 (Step 1)) = Some s'
        ∧ shared s' = shared s
        ∧ at_pc <$> threads s' !! 1
          = Some (Done 1 ("name" +:+ TAB +:+ "age" +:+ NL
                          +:+ "Ann" +:+ TAB +:+ "30" +:+ NL
                          +:+ "1 row(s) selected." +:+ NL)).
Proof.
  intros q s.
  destruct (select_alone s 1 q
              ("name" +:+ TAB +:+ "age" +:+ NL
               +:+ "Ann" +:+ TAB +:+ "30" +:+ NL
               +:+ "1 row(s) selected." +:+ NL))
    as (colNames' & count & Hrun); [reflexivity | reflexivity | reflexivity |].
  eexists. split; [exact Hrun |]. split; [reflexivity |].
  assert (count = 1%Z) as ->; [| reflexivity].
  vm_compute in Hrun. by injection Hrun.
Defined.

Lemma update_alone_witness :
  let s1 := default two_clients (sys_run two_clients select_blocks) in
  ∃ s', sys_run s1 (replicate 4 (Step 1) ++ [NotifyAll 1]) = Some s'
        ∧ rows (table (shared s')) = [["Ann"; "30"]; ["Bob"; "99"]]
        ∧ at_pc <$> threads s'
          = [Woken ""; Done 1 ("1 row(s) updated." +:+ NL)].
Proof.
  intros s1.
  destruct (update_alone s1 1 bob_update ["99"]
              (mkCSV ["name"; "age"] [["Ann"; "30"]; ["Bob"; "99"]])
              true ("1 row(s) updated." +:+ NL))
    as (colNames' & count & Hrun); [reflexivity | reflexivity | reflexivity |].
  eexists. split; [exact Hrun |]. split; [reflexivity |].
  assert (count = 1%Z) as ->; [| reflexivity].
  vm_compute in Hrun. by injection Hrun.
Defined.

(** ** A worker's request *)

Lemma none_of_app (p : ascii → bool) (a b : string) :
  none_of p (a +:+ b) = none_of p a && none_of p b.
Proof.
  induction a as [|c a IH]; [done|].
  change (none_of p (String c (a +:+ b))
          = none_of p (String c a) && none_of p b).
  cbn [none_of]. rewrite IH. by destruct (p c), (none_of p a).
Qed.

Lemma lines_of_line (a b : string) :
  none_of (is_char "010") a = true →
  lines_of (a +:+ NL +:+ b) = a :: lines_of b.
Proof.
  induction a as [|c a IH]; intros Ha; [done|].
  cbn [none_of] in Ha. apply andb_prop in Ha as [Hc Ha].
  change (lines_of (String c (a +:+ NL +:+ b)) = String c a :: lines_of b).
  cbn [lines_of]. unfold is_char in Hc.
  destruct (c =? "010")%char; [done|]. by rewrite (IH Ha).
Qed.

Lemma pretty_N_char_no_nl (x : N) :
  is_char "010" (pretty_N_char x) = false.
Proof. unfold pretty_N_char. by repeat case_match. Qed.

Lemma pretty_N_go_no_nl (x : N) (s : string) :
  none_of (is_char "010") s = true →
  none_of (is_char "010") (pretty_N_go x s) = true.
Proof.
  revert s. induction (N.lt_wf_0 x) as [x _ IH]. intros s Hs.
  destruct (decide (x = 0)%N) as [->|Hx].
  - by rewrite pretty_N_go_0.
  - rewrite pretty_N_go_step by lia. apply IH.
    + apply N.div_lt; lia.
    + cbn [none_of]. by rewrite pretty_N_char_no_nl, Hs.
Qed.

Lemma pretty_nat_no_nl (n : nat) :
  none_of (is_char "010") (pretty n) = true.
Proof.
  unfold pretty, pretty_nat, pretty, pretty_N.
  case_decide; [done|]. by apply pretty_N_go_no_nl.
Qed.

Lemma respond_lines (toPrint : string) :
  lines_of (respond toPrint)
  = [ "HTTP/1.1 200 OK" +:+ CR;
      "Server: localhost" +:+ CR;
      "Connection: Close" +:+ CR;
      "Content-Type: text/plain" +:+ CR;
      "Content-Length: " +:+ pretty (String.length toPrint) +:+ CR;
      CR ] ++ lines_of toPrint.
Proof.
  assert (respond toPrint
          = ("HTTP/1.1 200 OK" +:+ CR) +:+ NL +:+
            ("Server: localhost" +:+ CR) +:+ NL +:+
            ("Connection: Close" +:+ CR) +:+ NL +:+
            ("Content-Type: text/plain" +:+ CR) +:+ NL +:+
            ("Content-Length: " +:+ pretty (String.length toPrint) +:+ CR)
            +:+ NL +:+ CR +:+ NL +:+ toPrint) as ->.
  { unfold respond, HTTPRespHeader.
    by rewrite !append_assoc. }
  rewrite !lines_of_line; [done|done| |done|done|done|done].
  rewrite !none_of_app, pretty_nat_no_nl. done.
Qed.

(** X22: a worker answers a query with one complete HTTP answer
    whatever [process] does short of undefined behaviour: an exception
    becomes the text written so far followed by [Error: ] and its
    message, and [setupDownload], reading that answer from a server,
    accepts it and leaves exactly the lines of the text. *)
Theorem query_answer_downloads `{Collaborators} {S : Type}
    (h : Handlers S) (st st' : S) (is_ out : string) (w : World)
    (hostName path port : string) :
  is_Some (find_char "?" (read_request is_).1) →
  serveClient_reply h st is_ = (st', Ok out) →
  remote w hostName port path = Some (lines_of out) →
  ∃ resp ended toPrint,
    process h (query_of (url_decode h (read_request is_).1)) st
    = (st', resp, ended)
    ∧ match ended with
      | Ok () => toPrint = resp
      | Throw exp => toPrint = resp +:+ "Error: " +:+ what h exp +:+ NL
      | Undef => False
      end
    ∧ out = respond toPrint
    ∧ setupDownload w hostName path port = Ok (lines_of toPrint).
Proof.
  intros [i Hq] Hreply Hremote. unfold serveClient_reply in Hreply.
  cbn zeta in Hreply. rewrite Hq in Hreply.
  destruct (process h (query_of (url_decode h (read_request is_).1)) st)
    as [[st1 resp] ended].
  assert (Hdown : ∀ toPrint, out = respond toPrint →
            setupDownload w hostName path port = Ok (lines_of toPrint)).
  { intros toPrint ->. unfold setupDownload. rewrite Hremote.
    rewrite respond_lines.
    change (default "" (head ((?status :: ?hs) ++ ?body))) with status.
    change (contains "200 OK" ("HTTP/1.1 200 OK" +:+ CR)) with true.
    reflexivity. }
  exists resp, ended. destruct ended as [[]|exp|]; cbn [answer] in Hreply.
  - injection Hreply as <- <-. exists resp. auto.
  - injection Hreply as <- <-.
    exists (resp +:+ "Error: " +:+ what h exp +:+ NL). auto.
  - discriminate.
Qed.

Lemma query_answer_downloads_witness :
  let request := "GET /?query=fail HTTP/1.1" +:+ CR +:+ NL +:+ CR +:+ NL in
  ∃ out,
    serveClient_reply echo () request = ((), Ok out)
    ∧ setupDownload {| files := ∅; remote := λ _ _ _, Some (lines_of out);
                       writable := λ _, true |}
        "host" "/" "80"
      = Ok ["partialError: refused"].
Proof.
  intros request.
  assert (Hq : is_Some (find_char "?" (read_request request).1))
    by (vm_compute; eauto).
  destruct (serveClient_reply echo () request) as [[] [out| |]] eqn:Hreply;
    try (vm_compute in Hreply; discriminate).
  exists out. split; [done|].
  destruct (query_answer_downloads echo () () request out
              {| files := ∅; remote := λ _ _ _, Some (lines_of out);
                 writable := λ _, true |}
              "host" "/" "80" Hq Hreply eq_refl)
    as (resp & ended & toPrint & Hprocess & Hended & _ & ->).
  vm_compute in Hprocess. injection Hprocess as <- <-.
  by rewrite Hended.
Defined.

Lemma skip_ws_blank (ws s : string) :
  blank ws = true → skip_ws (ws +:+ s) = skip_ws s.
Proof.
  unfold blank. induction ws as [|c ws IH]; [done|]. cbn [none_of].
  intros [Hc Hws]%andb_prop.
  change (skip_ws (String c (ws +:+ s)) = skip_ws s). cbn [skip_ws].
  destruct (isspace c); [auto | done].
Qed.

Lemma skip_ws_word (s : string) :
  s ≠ "" → ends_word s = false → skip_ws s = s.
Proof.
  destruct s as [|c s]; [done|]. cbn [ends_word skip_ws]. by intros _ ->.
Qed.

Lemma read_word_word (word rest : string) :
  none_of isspace word = true → ends_word rest = true →
  read_word (word +:+ rest) = (word, rest).
Proof.
  intros Hword Hrest. induction word as [|c word IH].
  - destruct rest as [|c rest]; [done|]. cbn [ends_word] in Hrest.
    change (read_word (String c rest) = ("", String c rest)).
    cbn [read_word]. by rewrite Hrest.
  - cbn [none_of] in Hword. apply andb_prop in Hword as [Hc Hword].
    change (read_word (String c (word +:+ rest)) = (String c word, rest)).
    cbn [read_word]. destruct (isspace c); [done|]. by rewrite (IH Hword).
Qed.

Lemma ends_word_word (word rest : string) :
  word ≠ "" → none_of isspace word = true →
  (word +:+ rest) ≠ "" ∧ ends_word (word +:+ rest) = false.
Proof.
  destruct word as [|c word]; [done|]. intros _ Hword.
  cbn [none_of] in Hword. apply andb_prop in Hword as [Hc _].
  change (String c (word +:+ rest) ≠ ""
          ∧ ends_word (String c (word +:+ rest)) = false).
  cbn [ends_word]. by destruct (isspace c).
Qed.

Lemma extract_word (ws word rest : string) :
  blank ws = true → word ≠ "" → none_of isspace word = true →
  ends_word rest = true →
  extract (ws +:+ word +:+ rest) = Some (word, rest).
Proof.
  intros Hws Hne Hword Hrest. unfold extract.
  rewrite (skip_ws_blank _ _ Hws).
  destruct (ends_word_word word rest Hne Hword) as [Hne' Hends].
  rewrite (skip_ws_word _ Hne' Hends).
  destruct (word +:+ rest) eqn:Heq; [done|].
  by rewrite <- Heq, read_word_word.
Qed.

Lemma extract_blank (ws : string) : blank ws = true → extract ws = None.
Proof.
  intros Hws. unfold extract.
  rewrite <- (append_nil_r ws), (skip_ws_blank _ _ Hws). done.
Qed.

Lemma blank_ends_word (ws rest : string) :
  ws ≠ "" → blank ws = true → ends_word (ws +:+ rest) = true.
Proof.
  destruct ws as [|c ws]; [done|]. intros _. unfold blank. cbn [none_of].
  intros [Hc _]%andb_prop.
  change (ends_word (String c (ws +:+ rest)) = true). cbn [ends_word].
  by destruct (isspace c).
Qed.

Lemma find_char_none (c : ascii) (s : string) :
  none_of (is_char c) s = true ↔ find_char c s = None.
Proof.
  induction s as [|c' s IH]; [done|]. cbn [none_of find_char].
  unfold is_char at 1. destruct (c' =? c)%char; [done|].
  rewrite andb_true_l, IH. by destruct (find_char c s).
Qed.

Lemma find_char_first (c : ascii) (pre rest : string) :
  none_of (is_char c) pre = true →
  find_char c (pre +:+ String c rest) = Some (String.length pre)
  ∧ string_drop (S (String.length pre)) (pre +:+ String c rest) = rest.
Proof.
  induction pre as [|c' pre IH].
  - intros _. change (find_char c (String c rest) = Some 0
                      ∧ string_drop 1 (String c rest) = rest).
    cbn [find_char string_drop]. rewrite Ascii.eqb_refl.
    by destruct rest.
  - cbn [none_of]. intros [Hc Hpre]%andb_prop.
    destruct (IH Hpre) as [Hfind Hdrop].
    change (find_char c (String c' (pre +:+ String c rest))
            = Some (S (String.length pre))
            ∧ string_drop (S (S (String.length pre)))
                (String c' (pre +:+ String c rest)) = rest).
    cbn [find_char]. unfold is_char in Hc.
    destruct (c' =? c)%char; [done|]. rewrite Hfind. split; [done|].
    exact Hdrop.
Qed.

(** X23: [serveClient] routes a request by its second word, the
    target, and reads nothing else of it.  A target without a question
    mark is answered with the file named by the target less its first
    character, and the engine is left as it was; a target with a
    question mark is a query: it is decoded, cut after its first equals
    sign and handed to [process]. *)
Theorem request_is_routed_by_its_target {S : Type} (h : Handlers S)
    (st : S) (method sep target rest : string) :
  method ≠ "" → none_of isspace method = true →
  sep ≠ "" → blank sep = true →
  target ≠ "" → none_of isspace target = true →
  ends_word rest = true →
  let request := method +:+ sep +:+ target +:+ rest in
  (read_request request).1 = target
  ∧ (none_of (is_char "?") target = true →
     serveClient_reply h st request
     = (st, Ok (http_file h (string_drop 1 target))))
  ∧ (none_of (is_char "?") target = false →
     serveClient_reply h st request
     = answer h (process h (query_of (url_decode h target)) st)).
Proof.
  intros Hm1 Hm2 Hs1 Hs2 Ht1 Ht2 Hrest request.
  assert (Hline : (read_request request).1 = target).
  { unfold read_request, request.
    assert (Hfirst : extract (method +:+ sep +:+ target +:+ rest)
                     = Some (method, sep +:+ target +:+ rest)).
    { apply (extract_word "" method); [done | done | done |].
      by apply blank_ends_word. }
    rewrite Hfirst. by rewrite (extract_word sep target rest). }
  split; [done|]. unfold serveClient_reply. cbn zeta. rewrite Hline.
  split; intros Hq.
  - apply find_char_none in Hq. rewrite Hq. by rewrite decide_False.
  - destruct (find_char "?" target) eqn:Hfind; [done|].
    apply find_char_none in Hfind. congruence.
Qed.

Lemma request_is_routed_by_its_target_witness :
  serveClient_reply echo ()
    ("GET" +:+ " " +:+ "/index.html" +:+ (" HTTP/1.1" +:+ CR +:+ NL))
  = ((), Ok "file index.html").
Proof.
  destruct (request_is_routed_by_its_target echo () "GET" " " "/index.html"
              (" HTTP/1.1" +:+ CR +:+ NL))
    as (_ & Hfile & _); [done..|].
  by apply Hfile.
Defined.

(** X24: a request of fewer than two words (an empty stream, white
    space only, or one word) gets no answer at all, and the engine is
    left as it was. *)
Theorem short_request_gets_no_answer {S : Type} (h : Handlers S) (st : S)
    (ws word ws' : string) :
  blank ws = true → none_of isspace word = true → blank ws' = true →
  serveClient_reply h st (ws +:+ word +:+ ws') = (st, Ok "").
Proof.
  intros Hws Hword Hws'.
  assert (Hline : (read_request (ws +:+ word +:+ ws')).1 = "").
  { unfold read_request. destruct word as [|c word].
    - change ("" +:+ ws') with ws'.
      rewrite extract_blank; [done|].
      unfold blank in *. by rewrite none_of_app, Hws, Hws'.
    - rewrite (extract_word ws (String c word) ws'); [| done | done | done |].
      + by rewrite extract_blank.
      + destruct ws' as [|c' ws']; [done|]. unfold blank in Hws'.
        cbn [none_of] in Hws'. apply andb_prop in Hws' as [Hc' _].
        cbn [ends_word]. by destruct (isspace c'). }
  unfold serveClient_reply. cbn zeta. rewrite Hline. done.
Qed.

Lemma short_request_gets_no_answer_witness :
  serveClient_reply echo () (" " +:+ "GET" +:+ (CR +:+ NL)) = ((), Ok "").
Proof. by apply (short_request_gets_no_answer echo () " " "GET" (CR +:+ NL)). Defined.

(** X25: the query handed to [process] is what follows the first
    equals sign of the decoded target, later equals signs included; a
    decoded target without an equals sign is handed over whole. *)
Theorem query_follows_first_equals {S : Type} (h : Handlers S) (st : S)
    (is_ : string) :
  is_Some (find_char "?" (read_request is_).1) →
  (∀ pre query,
     url_decode h (read_request is_).1 = pre +:+ "=" +:+ query →
     none_of (is_char "=") pre = true →
     serveClient_reply h st is_ = answer h (process h query st))
  ∧ (none_of (is_char "=") (url_decode h (read_request is_).1) = true →
     serveClient_reply h st is_
     = answer h (process h (url_decode h (read_request is_).1) st)).
Proof.
  intros [i Hq]. unfold serveClient_reply. cbn zeta. rewrite Hq.
  split.
  - intros pre query Hdecoded Hpre. rewrite Hdecoded. unfold query_of.
    destruct (find_char_first "=" pre query Hpre) as [Hfind Hdrop].
    change (pre +:+ "=" +:+ query) with (pre +:+ String "=" query).
    by rewrite Hfind, Hdrop.
  - intros Hnone. apply find_char_none in Hnone. unfold query_of.
    by rewrite Hnone.
Qed.

Lemma query_follows_first_equals_witness :
  serveClient_reply echo ()
    ("GET /?query=a=b HTTP/1.1" +:+ CR +:+ NL +:+ CR +:+ NL)
  = ((), Ok (respond ("a=b" +:+ NL))).
Proof.
  assert (Hq : is_Some (find_char "?"
                (read_request ("GET /?query=a=b HTTP/1.1"
                               +:+ CR +:+ NL +:+ CR +:+ NL)).1))
    by (vm_compute; eauto).
  destruct (query_follows_first_equals echo ()
              ("GET /?query=a=b HTTP/1.1" +:+ CR +:+ NL +:+ CR +:+ NL) Hq)
    as [Hcut _].
  by rewrite (Hcut "/?query" "a=b").
Defined.
